(** * Cornac text modality: tokenizer, vocabulary, count vectorizer, text module

    A shallow embedding of [cornac/data/text.py] and the properties its
    specification states about it.

    Conventions of the embedding.
    - Python [str] is [string]; the tokenizer rules are modelled on ASCII text.
    - A Python exception is a value of [exn]; a call that may raise returns
      [result A].
    - A method that mutates [self] takes the object and returns the object
      after the call next to its result, also when it raises.
    - A Python [int] is [Z]; list positions and lengths are [nat].
    - A [dict] used only through lookups is a [gmap]; a [Counter], whose
      insertion order is observable, is an association list.
    - [numpy] and [scipy.sparse] are libraries outside the repository: their
      arrays are lists and a [csr_matrix] is the record of its three arrays
      and its shape. *)

From Stdlib Require Import ZArith Lia Floats Uint63 Ascii String.
From stdpp Require Import base tactics option list gmap strings sorting.

(** ** Python values and exceptions *)

Inductive exn : Set :=
  | ValueError
  | KeyError
  | IndexError
  | AttributeError
  | OverflowError
  | NotImplementedError.

Inductive result (A : Type) : Type :=
  | Ok (a : A)
  | Raise (e : exn).

Arguments Ok {A} a.
Arguments Raise {A} e.

#[global] Instance result_ret : MRet result := λ A a, Ok a.

#[global] Instance result_bind : MBind result := λ A B k r,
  match r with
  | Ok a => k a
  | Raise e => Raise e
  end.

(** A list comprehension whose body may raise: the first exception wins. *)
Fixpoint rmap {A B} (f : A → result B) (l : list A) : result (list B) :=
  match l with
  | [] => Ok []
  | x :: l' => y ← f x ; ys ← rmap f l' ; Ok (y :: ys)
  end.

(** [enumerate(l)]. *)
Definition enumerate {A} (l : list A) : list (nat * A) :=
  zip (seq 0 (length l)) l.

(** The position [l[i]] reads for a list of length [n]: a negative index
    counts from the end, anything outside [-n, n) is out of range. *)
Definition py_index (n : nat) (i : Z) : option nat :=
  if decide (0 ≤ i < Z.of_nat n)%Z then Some (Z.to_nat i)
  else if decide (- Z.of_nat n ≤ i < 0)%Z then Some (Z.to_nat (Z.of_nat n + i))
  else None.

(** [l[i]]. *)
Definition py_getitem {A} (l : list A) (i : Z) : result A :=
  match py_index (length l) i with
  | Some k => match l !! k with Some x => Ok x | None => Raise IndexError end
  | None => Raise IndexError
  end.

(** [del l[i]]. *)
Definition py_delitem {A} (l : list A) (i : Z) : result (list A) :=
  match py_index (length l) i with
  | Some k => Ok (delete k l)
  | None => Raise IndexError
  end.

(** [l[:k]]. *)
Definition py_slice_to {A} (l : list A) (k : Z) : list A :=
  if decide (0 ≤ k)%Z then take (Z.to_nat k) l
  else take (length l - Z.to_nat (- k)) l.

(** [l.remove(x)] where the caller has checked [x in l]: the first
    occurrence goes. *)
Fixpoint list_remove (x : string) (l : list string) : list string :=
  match l with
  | [] => []
  | y :: l' => if decide (x = y) then l' else y :: list_remove x l'
  end.

(** [sep.join(l)]. *)
Fixpoint join (sep : string) (l : list string) : string :=
  match l with
  | [] => ""
  | [x] => x
  | x :: l' => x +:+ sep +:+ join sep l'
  end.

(** A Python number that is either an [int] or a [float] (binary64). *)
Inductive number : Set :=
  | PyInt (z : Z)
  | PyFloat (f : float).

(** [float(z)]; exact below 2^53, which bounds every count met here. *)
Definition float_of_Z (z : Z) : float :=
  if decide (z < 0)%Z then PrimFloat.opp (PrimFloat.of_uint63 (Uint63.of_Z (- z)))
  else PrimFloat.of_uint63 (Uint63.of_Z z).

(** [isinstance(a, int)]. *)
Definition is_int (a : number) : bool :=
  match a with PyInt _ => true | PyFloat _ => false end.

(** [a * n] for an [int] n. *)
Definition num_mul (a : number) (n : Z) : number :=
  match a with
  | PyInt z => PyInt (z * n)
  | PyFloat f => PyFloat (PrimFloat.mul f (float_of_Z n))
  end.

(** [a < n], [a >= n] and [n <= a] for an [int] n. *)
Definition num_lt (a : number) (n : Z) : bool :=
  match a with
  | PyInt z => bool_decide (z < n)%Z
  | PyFloat f => PrimFloat.ltb f (float_of_Z n)
  end.

Definition num_ge (a : number) (n : Z) : bool :=
  match a with
  | PyInt z => bool_decide (n ≤ z)%Z
  | PyFloat f => PrimFloat.leb (float_of_Z n) f
  end.

Definition int_le_num (n : Z) (a : number) : bool := num_ge a n.

(** ** Tokenizer *)

Definition SP : ascii := Ascii.ascii_of_nat 32.
Definition LT : ascii := Ascii.ascii_of_nat 60.
Definition GT : ascii := Ascii.ascii_of_nat 62.

(** [t.lower()] on ASCII text. *)
Definition lower_char (c : ascii) : ascii :=
  let n := Ascii.nat_of_ascii c in
  if decide (65 ≤ n ≤ 90) then Ascii.ascii_of_nat (n + 32) else c.

Fixpoint lower (t : string) : string :=
  match t with
  | EmptyString => EmptyString
  | String c t' => String (lower_char c) (lower t')
  end.

(** [re.sub('<([^>]+)>', '', t)], scanning left to right.  [held] is the text
    from an opening [<] that has not met its [>] yet (it holds no [>]); a [>]
    right after the [<] matches nothing, and text still held at the end of
    the input was no tag. *)
Fixpoint rm_tags_scan (held : option string) (t : string) : string :=
  match t with
  | EmptyString => default "" held
  | String c t' =>
      match held with
      | None =>
          if decide (c = LT) then rm_tags_scan (Some (String c "")) t'
          else String c (rm_tags_scan None t')
      | Some h =>
          if decide (c = GT) then
            if decide (String.length h = 1) then h +:+ String c (rm_tags_scan None t')
            else rm_tags_scan None t'
          else rm_tags_scan (Some (h +:+ String c "")) t'
      end
  end.

Definition rm_tags (t : string) : string := rm_tags_scan None t.

Definition is_digit (c : ascii) : bool :=
  let n := Ascii.nat_of_ascii c in bool_decide (48 ≤ n ≤ 57).

(** [re.sub('[0-9]+', ' ', t)]: a run of digits becomes one space.
    [in_run] says that the previous character was a digit. *)
Fixpoint rm_numeric_scan (in_run : bool) (t : string) : string :=
  match t with
  | EmptyString => EmptyString
  | String c t' =>
      if is_digit c then
        if in_run then rm_numeric_scan true t'
        else String SP (rm_numeric_scan true t')
      else String c (rm_numeric_scan false t')
  end.

Definition rm_numeric (t : string) : string := rm_numeric_scan false t.

(** Membership in [string.punctuation], by character code. *)
Definition is_punctuation (c : ascii) : bool :=
  let n := Ascii.nat_of_ascii c in
  bool_decide (33 ≤ n ≤ 47) || bool_decide (58 ≤ n ≤ 64)
  || bool_decide (91 ≤ n ≤ 96) || bool_decide (123 ≤ n ≤ 126).

(** [t.translate(str.maketrans('', '', string.punctuation))]. *)
Fixpoint rm_punctuation (t : string) : string :=
  match t with
  | EmptyString => EmptyString
  | String c t' =>
      if is_punctuation c then rm_punctuation t' else String c (rm_punctuation t')
  end.

(** [re.sub(' {2,}', ' ', t)]: a run of spaces becomes one space. *)
Fixpoint rm_dup_spaces_scan (after_space : bool) (t : string) : string :=
  match t with
  | EmptyString => EmptyString
  | String c t' =>
      if decide (c = SP) then
        if after_space then rm_dup_spaces_scan true t'
        else String c (rm_dup_spaces_scan true t')
      else String c (rm_dup_spaces_scan false t')
  end.

Definition rm_dup_spaces (t : string) : string := rm_dup_spaces_scan false t.

Definition DEFAULT_PRE_RULES : list (string → string) :=
  [lower; rm_tags; rm_numeric; rm_punctuation; rm_dup_spaces].

(** [t.split(sep)] for a non-empty [sep]: [skip] counts the characters of a
    separator just matched that are still to be passed over, [cur] is the
    token being read. *)
Fixpoint split_scan (sep : string) (skip : nat) (cur : string) (t : string)
    : list string :=
  match t with
  | EmptyString => [cur]
  | String c t' =>
      match skip with
      | S k => split_scan sep k cur t'
      | O =>
          if String.prefix sep t
          then cur :: split_scan sep (String.length sep - 1) "" t'
          else split_scan sep 0 (cur +:+ String c "") t'
      end
  end.

(** [t.split(sep)]; an empty separator is a [ValueError]. *)
Definition split (sep : string) (t : string) : result (list string) :=
  if decide (sep = "") then Raise ValueError else Ok (split_scan sep 0 "" t).

(** The interface [Tokenizer]: two methods a subclass provides. *)
Record Tokenizer : Type := {
  tokenize : string → result (list string);
  batch_tokenize : list string → result (list (list string))
}.

(** The generic class itself implements neither. *)
Definition Tokenizer_generic : Tokenizer := {|
  tokenize := λ _, Raise NotImplementedError;
  batch_tokenize := λ _, Raise NotImplementedError
|}.

Definition BaseTokenizer_tokenize (sep : string) (pre_rules : list (string → string))
    (t : string) : result (list string) :=
  let t := foldl (λ t rule, rule t) t pre_rules in
  split sep t.

(** [BaseTokenizer(sep, pre_rules)]; [None] for [pre_rules] selects the
    default rules. *)
Definition BaseTokenizer (sep : string) (pre_rules : option (list (string → string)))
    : Tokenizer :=
  let rules := default DEFAULT_PRE_RULES pre_rules in {|
    tokenize := BaseTokenizer_tokenize sep rules;
    batch_tokenize := rmap (BaseTokenizer_tokenize sep rules)
  |}.

(** [BaseTokenizer()]. *)
Definition BaseTokenizer_default : Tokenizer := BaseTokenizer " " None.

(** ** Vocabulary *)

Definition PAD : string := "<PAD>".
Definition UNK : string := "<UNK>".
Definition BOS : string := "<BOS>".
Definition EOS : string := "<EOS>".

Definition SPECIAL_TOKENS : list string := [PAD; UNK; BOS; EOS].

(** [tok2idx] is a [defaultdict(int)]; the code below never triggers its
    default: [to_idx] reads it with [get] and [_count] tests membership
    before it subscripts. *)
Record Vocabulary : Type := {
  idx2tok : list string;
  tok2idx : gmap string Z
}.

(** [{tok: idx for idx, tok in enumerate(l)}]: a repeated token keeps its
    last position. *)
Definition dict_of_enumerate (l : list string) : gmap string Z :=
  foldl (λ m it, <[it.2 := Z.of_nat it.1]> m) ∅ (enumerate l).

Definition build_tok2idx (v : Vocabulary) : Vocabulary :=
  {| idx2tok := idx2tok v; tok2idx := dict_of_enumerate (idx2tok v) |}.

(** The loop of [_add_special_tokens] on the contents of the list. *)
Definition _add_special_tokens (idx2tok : list string) : list string :=
  foldl (λ idx2tok tok,
           let idx2tok :=
             if bool_decide (tok ∈ idx2tok) then list_remove tok idx2tok else idx2tok in
           tok :: idx2tok)
        idx2tok (reverse SPECIAL_TOKENS).

(** [Vocabulary(idx2tok)]. *)
Definition Vocabulary_init (idx2tok : list string) : Vocabulary :=
  build_tok2idx {| idx2tok := _add_special_tokens idx2tok; tok2idx := ∅ |}.

Definition size (v : Vocabulary) : nat := length (idx2tok v).

(** [to_idx]: [tok2idx.get(tok, 1)] for every token. *)
Definition to_idx (v : Vocabulary) (tokens : list string) : list Z :=
  map (λ tok, default 1%Z (tok2idx v !! tok)) tokens.

(** What [to_text] returns: the joined text, or the list when [sep] is
    [None]. *)
Inductive text : Type :=
  | Joined (s : string)
  | Tokens (l : list string).

Definition to_text (v : Vocabulary) (indices : list Z) (sep : option string)
    : result text :=
  match sep with
  | Some s => toks ← rmap (py_getitem (idx2tok v)) indices; Ok (Joined (join s toks))
  | None => toks ← rmap (py_getitem (idx2tok v)) indices; Ok (Tokens toks)
  end.

(** *** The constructor on list objects

    [Vocabulary(idx2tok)] receives a reference to the caller's list, and
    [remove] and [insert] act on that object.  The heap maps the address of
    a list object to its contents. *)

Abbreviation loc := nat (only parsing).
Abbreviation heap := (gmap nat (list string)) (only parsing).

Record VocabularyObj : Type := {
  idx2tok_ref : loc;
  tok2idx_obj : gmap string Z
}.

Definition deref (h : heap) (r : loc) : list string := default [] (h !! r).

Definition obj_contains (r : loc) (tok : string) (h : heap) : bool :=
  bool_decide (tok ∈ deref h r).

Definition obj_remove (r : loc) (tok : string) (h : heap) : heap :=
  alter (list_remove tok) r h.

Definition obj_insert0 (r : loc) (tok : string) (h : heap) : heap :=
  alter (cons tok) r h.

(** [_add_special_tokens(idx2tok)]: returns the reference it was given. *)
Definition _add_special_tokens_obj (r : loc) (h : heap) : loc * heap :=
  (r, foldl (λ h tok,
               let h := if obj_contains r tok h then obj_remove r tok h else h in
               obj_insert0 r tok h)
            h (reverse SPECIAL_TOKENS)).

(** [Vocabulary.__init__(self, idx2tok)]. *)
Definition Vocabulary_init_obj (arg : loc) (h : heap) : VocabularyObj * heap :=
  let '(r, h) := _add_special_tokens_obj arg h in
  ({| idx2tok_ref := r; tok2idx_obj := dict_of_enumerate (deref h r) |}, h).

(** ** Counter *)

Section counter.
Context {K : Type} `{EqDecision K}.

(** [c[k] += 1]: a new key goes to the end. *)
Fixpoint counter_incr (k : K) (c : list (K * Z)) : list (K * Z) :=
  match c with
  | [] => [(k, 1%Z)]
  | it :: c' =>
      if decide (k = it.1) then (it.1, (it.2 + 1)%Z) :: c'
      else it :: counter_incr k c'
  end.

(** [Counter(l)]: the items in order of first occurrence. *)
Definition Counter (l : list K) : list (K * Z) :=
  foldl (λ c k, counter_incr k c) [] l.

(** One step of the stable sort by descending count: [it] goes after the
    items that count at least as much. *)
Fixpoint insert_desc (it : K * Z) (l : list (K * Z)) : list (K * Z) :=
  match l with
  | [] => [it]
  | it' :: l' =>
      if decide (it'.2 < it.2)%Z then it :: it' :: l'
      else it' :: insert_desc it l'
  end.

(** [sorted(c.items(), key=itemgetter(1), reverse=True)]. *)
Definition sort_desc (c : list (K * Z)) : list (K * Z) :=
  foldl (λ acc it, insert_desc it acc) [] c.

(** [c.most_common(n)]. *)
Definition most_common (n : option Z) (c : list (K * Z)) : list (K * Z) :=
  match n with
  | None => sort_desc c
  | Some n => take (Z.to_nat n) (sort_desc c)
  end.
End counter.

(** [Vocabulary.from_tokens(tokens, max_vocab, min_freq)]. *)
Definition from_tokens (tokens : list string) (max_vocab : option Z) (min_freq : Z)
    : Vocabulary :=
  let freq := Counter tokens in
  let idx2tok :=
    map fst (filter (λ it, (min_freq ≤ it.2)%Z) (most_common max_vocab freq)) in
  Vocabulary_init idx2tok.

(** [Vocabulary.from_sequences(sequences, max_vocab, min_freq)]. *)
Definition from_sequences (sequences : list (list string)) (max_vocab : option Z)
    (min_freq : Z) : Vocabulary :=
  from_tokens (concat sequences) max_vocab min_freq.

(** ** numpy arrays and scipy's CSR matrices *)

(** [csr_matrix]: row [i] holds the entries at positions
    [indptr[i] .. indptr[i+1]-1] of [indices] (columns) and [data] (values). *)
Record csr_matrix : Type := {
  data : list Z;
  indices : list Z;
  indptr : list nat;
  shape : nat * nat
}.

(** [csr_matrix((data, indices, indptr), shape=shape)]; the three arrays are
    taken as they are, a negative dimension is refused. *)
Definition csr_matrix_new (data indices : list Z) (indptr : list nat) (shape : nat * Z)
    : result csr_matrix :=
  if decide (shape.2 < 0)%Z then Raise ValueError
  else Ok {| data := data; indices := indices; indptr := indptr;
             shape := (shape.1, Z.to_nat shape.2) |}.

(** [l[a:b]] for [0 <= a <= b]. *)
Definition slice {A} (a b : nat) (l : list A) : list A := take (b - a) (drop a l).

(** The (column, value) entries of row [i]. *)
Definition csr_row (X : csr_matrix) (i : nat) : list (Z * Z) :=
  let a := default 0 (indptr X !! i) in
  let b := default 0 (indptr X !! S i) in
  zip (slice a b (indices X)) (slice a b (data X)).

Definition csr_rows (X : csr_matrix) : list (list (Z * Z)) :=
  map (csr_row X) (seq 0 (shape X).1).

(** The row pointer of the rows laid out one after the other from [p]. *)
Fixpoint indptr_from (p : nat) (rows : list (list (Z * Z))) : list nat :=
  match rows with
  | [] => [p]
  | r :: rows' => p :: indptr_from (p + length r) rows'
  end.

Definition csr_of_rows (rows : list (list (Z * Z))) (ncols : nat) : csr_matrix := {|
  data := concat (map (map snd) rows);
  indices := concat (map (map fst) rows);
  indptr := indptr_from 0 rows;
  shape := (length rows, ncols)
|}.

Fixpoint insert_entry (e : Z * Z) (row : list (Z * Z)) : list (Z * Z) :=
  match row with
  | [] => [e]
  | e' :: row' =>
      if decide (e.1 ≤ e'.1)%Z then e :: e' :: row' else e' :: insert_entry e row'
  end.

Definition sort_row (row : list (Z * Z)) : list (Z * Z) := foldr insert_entry [] row.

(** [X.sort_indices()]: every row ordered by column. *)
Definition sort_indices (X : csr_matrix) : csr_matrix :=
  csr_of_rows (map sort_row (csr_rows X)) (shape X).2.

(** [X.data.fill(x)]. *)
Definition data_fill (X : csr_matrix) (x : Z) : csr_matrix :=
  {| data := map (λ _, x) (data X); indices := indices X; indptr := indptr X;
     shape := shape X |}.

(** [np.bincount(x, minlength=minlength)]. *)
Definition bincount (x : list Z) (minlength : nat) : result (list Z) :=
  if bool_decide (Exists (λ i, i < 0)%Z x) then Raise ValueError
  else
    let n := minlength `max` Z.to_nat (foldr Z.max (-1)%Z x + 1) in
    Ok (map (λ j, Z.of_nat (length (filter (λ i, i = Z.of_nat j) x))) (seq 0 n)).

(** [np.where(mask)[0]]. *)
Definition np_where (mask : list bool) : list nat :=
  map fst (filter (λ it, it.2 = true) (enumerate mask)).

(** The entries of [a] at the positions where [mask] is set. *)
Definition masked {A} (mask : list bool) (a : list A) : list A :=
  map snd (filter (λ it, it.1 = true) (zip mask a)).

(** [a[mask]] for a boolean [mask]: the lengths must agree. *)
Definition mask_select {A} (a : list A) (mask : list bool) : result (list A) :=
  if decide (length a = length mask) then Ok (masked mask a) else Raise IndexError.

(** [m = np.zeros(n, dtype=bool); m[idxs] = True]. *)
Definition mask_of_indices (n : nat) (idxs : list nat) : list bool :=
  map (λ j, bool_decide (j ∈ idxs)) (seq 0 n).

(** [X[:, kept]]: the entries of the columns in [kept], renumbered by their
    position in [kept]. *)
Definition select_entry (kept : list nat) (e : Z * Z) : option (Z * Z) :=
  k ← list_find (λ j, Z.of_nat j = e.1) kept; Some (Z.of_nat k.1, e.2).

Definition select_columns (X : csr_matrix) (kept : list nat) : csr_matrix :=
  csr_of_rows (map (omap (select_entry kept)) (csr_rows X)) (length kept).

Definition sumZ (l : list Z) : Z := foldr Z.add 0%Z l.

(** The value at row [i], column [j]. *)
Definition csr_get (X : csr_matrix) (i : nat) (j : Z) : Z :=
  sumZ (map snd (filter (λ e, e.1 = j) (csr_row X i))).

(** [X.A]. *)
Definition todense (X : csr_matrix) : list (list Z) :=
  map (λ i, map (λ j, csr_get X i (Z.of_nat j)) (seq 0 (shape X).2)) (seq 0 (shape X).1).

(** ** CountVectorizer *)

Record CountVectorizer : Type := {
  tokenizer : Tokenizer;
  vocab : option Vocabulary;
  max_doc_freq : number;
  min_freq : Z;
  max_features : option Z;
  binary : bool
}.

Definition set_vocab (cv : CountVectorizer) (v : Vocabulary) : CountVectorizer :=
  {| tokenizer := tokenizer cv; vocab := Some v; max_doc_freq := max_doc_freq cv;
     min_freq := min_freq cv; max_features := max_features cv; binary := binary cv |}.

(** [CountVectorizer(tokenizer, vocab, max_doc_freq, min_freq, stop_words,
    max_features, binary)]; [stop_words] is accepted and dropped. *)
Definition CountVectorizer_init (tokenizer : option Tokenizer) (vocab : option Vocabulary)
    (max_doc_freq : number) (min_freq : Z) (max_features : option Z) (binary : bool)
    : result CountVectorizer :=
  let self := {| tokenizer := default BaseTokenizer_default tokenizer; vocab := vocab;
                 max_doc_freq := max_doc_freq; min_freq := min_freq;
                 max_features := max_features; binary := binary |} in
  if num_lt max_doc_freq 0 || bool_decide (min_freq < 0)%Z then Raise ValueError
  else match max_features with
       | Some mf => if bool_decide (mf ≤ 0)%Z then Raise ValueError else Ok self
       | None => Ok self
       end.

Definition _doc_freq (X : csr_matrix) : result (list Z) :=
  bincount (indices X) (shape X).2.

(** The loop [for index in ...: del self.vocab.idx2tok[index + 4]]; the list
    is returned as the loop left it. *)
Fixpoint del_loop (idxs : list nat) (l : list string) : result unit * list string :=
  match idxs with
  | [] => (Ok (), l)
  | index :: idxs' =>
      match py_delitem l (Z.of_nat (index + length SPECIAL_TOKENS)) with
      | Ok l' => del_loop idxs' l'
      | Raise e => (Raise e, l)
      end
  end.

(** The mask after the [max_features] test of [_limit_features]. *)
Definition cap_mask (max_features : option Z) (n : nat) (term_indices : list nat)
    (mask : list bool) : result (list bool) :=
  match max_features with
  | Some mf =>
      if decide (mf < Z.of_nat (length (filter (λ b, b = true) mask)))%Z then
        selected ← mask_select term_indices mask;
        Ok (mask_of_indices n (py_slice_to selected mf))
      else Ok mask
  | None => Ok mask
  end.

Definition _limit_features (self : CountVectorizer) (X : csr_matrix)
    (max_doc_count : number) : result csr_matrix * CountVectorizer :=
  if num_ge max_doc_count (Z.of_nat (shape X).1) then (Ok X, self)
  else
    match _doc_freq X with
    | Raise e => (Raise e, self)
    | Ok doc_frequencies =>
        let term_indices := seq 0 (shape X).2 in
        let mask := map (λ df, int_le_num df max_doc_count) doc_frequencies in
        match cap_mask (max_features self) (length doc_frequencies) term_indices mask with
        | Raise e => (Raise e, self)
        | Ok mask =>
            match vocab self with
            | None => (Raise AttributeError, self)
            | Some v =>
                match del_loop (reverse (np_where (map negb mask))) (idx2tok v) with
                | (Raise e, l) =>
                    (Raise e, set_vocab self {| idx2tok := l; tok2idx := tok2idx v |})
                | (Ok _, l) =>
                    let self :=
                      set_vocab self (build_tok2idx {| idx2tok := l; tok2idx := tok2idx v |}) in
                    let kept_indices := np_where mask in
                    if decide (length kept_indices = 0) then (Raise ValueError, self)
                    else (Ok (select_columns X kept_indices), self)
                end
            end
        end
    end.

(** One token of a document in [_count]: a token outside [tok2idx] is passed
    over, another counts at its id less the reserved ones. *)
Definition count_token (v : Vocabulary) (feature_counter : list (Z * Z)) (token : string)
    : list (Z * Z) :=
  match tok2idx v !! token with
  | None => feature_counter
  | Some idx =>
      counter_incr (idx - Z.of_nat (length SPECIAL_TOKENS))%Z feature_counter
  end.

(** The counter of one document in [_count]. *)
Definition feature_counter (v : Vocabulary) (sequence : list string) : list (Z * Z) :=
  foldl (count_token v) [] sequence.

Definition _count (self : CountVectorizer) (sequences : list (list string))
    : result csr_matrix :=
  match vocab self with
  | None => Raise AttributeError
  | Some v =>
      let '(data, indices, indptr) :=
        foldl (λ st sequence,
                 let '(data, indices, indptr) := st in
                 let fc := feature_counter v sequence in
                 let indices := indices ++ map fst fc in
                 (data ++ map snd fc, indices, indptr ++ [length indices]))
              ([], [], [0]) sequences in
      X ← csr_matrix_new data indices indptr
            (length sequences,
             (Z.of_nat (size v) - Z.of_nat (length SPECIAL_TOKENS))%Z);
      Ok (sort_indices X)
  end.

Definition fit_transform (self : CountVectorizer) (raw_documents : list string)
    : result (list (list string) * csr_matrix) * CountVectorizer :=
  match batch_tokenize (tokenizer self) raw_documents with
  | Raise e => (Raise e, self)
  | Ok sequences =>
      let fixed_vocab := bool_decide (is_Some (vocab self)) in
      let self :=
        if fixed_vocab then self
        else set_vocab self (from_sequences sequences None (min_freq self)) in
      match _count self sequences with
      | Raise e => (Raise e, self)
      | Ok X =>
          let X := if binary self then data_fill X 1 else X in
          if fixed_vocab then (Ok (sequences, X), self)
          else
            let n_docs := (shape X).1 in
            let max_doc_count :=
              if is_int (max_doc_freq self) then max_doc_freq self
              else num_mul (max_doc_freq self) (Z.of_nat n_docs) in
            match _limit_features self X max_doc_count with
            | (Ok X, self) => (Ok (sequences, X), self)
            | (Raise e, self) => (Raise e, self)
            end
      end
  end.

Definition fit (self : CountVectorizer) (raw_documents : list string)
    : result unit * CountVectorizer :=
  match fit_transform self raw_documents with
  | (Ok _, self) => (Ok (), self)
  | (Raise e, self) => (Raise e, self)
  end.

Definition transform (self : CountVectorizer) (raw_documents : list string)
    : result (list (list string) * csr_matrix) * CountVectorizer :=
  match batch_tokenize (tokenizer self) raw_documents with
  | Raise e => (Raise e, self)
  | Ok sequences =>
      match _count self sequences with
      | Raise e => (Raise e, self)
      | Ok X =>
          let X := if binary self then data_fill X 1 else X in
          (Ok (sequences, X), self)
      end
  end.

(** The corpus of the tests. *)
Definition docs : list string := ["a b c"; "b c d d"; "c b e c f"].

(** ** TextModule *)

(** The attribute [_id_text]: [None], a dictionary from raw id to text, or
    gone after [del self._id_text]. *)
Inductive id_text_attr : Type :=
  | IdDeleted
  | IdNone
  | IdDict (d : gmap string string).

(** The fields of a [TextModule]; [text_tokenizer], [text_vocab],
    [text_max_doc_freq] and [text_min_freq] are the attributes [tokenizer],
    [vocab], [max_doc_freq] and [min_freq]. *)
Record TextModule : Type := {
  _id_text : id_text_attr;
  text_tokenizer : option Tokenizer;
  text_vocab : option Vocabulary;
  max_vocab : option Z;
  text_max_doc_freq : number;
  text_min_freq : Z;
  sequences : option (list (list Z));
  counts : option csr_matrix
}.

(** [TextModule(id_text, tokenizer, vocab, max_vocab, max_doc_freq, min_freq)]. *)
Definition TextModule_init (id_text : option (gmap string string))
    (tokenizer : option Tokenizer) (vocab : option Vocabulary) (max_vocab : option Z)
    (max_doc_freq : number) (min_freq : Z) : TextModule := {|
  _id_text := match id_text with Some d => IdDict d | None => IdNone end;
  text_tokenizer := tokenizer;
  text_vocab := vocab;
  max_vocab := max_vocab;
  text_max_doc_freq := max_doc_freq;
  text_min_freq := min_freq;
  sequences := None;
  counts := None
|}.

Definition set_id_text (self : TextModule) (a : id_text_attr) : TextModule :=
  {| _id_text := a; text_tokenizer := text_tokenizer self; text_vocab := text_vocab self;
     max_vocab := max_vocab self; text_max_doc_freq := text_max_doc_freq self;
     text_min_freq := text_min_freq self; sequences := sequences self;
     counts := counts self |}.

Definition set_built (self : TextModule) (v : option Vocabulary)
    (seqs : list (list Z)) (X : csr_matrix) : TextModule :=
  {| _id_text := _id_text self; text_tokenizer := text_tokenizer self; text_vocab := v;
     max_vocab := max_vocab self; text_max_doc_freq := text_max_doc_freq self;
     text_min_freq := text_min_freq self; sequences := Some seqs; counts := Some X |}.

(** [{mapped_id: raw_id for raw_id, mapped_id in global_id_map.items()}];
    the global id map is given by its items, in the order of the dictionary. *)
Definition invert_id_map (global_id_map : list (string * Z)) : gmap Z string :=
  foldl (λ m it, <[it.2 := it.1]> m) ∅ global_id_map.

(** The loop of [_build_text] over [range(len(global_id_map))]; the
    dictionary is returned as the loop left it. *)
Fixpoint order_texts (mapped2raw : gmap Z string) (mapped_ids : list nat)
    (id_text : gmap string string) (ordered_texts : list string)
    : result (list string) * gmap string string :=
  match mapped_ids with
  | [] => (Ok ordered_texts, id_text)
  | mapped_id :: mapped_ids' =>
      match mapped2raw !! Z.of_nat mapped_id with
      | None => (Raise KeyError, id_text)
      | Some raw_id =>
          match id_text !! raw_id with
          | None => (Raise KeyError, id_text)
          | Some t =>
              order_texts mapped2raw mapped_ids' (delete raw_id id_text)
                (ordered_texts ++ [t])
          end
      end
  end.

Definition _build_text (self : TextModule) (global_id_map : list (string * Z))
    : result unit * TextModule :=
  match _id_text self with
  | IdDeleted => (Raise AttributeError, self)
  | IdNone => (Ok (), self)
  | IdDict id_text =>
      let mapped2raw := invert_id_map global_id_map in
      match order_texts mapped2raw (seq 0 (length global_id_map)) id_text [] with
      | (Raise e, id_text) => (Raise e, set_id_text self (IdDict id_text))
      | (Ok ordered_texts, _) =>
          let self := set_id_text self IdDeleted in
          match CountVectorizer_init (text_tokenizer self) (text_vocab self)
                  (text_max_doc_freq self) (text_min_freq self) (max_vocab self) false with
          | Raise e => (Raise e, self)
          | Ok vectorizer =>
              match fit_transform vectorizer ordered_texts with
              | (Raise e, _) => (Raise e, self)
              | (Ok (seqs, X), vectorizer) =>
                  match rmap (λ seq, match vocab vectorizer with
                                     | Some v => Ok (to_idx v seq)
                                     | None => Raise AttributeError
                                     end) seqs with
                  | Raise e => (Raise e, self)
                  | Ok idx_seqs => (Ok (), set_built self (vocab vectorizer) idx_seqs X)
                  end
              end
          end
      end
  end.

(** [build]: the part of the superclass, whose code acts on fields that are
    not the text fields, is [super_build]; it may raise. *)
Definition build (super_build : list (string * Z) → result unit) (self : TextModule)
    (global_id_map : list (string * Z)) : result unit * TextModule :=
  match super_build global_id_map with
  | Raise e => (Raise e, self)
  | Ok _ => _build_text self global_id_map
  end.



(** The values an array of [dtype=np.int] holds: signed 64-bit integers. *)
Definition int64 (z : Z) : Prop := (- 2 ^ 63 ≤ z < 2 ^ 63)%Z.

#[global] Instance int64_dec (z : Z) : Decision (int64 z).
Proof. unfold int64. apply _. Defined.





(** [X[batch_ids]] for a list of row ids: the rows at those ids, a negative
    id counting from the end. *)
Definition select_rows (X : csr_matrix) (batch_ids : list Z) : result csr_matrix :=
  rows ← rmap (py_getitem (csr_rows X)) batch_ids;
  Ok (csr_of_rows rows (shape X).2).

(** [batch_bow(batch_ids, binary)]: the selected rows are a matrix of their
    own, so [bow_mat.data.fill(1)] leaves [counts] as it is. *)
Definition batch_bow (self : TextModule) (batch_ids : list Z) (binary : bool)
    : result csr_matrix :=
  match counts self with
  | None => Raise ValueError
  | Some counts =>
      bow_mat ← select_rows counts batch_ids;
      Ok (if binary then data_fill bow_mat 1 else bow_mat)
  end.

(** [batch_tfidf(batch_ids)]. *)
Definition batch_tfidf (self : TextModule) (batch_ids : list Z) : result csr_matrix :=
  Raise NotImplementedError.

(** ** Vocabulary of the statements *)

(** The tokens that follow the reserved ones: the argument less the first
    occurrence of each reserved token. *)
Definition strip_reserved (T : list string) : list string :=
  list_remove PAD (list_remove UNK (list_remove BOS (list_remove EOS T))).

(** [l] without the first occurrence of [x], in the words of the statement:
    the entry at the first position that holds [x] goes, and [l] is kept as
    it is when no position holds [x]. *)
Definition without_first (x : string) (l : list string) : list string :=
  match list_find (λ y, y = x) l with
  | Some (i, _) => delete i l
  | None => l
  end.

(** [T] without the first occurrence of each reserved token. *)
Definition without_reserved (T : list string) : list string :=
  foldr without_first T SPECIAL_TOKENS.

(** [tok] is one of the four reserved tokens. *)
Definition reserved (tok : string) : Prop := tok ∈ SPECIAL_TOKENS.

#[global] Instance reserved_dec (tok : string) : Decision (reserved tok).
Proof. unfold reserved. apply _. Defined.

(** The number of reserved tokens that occur in [T], each counted once. *)
Definition reserved_in (T : list string) : nat :=
  length (filter (λ tok, tok ∈ T) SPECIAL_TOKENS).

(** The distinct tokens of [T] that are not reserved. *)
Definition distinct_non_reserved (T : list string) : list string :=
  remove_dups (filter (λ tok, ¬ reserved tok) T).

(** [tok2idx] is the dictionary [build_tok2idx] computes from [idx2tok], as
    it is after the constructor and after every pruning. *)
Definition consistent (v : Vocabulary) : Prop :=
  tok2idx v = dict_of_enumerate (idx2tok v).

(** A heap with one list object, which begins with the reserved tokens. *)
Definition heap_special : gmap nat (list string) := {[ 0 := SPECIAL_TOKENS ++ ["a"] ]}.




(** A module given an empty raw-text dictionary. *)
Definition module_no_text : TextModule :=
  TextModule_init (Some ∅) None None None (PyFloat 1.0%float) 1.

(** A raw-text dictionary with a text for ['u1'] only. *)
Definition id_text_u1 : gmap string string := {[ "u1" := "a b c" ]}.

(** The sum of the values, and the number of entries, a row holds at column
    [j]. *)
Definition sum_at (j : Z) (row : list (Z * Z)) : Z :=
  sumZ (map snd (filter (λ e, e.1 = j) row)).

Definition entries_at (j : Z) (row : list (Z * Z)) : nat :=
  length (filter (λ e, e.1 = j) row).

(** The number of tokens of [seq] whose id in [v] is [j + 4]. *)
Definition occurrences (v : Vocabulary) (j : Z) (seq : list string) : nat :=
  length (filter (λ tok, tok2idx v !! tok = Some (j + 4)%Z) seq).

(** A count as [transform] reports it: clamped to 1 when [binary] is set. *)
Definition reported (binary : bool) (c : nat) : Z :=
  if binary then (if decide (0 < c) then 1%Z else 0%Z) else Z.of_nat c.

(** A vectorizer over the fixed vocabulary of the reserved tokens and d. *)
Definition vectorizer_d : CountVectorizer := {|
  tokenizer := BaseTokenizer_default; vocab := Some (Vocabulary_init ["d"]);
  max_doc_freq := PyFloat 1.0%float; min_freq := 1; max_features := None; binary := false
|}.

(** What a call returned, for inspection: the tokenized documents, the shape
    of the matrix and its dense form. *)
Definition returned (r : result (list (list string) * csr_matrix))
    : result (list (list string) * (nat * nat) * list (list Z)) :=
  sX ← r; Ok (sX.1, shape sX.2, todense sX.2).

(** The corpus [docs] of the tests, tokenized. *)
Definition corpus_tokens : list (list string) :=
  [["a"; "b"; "c"]; ["b"; "c"; "d"; "d"]; ["c"; "b"; "e"; "c"; "f"]].

(** [CountVectorizer(max_doc_freq=2, min_freq=1, max_features=1)]. *)
Definition vectorizer_2_1_1 : CountVectorizer := {|
  tokenizer := BaseTokenizer_default; vocab := None;
  max_doc_freq := PyInt 2; min_freq := 1; max_features := Some 1%Z; binary := false
|}.

(** The vectorizer of C2 while it is fitted: the vocabulary built from the
    corpus, before any pruning. *)
Definition vectorizer_2_1_1_counting : CountVectorizer :=
  set_vocab vectorizer_2_1_1 (from_sequences corpus_tokens None 1).

(** [CountVectorizer(max_features=1)]: the other arguments at their
    defaults, [max_doc_freq=1.0] among them. *)
Definition vectorizer_cap_1 : CountVectorizer := {|
  tokenizer := BaseTokenizer_default; vocab := None;
  max_doc_freq := PyFloat 1.0%float; min_freq := 1; max_features := Some 1%Z;
  binary := false
|}.

(** [CountVectorizer(min_freq=5)]: the other arguments at their defaults. *)
Definition vectorizer_min_5 : CountVectorizer := {|
  tokenizer := BaseTokenizer_default; vocab := None;
  max_doc_freq := PyFloat 1.0%float; min_freq := 5; max_features := None;
  binary := false
|}.

(** [t[n:]] on strings. *)
Fixpoint string_drop (n : nat) (t : string) : string :=
  match n, t with
  | O, _ => t
  | S n', String _ t' => string_drop n' t'
  | S _, EmptyString => EmptyString
  end.

(** Every character of [t] satisfies [P]. *)
Fixpoint string_all (P : ascii → Prop) (t : string) : Prop :=
  match t with
  | EmptyString => True
  | String c t' => P c ∧ string_all P t'
  end.

(** An upper-case ASCII letter. *)
Definition is_upper (c : ascii) : Prop := 65 ≤ nat_of_ascii c ≤ 90.

(** What the default rules and the split leave in a token: no upper-case
    letter, no digit, no punctuation, no space. *)
Definition clean_char (c : ascii) : Prop :=
  ¬ is_upper c ∧ is_digit c = false ∧ is_punctuation c = false ∧ c ≠ SP.

(** [t] holds no two spaces in a row, and does not begin with a space when
    [after_space] is set. *)
Fixpoint single_spaced (after_space : bool) (t : string) : Prop :=
  match t with
  | EmptyString => True
  | String c t' =>
      if decide (c = SP) then after_space = false ∧ single_spaced true t'
      else single_spaced false t'
  end.

(** The entries of [l] between the first and the last. *)
Definition inner {A} (l : list A) : list A := tail (removelast l).

(** The number of occurrences of [tok] in [tokens]. *)
Definition freq (tok : string) (tokens : list string) : Z :=
  Z.of_nat (length (filter (λ x, x = tok) tokens)).

(** The distinct entries of [tokens], in the order of their first
    occurrence. *)
Definition first_seen (tokens : list string) : list string :=
  foldl (λ acc x, if decide (x ∈ acc) then acc else acc ++ [x]) [] tokens.

(** The threshold [fit_transform] hands to [_limit_features]. *)
Definition max_doc_count_of (self : CountVectorizer) (n_docs : nat) : number :=
  if is_int (max_doc_freq self) then max_doc_freq self
  else num_mul (max_doc_freq self) (Z.of_nat n_docs).

(** The number of documents in which a token with id [j + 4] occurs. *)
Definition doc_count_id (v : Vocabulary) (j : Z) (seqs : list (list string)) : nat :=
  length (filter (λ seq, 0 < occurrences v j seq) seqs).

(** The number of documents in which [term] occurs. *)
Definition doc_count (term : string) (seqs : list (list string)) : nat :=
  length (filter (λ seq, term ∈ seq) seqs).

(** The first [max_features] entries, all of them when none is set. *)
Definition capped {A} (max_features : option Z) (l : list A) : list A :=
  match max_features with
  | Some mf => take (Z.to_nat mf) l
  | None => l
  end.

(** The terms [fit_transform] keeps past the first test of
    [_limit_features]: the terms whose document frequency is at most
    [max_doc_count], capped at [max_features]. *)
Definition kept_terms (self : CountVectorizer) (max_doc_count : number)
    (seqs : list (list string)) (terms : list string) : list string :=
  capped (max_features self)
    (filter (λ term, int_le_num (Z.of_nat (doc_count term seqs)) max_doc_count = true) terms).

(** The rows of the matrix [transform] and [fit_transform] count into. *)
Definition count_rows (v : Vocabulary) (binary : bool) (seqs : list (list string))
    : list (list (Z * Z)) :=
  let rows := map sort_row (map (feature_counter v) seqs) in
  if binary then map (map (λ e, (e.1, 1%Z))) rows else rows.

(** The row an id selects among [n]: a negative id counts from the end. *)
Definition row_of_id (n : nat) (id : Z) : nat :=
  Z.to_nat (if decide (0 ≤ id)%Z then id else (Z.of_nat n + id)%Z).

(** A module whose counts are the 2-by-2 matrix [[1, 1], [0, 2]]. *)
Definition module_counts : TextModule := {|
  _id_text := IdDeleted; text_tokenizer := None; text_vocab := None; max_vocab := None;
  text_max_doc_freq := PyInt 1; text_min_freq := 1;
  sequences := None;
  counts := Some (csr_of_rows [[(0, 1); (1, 1)]; [(1, 2)]]%Z 2)
|}.

(** The count matrix of the corpus of the tests over the vocabulary
    [from_sequences] builds from it with [min_freq]. *)
Definition corpus_counts (min_freq : Z) : csr_matrix :=
  let V := from_sequences corpus_tokens None min_freq in
  csr_of_rows (count_rows V false corpus_tokens) (size V - 4).

(** [CountVectorizer(max_doc_freq=2, min_freq=3)] while it is fitted on the
    corpus of the tests: the vocabulary holds c and b. *)
Definition vectorizer_2_3_counting : CountVectorizer := {|
  tokenizer := BaseTokenizer_default;
  vocab := Some (from_sequences corpus_tokens None 3);
  max_doc_freq := PyInt 2; min_freq := 3; max_features := None; binary := false
|}.

(** A raw-text dictionary with a text for ['u1'] and for ['u2']. *)
Definition id_text_u1_u2 : gmap string string :=
  <["u1" := "a b c"]> {[ "u2" := "b c d d" ]}.

(** A module given the texts of ['u1'] and ['u2'], the other arguments at
    their defaults. *)
Definition module_two_texts : TextModule :=
  TextModule_init (Some id_text_u1_u2) None None None (PyFloat 1.0%float) 1.

(** The module of the tests: the three texts of the corpus, [max_vocab=6],
    after [_build_text]. *)
Definition module_corpus : TextModule :=
  (_build_text
     (TextModule_init
        (Some (<["u1" := "a b c"]> (<["u2" := "b c d d"]> {[ "u3" := "c b e c f" ]})))
        None None (Some 6%Z) (PyFloat 1.0%float) 1)
     [("u1", 0%Z); ("u2", 1%Z); ("u3", 2%Z)]).2.

(** * Properties *)

(** ** The examples of the test suite *)

Example tokenize_abc :
  tokenize BaseTokenizer_default "a b c" = Ok ["a"; "b"; "c"].
Proof. reflexivity. Qed.

Example tokenize_default_rules :
  tokenize BaseTokenizer_default "<t>a</t> B |{ C ]?&$  d123 E"
  = Ok ["a"; "b"; "c"; "d"; "e"].
Proof. vm_compute. reflexivity. Qed.

Example vocabulary_abc :
  idx2tok (Vocabulary_init ["a"; "b"; "c"]) = SPECIAL_TOKENS ++ ["a"; "b"; "c"]
  ∧ to_idx (Vocabulary_init ["a"; "b"; "c"]) ["a"; "a"; "b"; "c"; "z"] = [4; 4; 5; 6; 1]%Z
  ∧ to_text (Vocabulary_init ["a"; "b"; "c"]) [4; 4; 5; 6]%Z (Some " ") = Ok (Joined "a a b c")
  ∧ to_text (Vocabulary_init ["a"; "b"; "c"]) [4; 4; 5; 6]%Z None
    = Ok (Tokens ["a"; "a"; "b"; "c"]).
Proof. vm_compute. done. Qed.

Example from_sequences_corpus :
  idx2tok (from_sequences [["a"; "b"; "c"]; ["b"; "c"; "d"; "d"]; ["c"; "b"; "e"; "c"; "f"]]
             None 1)
  = SPECIAL_TOKENS ++ ["c"; "b"; "d"; "a"; "e"; "f"].
Proof. vm_compute. done. Qed.

(** ** The reserved tokens of a vocabulary *)

Lemma list_remove_notin (x : string) (l : list string) :
  x ∉ l → list_remove x l = l.
Proof.
  induction l as [|y l IH]; simpl; [done|].
  intros Hx. case_decide as E.
  - subst y. exfalso. apply Hx. left.
  - f_equal. apply IH. intros ?. apply Hx. by right.
Qed.

Lemma list_remove_length (x : string) (l : list string) :
  x ∈ l → S (length (list_remove x l)) = length l.
Proof.
  induction l as [|y l IH]; simpl.
  - intros H. inversion H.
  - intros H. case_decide as E; [done|].
    simpl. f_equal. apply IH. inversion H; subst; [done|assumption].
Qed.

Lemma list_remove_elem_ne (x y : string) (l : list string) :
  x ≠ y → y ∈ list_remove x l ↔ y ∈ l.
Proof.
  intros Hne. induction l as [|z l IH]; simpl; [done|].
  case_decide as E.
  - subst z. rewrite elem_of_cons. split; [by right|]. by intros [->|].
  - rewrite !elem_of_cons, IH. done.
Qed.

Lemma list_remove_cons_ne (x y : string) (l : list string) :
  x ≠ y → list_remove x (y :: l) = y :: list_remove x l.
Proof. intros Hne. simpl. by rewrite decide_False. Qed.

Lemma filter_ne_notin (x : string) (l : list string) :
  x ∉ l → filter (λ y, y ≠ x) l = l.
Proof.
  induction l as [|z l IH]; intros Hx; [done|].
  rewrite filter_cons_True by set_solver. f_equal. apply IH. set_solver.
Qed.

Lemma list_remove_NoDup (x : string) (l : list string) :
  NoDup l → list_remove x l = filter (λ y, y ≠ x) l.
Proof.
  induction 1 as [|y l Hy Hl IH]; simpl; [done|].
  case_decide as E.
  - subst y. rewrite filter_cons_False by (intros Hxx; by apply Hxx).
    by rewrite filter_ne_notin.
  - rewrite filter_cons_True by done. by rewrite IH.
Qed.

Lemma special_step (tok : string) (l : list string) :
  (if bool_decide (tok ∈ l) then list_remove tok l else l) = list_remove tok l.
Proof. case_bool_decide; [done|]. by rewrite list_remove_notin. Qed.

Lemma _add_special_tokens_eq (T : list string) :
  _add_special_tokens T = SPECIAL_TOKENS ++ strip_reserved T.
Proof.
  unfold _add_special_tokens, strip_reserved.
  change (reverse SPECIAL_TOKENS) with [EOS; BOS; UNK; PAD].
  cbn [foldl]. rewrite !special_step.
  rewrite !list_remove_cons_ne by (by compute).
  done.
Qed.

Lemma obj_step (r : loc) (h : heap) (T : list string) (tok : string) :
  obj_insert0 r tok
    (if obj_contains r tok (<[r := T]> h) then obj_remove r tok (<[r := T]> h)
     else <[r := T]> h)
  = <[r := tok :: (if bool_decide (tok ∈ T) then list_remove tok T else T)]> h.
Proof.
  unfold obj_contains, deref, obj_insert0, obj_remove.
  rewrite lookup_insert_eq. simpl.
  case_bool_decide; by rewrite ?alter_insert_eq.
Qed.

Lemma _add_special_tokens_obj_eq (r : loc) (h : heap) (T : list string) :
  h !! r = Some T →
  _add_special_tokens_obj r h = (r, <[r := _add_special_tokens T]> h).
Proof.
  intros Hr. unfold _add_special_tokens_obj, _add_special_tokens. f_equal.
  assert (Hh : h = <[r := T]> h) by (by rewrite insert_id).
  rewrite Hh at 1. clear Hh Hr.
  generalize (reverse SPECIAL_TOKENS) as toks. intros toks.
  revert T. induction toks as [|tok toks IH]; intros T; [done|].
  cbn [foldl]. rewrite obj_step. apply IH.
Qed.

Lemma list_remove_comm (x y : string) (l : list string) :
  list_remove x (list_remove y l) = list_remove y (list_remove x l).
Proof.
  induction l as [|z l IH]; [done|]. simpl.
  destruct (decide (y = z)) as [Hy|Hy], (decide (x = z)) as [Hx|Hx]; simpl.
  - by subst.
  - by rewrite decide_True.
  - by rewrite decide_True.
  - rewrite !decide_False by done. by rewrite IH.
Qed.

Lemma list_remove_filter (P : string → Prop) `{∀ z, Decision (P z)}
    (x : string) (l : list string) :
  ¬ P x → filter P (list_remove x l) = filter P l.
Proof.
  intros Hx. induction l as [|z l IH]; [done|]. simpl.
  case_decide as E.
  - subst z. by rewrite filter_cons_False.
  - rewrite !filter_cons. by rewrite IH.
Qed.

Lemma list_remove_sublist (x y : string) (l : list string) :
  y ∈ list_remove x l → y ∈ l.
Proof.
  induction l as [|z l IH]; simpl; [done|].
  case_decide; rewrite ?elem_of_cons; [by right|].
  intros [->|Hy]; [by left|right; by apply IH].
Qed.

Lemma length_filter_eq_Forall (P : string → Prop) `{∀ z, Decision (P z)}
    (l : list string) :
  length (filter P l) = length l → Forall P l.
Proof.
  intros Hlen. apply Forall_forall. intros x Hx.
  destruct (decide (P x)) as [|Hn]; [done|].
  pose proof (length_filter_lt P l x Hx Hn). lia.
Qed.

Lemma length_remove_dups_le (l : list string) :
  length (remove_dups l) ≤ length l.
Proof.
  induction l as [|x l IH]; simpl; [done|].
  destruct (decide_rel elem_of x l); simpl; lia.
Qed.

Lemma length_remove_dups_eq_NoDup (l : list string) :
  length (remove_dups l) = length l → NoDup l.
Proof.
  induction l as [|x l IH]; simpl; [intros; constructor|].
  pose proof (length_remove_dups_le l).
  destruct (decide_rel elem_of x l); simpl; intros Hlen; [lia|].
  constructor; [done|]. apply IH. lia.
Qed.

Lemma remove_dups_NoDup (l : list string) : NoDup l → remove_dups l = l.
Proof.
  induction 1 as [|x l Hx Hl IH]; simpl; [done|].
  destruct (decide_rel elem_of x l); [done|]. by rewrite IH.
Qed.

(** A list has no repeated entry when the entries satisfying [P] are not
    repeated and no other entry survives the removal of its first
    occurrence. *)
Lemma NoDup_partition (P : string → Prop) `{∀ z, Decision (P z)} (l : list string) :
  NoDup (filter P l) → (∀ x, ¬ P x → x ∉ list_remove x l) → NoDup l.
Proof.
  induction l as [|y l IH]; intros Hnd Hrm; [constructor|].
  destruct (decide (P y)) as [Hy|Hy].
  - rewrite filter_cons_True in Hnd by done.
    apply NoDup_cons in Hnd as [Hyl Hnd].
    constructor.
    + intros Hin. apply Hyl. apply list_elem_of_filter. done.
    + apply IH; [done|]. intros x Hx Hin.
      apply (Hrm x Hx). rewrite list_remove_cons_ne by (intros ->; done).
      by right.
  - rewrite filter_cons_False in Hnd by done.
    pose proof (Hrm y Hy) as Hyl. simpl in Hyl. rewrite decide_True in Hyl by done.
    constructor; [done|].
    apply IH; [done|]. intros x Hx Hin.
    destruct (decide (x = y)) as [->|Hne].
    + apply Hyl. by eapply list_remove_sublist.
    + apply (Hrm x Hx). rewrite list_remove_cons_ne by done. by right.
Qed.

Lemma strip_reserved_filter (T : list string) :
  filter (λ tok, ¬ reserved tok) (strip_reserved T) = filter (λ tok, ¬ reserved tok) T.
Proof.
  unfold strip_reserved.
  rewrite !list_remove_filter; [done|..];
    intros Hn; apply Hn; unfold reserved, SPECIAL_TOKENS; set_solver.
Qed.

Lemma strip_reserved_NoDup (T : list string) :
  NoDup T → strip_reserved T = filter (λ tok, ¬ reserved tok) T.
Proof.
  intros Hnd. unfold strip_reserved.
  rewrite (list_remove_NoDup EOS T) by done.
  rewrite (list_remove_NoDup BOS) by (by apply NoDup_filter).
  rewrite (list_remove_NoDup UNK) by (by do 2 apply NoDup_filter).
  rewrite (list_remove_NoDup PAD) by (by do 3 apply NoDup_filter).
  rewrite !list_filter_filter.
  apply list_filter_iff. intros x. unfold reserved, SPECIAL_TOKENS.
  rewrite !elem_of_cons, elem_of_nil. tauto.
Qed.

Lemma strip_reserved_elem (T : list string) (x : string) :
  reserved x → x ∈ strip_reserved T → x ∈ list_remove x T.
Proof.
  unfold reserved, SPECIAL_TOKENS, strip_reserved.
  rewrite !elem_of_cons, elem_of_nil.
  intros [->|[->|[->|[->|[]]]]] Hin.
  - rewrite (list_remove_comm PAD UNK), (list_remove_comm PAD BOS),
      (list_remove_comm PAD EOS) in Hin.
    do 3 apply list_remove_sublist in Hin. done.
  - rewrite list_remove_elem_ne in Hin by (by compute).
    rewrite (list_remove_comm UNK BOS), (list_remove_comm UNK EOS) in Hin.
    do 2 apply list_remove_sublist in Hin. done.
  - do 2 rewrite list_remove_elem_ne in Hin by (by compute).
    rewrite (list_remove_comm BOS EOS) in Hin.
    apply list_remove_sublist in Hin. done.
  - do 3 rewrite list_remove_elem_ne in Hin by (by compute). done.
Qed.

Lemma list_remove_length_sub (x : string) (l : list string) :
  length (list_remove x l) = length l - (if bool_decide (x ∈ l) then 1 else 0).
Proof.
  case_bool_decide as Hx.
  - pose proof (list_remove_length x l Hx). lia.
  - rewrite list_remove_notin by done. lia.
Qed.

Lemma strip_reserved_length (T : list string) :
  length (strip_reserved T) + reserved_in T = length T.
Proof.
  unfold strip_reserved, reserved_in, SPECIAL_TOKENS.
  rewrite !list_remove_length_sub.
  rewrite (bool_decide_ext (PAD ∈ _) (PAD ∈ T))
    by (by rewrite !list_remove_elem_ne by (by compute)).
  rewrite (bool_decide_ext (UNK ∈ _) (UNK ∈ T))
    by (by rewrite !list_remove_elem_ne by (by compute)).
  rewrite (bool_decide_ext (BOS ∈ _) (BOS ∈ T))
    by (by rewrite !list_remove_elem_ne by (by compute)).
  rewrite !filter_cons, filter_nil.
  assert (H4 : ∀ a b c d : string, a ≠ b → a ≠ c → a ≠ d → b ≠ c → b ≠ d → c ≠ d →
    (if bool_decide (a ∈ T) then 1 else 0) + (if bool_decide (b ∈ T) then 1 else 0)
    + (if bool_decide (c ∈ T) then 1 else 0) + (if bool_decide (d ∈ T) then 1 else 0)
    ≤ length T).
  { clear. intros a b c d Hab Hac Had Hbc Hbd Hcd.
    induction T as [|z T IH]; [by rewrite !bool_decide_eq_false_2 by set_solver|].
    simpl.
    repeat case_bool_decide; repeat match goal with
      | H : _ ∈ _ :: _ |- _ => rewrite elem_of_cons in H
      | H : ¬ _ ∈ _ :: _ |- _ => rewrite not_elem_of_cons in H
      end; try lia; destruct_and?; destruct_or?; subst; try done; try lia. }
  specialize (H4 PAD UNK BOS EOS).
  repeat case_bool_decide; repeat case_decide; simpl in *; try done;
    (lapply H4; [|by compute]); intros H4';
    (lapply H4'; [|by compute]); clear H4'; intros H4';
    (lapply H4'; [|by compute]); clear H4'; intros H4';
    (lapply H4'; [|by compute]); clear H4'; intros H4';
    (lapply H4'; [|by compute]); clear H4'; intros H4';
    (lapply H4'; [|by compute]); clear H4'; intros H4'; lia.
Qed.

Lemma Vocabulary_init_idx2tok (T : list string) :
  idx2tok (Vocabulary_init T) = SPECIAL_TOKENS ++ strip_reserved T.
Proof. unfold Vocabulary_init. simpl. apply _add_special_tokens_eq. Qed.

Lemma strip_reserved_size_iff (T : list string) :
  length (strip_reserved T) = length (distinct_non_reserved T) ↔ NoDup T.
Proof.
  unfold distinct_non_reserved. split.
  - intros Hlen.
    pose proof (length_filter (λ tok, ¬ reserved tok) (strip_reserved T)) as H1.
    pose proof (length_remove_dups_le (filter (λ tok, ¬ reserved tok) T)) as H2.
    rewrite strip_reserved_filter in H1.
    apply (NoDup_partition (λ tok, ¬ reserved tok)).
    + apply length_remove_dups_eq_NoDup. lia.
    + intros x Hx Hin. apply dec_stable in Hx.
      assert (Hall : Forall (λ tok, ¬ reserved tok) (strip_reserved T)).
      { refine (length_filter_eq_Forall (λ tok, ¬ reserved tok) _ _).
        rewrite strip_reserved_filter. lia. }
      rewrite Forall_forall in Hall.
      assert (Hxs : x ∈ strip_reserved T).
      { clear -Hx Hin. unfold reserved, SPECIAL_TOKENS, strip_reserved in *.
        rewrite !elem_of_cons, elem_of_nil in Hx.
        destruct Hx as [->|[->|[->|[->|[]]]]].
        - rewrite (list_remove_comm PAD UNK), (list_remove_comm PAD BOS),
            (list_remove_comm PAD EOS).
          by rewrite !list_remove_elem_ne by (by compute).
        - rewrite list_remove_elem_ne by (by compute).
          rewrite (list_remove_comm UNK BOS), (list_remove_comm UNK EOS).
          by rewrite !list_remove_elem_ne by (by compute).
        - rewrite !list_remove_elem_ne by (by compute).
          rewrite (list_remove_comm BOS EOS).
          by rewrite !list_remove_elem_ne by (by compute).
        - by rewrite !list_remove_elem_ne by (by compute). }
      by apply (Hall x Hxs).
  - intros Hnd. rewrite strip_reserved_NoDup by done.
    rewrite remove_dups_NoDup; [done|]. by apply NoDup_filter.
Qed.

(** ** C1 *)

(** C1, as the specification states it, fails on a list with a repeated
    token: [Vocabulary(['a', 'a'])] has size 6, and ['a', 'a'] holds one
    distinct token that is not reserved. *)
Lemma C1_size_counterexample :
  size (Vocabulary_init ["a"; "a"]) = 6
  ∧ length (distinct_non_reserved ["a"; "a"]) = 1
  ∧ size (Vocabulary_init ["a"; "a"]) ≠ 4 + length (distinct_non_reserved ["a"; "a"]).
Proof. vm_compute. repeat split; lia. Qed.

Lemma list_remove_without_first (x : string) (l : list string) :
  list_remove x l = without_first x l.
Proof.
  unfold without_first. induction l as [|y l IH]; [done|].
  simpl. destruct (decide (x = y)) as [->|Hne].
  - by rewrite decide_True.
  - rewrite decide_False by done. rewrite IH.
    destruct (list_find (λ y0, y0 = x) l) as [[i z]|]; done.
Qed.

Lemma strip_reserved_without (T : list string) : strip_reserved T = without_reserved T.
Proof.
  unfold strip_reserved, without_reserved. simpl.
  by rewrite !list_remove_without_first.
Qed.

(** C1 (amended).  For every list of tokens [T], the [idx2tok] of
    [Vocabulary(T)] begins with the four reserved tokens [PAD, UNK, BOS, EOS]
    in that order, and what follows them is [T] without the first occurrence
    of each reserved token that occurs in [T]: every other entry is kept, in
    its place, duplicates included (so the entries that are not reserved are
    those of [T]).  The size is therefore [4 + len(T)] less the number of
    reserved tokens that occur in [T]; it is 4 plus the number of distinct
    tokens of [T] that are not reserved exactly when [T] has no repeated
    token. *)
Theorem C1_reserved_prefix_and_size (T : list string) :
  take 4 (idx2tok (Vocabulary_init T)) = SPECIAL_TOKENS
  ∧ drop 4 (idx2tok (Vocabulary_init T)) = without_reserved T
  ∧ filter (λ tok, ¬ reserved tok) (drop 4 (idx2tok (Vocabulary_init T)))
    = filter (λ tok, ¬ reserved tok) T
  ∧ size (Vocabulary_init T) + reserved_in T = 4 + length T
  ∧ (size (Vocabulary_init T) = 4 + length (distinct_non_reserved T) ↔ NoDup T).
Proof.
  unfold size. rewrite Vocabulary_init_idx2tok.
  change (drop 4 (SPECIAL_TOKENS ++ strip_reserved T)) with (strip_reserved T).
  split_and!.
  - done.
  - apply strip_reserved_without.
  - apply strip_reserved_filter.
  - rewrite length_app. simpl. pose proof (strip_reserved_length T). lia.
  - rewrite length_app. simpl. rewrite <- strip_reserved_size_iff. lia.
Qed.

Lemma C1_reserved_prefix_and_size_witness :
  take 4 (idx2tok (Vocabulary_init ["b"; EOS; "a"; PAD; "b"; EOS])) = SPECIAL_TOKENS
  ∧ drop 4 (idx2tok (Vocabulary_init ["b"; EOS; "a"; PAD; "b"; EOS]))
    = ["b"; "a"; "b"; EOS]
  ∧ size (Vocabulary_init ["b"; EOS; "a"; PAD; "b"; EOS]) = 8.
Proof.
  pose proof (C1_reserved_prefix_and_size ["b"; EOS; "a"; PAD; "b"; EOS])
    as (Hp & Hc & _ & Hs & _).
  split_and!; [exact Hp|by rewrite Hc|].
  change (reserved_in ["b"; EOS; "a"; PAD; "b"; EOS]) with 2 in Hs.
  cbn [length] in Hs. lia.
Defined.

(** ** Decoding and encoding ids *)

Lemma Vocabulary_init_consistent (T : list string) : consistent (Vocabulary_init T).
Proof. reflexivity. Qed.

Lemma enumerate_fold_notin (l : list string) (k : nat) (m : gmap string Z) (tok : string) :
  tok ∉ l →
  foldl (λ m it, <[it.2 := Z.of_nat it.1]> m) m (zip (seq k (length l)) l) !! tok
  = m !! tok.
Proof.
  revert k m. induction l as [|x l IH]; intros k m Hnot; [done|].
  apply not_elem_of_cons in Hnot as [Hne Hnot].
  simpl. rewrite IH by done. by rewrite lookup_insert_ne.
Qed.

Lemma enumerate_fold_NoDup (l : list string) (k : nat) (m : gmap string Z)
    (i : nat) (tok : string) :
  NoDup l → l !! i = Some tok →
  foldl (λ m it, <[it.2 := Z.of_nat it.1]> m) m (zip (seq k (length l)) l) !! tok
  = Some (Z.of_nat (k + i)).
Proof.
  intros Hnd. revert k m i. induction Hnd as [|x l Hx Hnd IH]; intros k m i Hi.
  - by rewrite lookup_nil in Hi.
  - destruct i as [|i]; simpl in *.
    + injection Hi as ->. rewrite enumerate_fold_notin by done.
      rewrite lookup_insert_eq. do 2 f_equal. lia.
    + rewrite (IH (S k) _ i Hi). do 2 f_equal. lia.
Qed.

Lemma dict_of_enumerate_NoDup (l : list string) (i : nat) (tok : string) :
  NoDup l → l !! i = Some tok → dict_of_enumerate l !! tok = Some (Z.of_nat i).
Proof.
  intros Hnd Hi. unfold dict_of_enumerate, enumerate.
  by rewrite (enumerate_fold_NoDup l 0 ∅ i tok).
Qed.

Lemma py_index_range (n : nat) (i : Z) (k : nat) :
  py_index n i = Some k →
  (- Z.of_nat n ≤ i < Z.of_nat n)%Z ∧ k < n
  ∧ k = Z.to_nat (if decide (0 ≤ i)%Z then i else (Z.of_nat n + i)%Z).
Proof.
  unfold py_index. repeat case_decide; intros [= <-]; split_and!; try lia; done.
Qed.

Lemma py_index_outside (n : nat) (i : Z) :
  ¬ (- Z.of_nat n ≤ i < Z.of_nat n)%Z → py_index n i = None.
Proof. unfold py_index. intros Hi. repeat case_decide; try done; lia. Qed.

Lemma py_index_inside (n : nat) (i : Z) :
  (- Z.of_nat n ≤ i < Z.of_nat n)%Z →
  py_index n i = Some (Z.to_nat (if decide (0 ≤ i)%Z then i else (Z.of_nat n + i)%Z)).
Proof. unfold py_index. intros Hi. repeat case_decide; try done; lia. Qed.

Lemma py_getitem_inside {A} (l : list A) (i : Z) :
  (- Z.of_nat (length l) ≤ i < Z.of_nat (length l))%Z →
  ∃ x, py_getitem l i = Ok x
       ∧ l !! Z.to_nat (if decide (0 ≤ i)%Z then i else (Z.of_nat (length l) + i)%Z)
         = Some x.
Proof.
  intros Hi. unfold py_getitem. rewrite py_index_inside by done.
  destruct (lookup_lt_is_Some_2 l
    (Z.to_nat (if decide (0 ≤ i)%Z then i else (Z.of_nat (length l) + i)%Z)))
    as [x Hx].
  - case_decide; lia.
  - exists x. by rewrite Hx.
Qed.

Lemma py_getitem_outside {A} (l : list A) (i : Z) :
  ¬ (- Z.of_nat (length l) ≤ i < Z.of_nat (length l))%Z →
  py_getitem l i = Raise IndexError.
Proof. intros Hi. unfold py_getitem. by rewrite py_index_outside. Qed.

Lemma py_getitem_error {A} (l : list A) (i : Z) (e : exn) :
  py_getitem l i = Raise e → e = IndexError.
Proof.
  unfold py_getitem. destruct (py_index _ _); [destruct (_ !! _)|]; congruence.
Qed.

Lemma rmap_getitem_error {A} (l : list A) (indices : list Z) (e : exn) :
  rmap (py_getitem l) indices = Raise e → e = IndexError.
Proof.
  induction indices as [|i indices IH]; simpl; [done|].
  destruct (py_getitem l i) eqn:Hi; simpl.
  - destruct (rmap _ indices); simpl; [done|]. intros [= ->]. by apply IH.
  - intros [= ->]. by eapply py_getitem_error.
Qed.

Lemma rmap_getitem_outside {A} (l : list A) (indices : list Z) :
  Exists (λ i, ¬ (- Z.of_nat (length l) ≤ i < Z.of_nat (length l))%Z) indices →
  rmap (py_getitem l) indices = Raise IndexError.
Proof.
  induction 1 as [i indices Hi|i indices Hex IH]; simpl.
  - by rewrite py_getitem_outside.
  - destruct (py_getitem l i) eqn:Hi; simpl.
    + by rewrite IH.
    + f_equal. by eapply py_getitem_error.
Qed.

Lemma rmap_getitem_inside {A} (l : list A) (indices : list Z) :
  Forall (λ i, (- Z.of_nat (length l) ≤ i < Z.of_nat (length l))%Z) indices →
  ∃ xs, rmap (py_getitem l) indices = Ok xs
        ∧ Forall2 (λ i x,
             l !! Z.to_nat (if decide (0 ≤ i)%Z then i else (Z.of_nat (length l) + i)%Z)
             = Some x) indices xs.
Proof.
  induction 1 as [|i indices Hi Hall (xs & Hxs & Hf)]; simpl.
  - exists []. split; [done|constructor].
  - destruct (py_getitem_inside l i Hi) as (x & Hx & Hlook).
    exists (x :: xs). rewrite Hx, Hxs. split; [done|by constructor].
Qed.

(** ** C7 *)

(** C7, as the specification states it, fails for a vocabulary with a
    repeated token: in [Vocabulary(['a', 'a'])] the id 4 is valid and decodes
    to ['a'], which encodes to 5. *)
Lemma C7_roundtrip_counterexample :
  Forall (λ i, 0 ≤ i < Z.of_nat (size (Vocabulary_init ["a"; "a"])))%Z [4%Z]
  ∧ to_text (Vocabulary_init ["a"; "a"]) [4%Z] None = Ok (Tokens ["a"])
  ∧ to_idx (Vocabulary_init ["a"; "a"]) ["a"] = [5%Z]
  ∧ to_idx (Vocabulary_init ["a"; "a"]) ["a"] ≠ [4%Z].
Proof.
  split_and!; [|by vm_compute..].
  repeat constructor; vm_compute; congruence.
Qed.

(** C7 (amended).  For every vocabulary whose [idx2tok] holds no token twice
    (as it is for every vocabulary built by [from_tokens] or
    [from_sequences]) and every list of ids each valid in [0, size),
    [to_idx(to_text(ids, sep=None))] returns exactly the original id list. *)
Theorem C7_roundtrip (v : Vocabulary) (ids : list Z) :
  consistent v →
  NoDup (idx2tok v) →
  Forall (λ i, 0 ≤ i < Z.of_nat (size v))%Z ids →
  ∃ toks, to_text v ids None = Ok (Tokens toks) ∧ to_idx v toks = ids.
Proof.
  intros Hc Hnd Hids. unfold to_text, size in *.
  destruct (rmap_getitem_inside (idx2tok v) ids) as (toks & Hr & Hf).
  { eapply Forall_impl; [exact Hids|]. simpl. lia. }
  exists toks. rewrite Hr. split; [done|].
  unfold to_idx. rewrite Hc.
  clear Hr. induction Hf as [|i tok ids toks Hi Hf IH]; [done|].
  apply Forall_cons in Hids as [Hi0 Hids].
  simpl. rewrite IH by done. f_equal.
  rewrite decide_True in Hi by lia.
  rewrite (dict_of_enumerate_NoDup _ _ _ Hnd Hi). simpl. lia.
Qed.

Lemma C7_roundtrip_witness :
  ∃ toks, to_text (Vocabulary_init ["a"; "b"; "c"]) [4; 4; 5; 6; 0]%Z None = Ok (Tokens toks)
          ∧ to_idx (Vocabulary_init ["a"; "b"; "c"]) toks = [4; 4; 5; 6; 0]%Z.
Proof.
  apply C7_roundtrip.
  - reflexivity.
  - refine (bool_decide_unpack (NoDup _) _). vm_compute. exact I.
  - repeat constructor; vm_compute; congruence.
Defined.

(** Vocabularies built from token counts hold no token twice. *)
Lemma counter_incr_keys (k : string) (c : list (string * Z)) :
  map fst (counter_incr k c) = if decide (k ∈ map fst c) then map fst c else map fst c ++ [k].
Proof.
  induction c as [|it c IH]; simpl; [done|].
  destruct (decide (k = it.1)) as [->|Hne]; simpl.
  - rewrite decide_True by left. done.
  - rewrite IH. destruct (decide (k ∈ map fst c)) as [Hin|Hin].
    + rewrite decide_True by (by right). done.
    + rewrite decide_False; [done|]. by apply not_elem_of_cons.
Qed.

Lemma Counter_keys_NoDup (l : list string) : NoDup (map fst (Counter l)).
Proof.
  unfold Counter.
  assert (H : ∀ c, NoDup (map fst c) →
              NoDup (map fst (foldl (λ c k, counter_incr k c) c l))).
  { induction l as [|k l IH]; intros c Hc; [done|].
    simpl. apply IH. rewrite counter_incr_keys.
    case_decide as Hin; [done|].
    apply NoDup_app. split_and!; [done| |apply NoDup_singleton].
    intros x Hx ->%list_elem_of_singleton. done. }
  apply H. constructor.
Qed.

Lemma insert_desc_perm (it : string * Z) (l : list (string * Z)) :
  insert_desc it l ≡ₚ it :: l.
Proof.
  induction l as [|it' l IH]; simpl; [done|].
  case_decide; [done|]. rewrite IH. apply Permutation_swap.
Qed.

Lemma sort_desc_perm (c : list (string * Z)) : sort_desc c ≡ₚ c.
Proof.
  unfold sort_desc.
  assert (H : ∀ acc, foldl (λ acc it, insert_desc it acc) acc c ≡ₚ acc ++ c).
  { induction c as [|it c IH]; intros acc; simpl; [by rewrite app_nil_r|].
    rewrite IH, insert_desc_perm. simpl. apply Permutation_middle. }
  apply (H []).
Qed.

Lemma _add_special_tokens_NoDup (T : list string) :
  NoDup T → NoDup (_add_special_tokens T).
Proof.
  intros Hnd. rewrite _add_special_tokens_eq, strip_reserved_NoDup by done.
  apply NoDup_app. split_and!.
  - refine (bool_decide_unpack (NoDup _) _). vm_compute. exact I.
  - intros x Hx Hin. apply list_elem_of_filter in Hin as [Hn _]. by apply Hn.
  - by apply NoDup_filter.
Qed.

Lemma from_tokens_NoDup (tokens : list string) (max_vocab : option Z) (min_freq : Z) :
  NoDup (idx2tok (from_tokens tokens max_vocab min_freq)).
Proof.
  unfold from_tokens, Vocabulary_init. simpl.
  apply _add_special_tokens_NoDup.
  assert (Hs : NoDup (map fst (sort_desc (Counter tokens)))).
  { change (NoDup (fst <$> sort_desc (Counter tokens))).
    rewrite sort_desc_perm. apply Counter_keys_NoDup. }
  eapply sublist_NoDup; [exact Hs|].
  change (fst <$> filter (λ it : string * Z, (min_freq ≤ it.2)%Z)
                    (most_common max_vocab (Counter tokens))
          `sublist_of` fst <$> sort_desc (Counter tokens)).
  apply fmap_sublist. etrans; [apply sublist_filter|].
  destruct max_vocab; simpl; [apply sublist_take|done].
Qed.

Lemma from_sequences_NoDup (seqs : list (list string)) (max_vocab : option Z)
    (min_freq : Z) :
  NoDup (idx2tok (from_sequences seqs max_vocab min_freq)).
Proof. apply from_tokens_NoDup. Qed.

(** ** C8 *)

(** C8, as the specification states it, fails for a negative id: in
    [Vocabulary(['a'])], of size 5, the id -1 lies outside [0, size), and
    [to_text([-1], sep=None)] returns ['a']. *)
Lemma C8_negative_id_counterexample :
  Exists (λ i, ¬ (0 ≤ i < Z.of_nat (size (Vocabulary_init ["a"])))%Z) [(-1)%Z]
  ∧ to_text (Vocabulary_init ["a"]) [(-1)%Z] None = Ok (Tokens ["a"])
  ∧ to_text (Vocabulary_init ["a"]) [(-1)%Z] (Some " ") = Ok (Joined "a").
Proof.
  split_and!; [|by vm_compute..].
  constructor. lia.
Qed.

(** C8 (amended).  For every vocabulary, every call to [to_text] whose input
    contains an id outside the range [-size, size) fails with a range error
    ([IndexError]); when every id lies in [-size, size) the call succeeds, an
    id [i >= 0] decoding to the token at position [i] and an id [i < 0] to the
    token at position [size + i]; the tokens are joined by the separator when
    one is given. *)
Theorem C8_to_text_range (v : Vocabulary) (indices : list Z) (sep : option string) :
  (Exists (λ i, ¬ (- Z.of_nat (size v) ≤ i < Z.of_nat (size v))%Z) indices →
   to_text v indices sep = Raise IndexError)
  ∧ (Forall (λ i, (- Z.of_nat (size v) ≤ i < Z.of_nat (size v))%Z) indices →
     ∃ toks,
       Forall2 (λ i tok,
          idx2tok v !! Z.to_nat (if decide (0 ≤ i)%Z then i else (Z.of_nat (size v) + i)%Z)
          = Some tok) indices toks
       ∧ to_text v indices sep
         = Ok (match sep with Some s => Joined (join s toks) | None => Tokens toks end)).
Proof.
  unfold size, to_text. split.
  - intros Hex. destruct sep; by rewrite rmap_getitem_outside.
  - intros Hall. destruct (rmap_getitem_inside _ _ Hall) as (toks & Hr & Hf).
    exists toks. split; [done|]. destruct sep; by rewrite Hr.
Qed.

Lemma C8_to_text_range_witness :
  to_text (Vocabulary_init ["a"]) [4; 5]%Z None = Raise IndexError
  ∧ ∃ toks, to_text (Vocabulary_init ["a"]) [4; (-5)]%Z (Some "+")
            = Ok (Joined (join "+" toks)).
Proof.
  split.
  - apply (proj1 (C8_to_text_range (Vocabulary_init ["a"]) [4; 5]%Z None)).
    right. left. vm_compute. intros [_ H]. discriminate H.
  - destruct (proj2 (C8_to_text_range (Vocabulary_init ["a"]) [4; (-5)]%Z (Some "+")))
      as (toks & _ & Ht).
    + repeat constructor; vm_compute; congruence.
    + exists toks. exact Ht.
Defined.

(** ** C10 *)

(** The test's [self.tokens] after [Vocabulary(self.tokens)]: seven entries,
    the last three being the original ones. *)
Example constructor_mutates_test_tokens :
  (Vocabulary_init_obj 0 {[ 0 := ["a"; "b"; "c"] ]}).2 !! 0
  = Some (SPECIAL_TOKENS ++ ["a"; "b"; "c"]).
Proof. by vm_compute. Qed.

(** C10, as stated, fails for a list that already begins with the four
    reserved tokens (the list a saved vocabulary is loaded from): the
    constructor stores the caller's list, whose contents after the call are
    the original ones. *)
Lemma C10_contents_counterexample :
  idx2tok_ref (Vocabulary_init_obj 0 heap_special).1 = 0
  ∧ heap_special !! 0 = Some (SPECIAL_TOKENS ++ ["a"])
  ∧ (Vocabulary_init_obj 0 heap_special).2 !! 0 = Some (SPECIAL_TOKENS ++ ["a"]).
Proof. by vm_compute. Qed.

Lemma strip_reserved_special (l : list string) :
  strip_reserved (SPECIAL_TOKENS ++ l) = l.
Proof.
  unfold strip_reserved, SPECIAL_TOKENS. simpl.
  repeat first [rewrite decide_True by done | rewrite decide_False by (by compute) | simpl].
  done.
Qed.

(** C10 (amended).  For every list object [T] passed to the constructor, the
    constructor aliases and mutates the caller's list in place: the object
    stored as [idx2tok] is the caller's list, no other object changes, and
    the contents of the list become the four reserved tokens followed by the
    former contents less the first occurrence of each reserved token (all the
    reserved tokens, when the list had no repeated entry).  The list keeps
    its original contents exactly when it already began with
    [PAD, UNK, BOS, EOS]. *)
Theorem C10_constructor_aliases_argument (h : gmap nat (list string)) (r : nat)
    (T : list string) :
  h !! r = Some T →
  idx2tok_ref (Vocabulary_init_obj r h).1 = r
  ∧ (Vocabulary_init_obj r h).2 !! r = Some (SPECIAL_TOKENS ++ strip_reserved T)
  ∧ (∀ r', r' ≠ r → (Vocabulary_init_obj r h).2 !! r' = h !! r')
  ∧ (NoDup T →
     (Vocabulary_init_obj r h).2 !! r
     = Some (SPECIAL_TOKENS ++ filter (λ tok, ¬ reserved tok) T))
  ∧ ((Vocabulary_init_obj r h).2 !! r = Some T ↔ take 4 T = SPECIAL_TOKENS)
  ∧ tok2idx_obj (Vocabulary_init_obj r h).1
    = tok2idx (Vocabulary_init T).
Proof.
  intros Hr. unfold Vocabulary_init_obj.
  rewrite (_add_special_tokens_obj_eq r h T Hr). simpl.
  rewrite lookup_insert_eq, _add_special_tokens_eq. split_and!.
  - done.
  - done.
  - intros r' Hne. by rewrite lookup_insert_ne.
  - intros Hnd. by rewrite strip_reserved_NoDup.
  - split.
    + intros [= HT]. rewrite <- HT at 1. done.
    + intros Hp. f_equal. rewrite <- (take_drop 4 T) at 1 2. rewrite Hp.
      by rewrite strip_reserved_special.
  - unfold deref. by rewrite lookup_insert_eq.
Qed.

Lemma C10_constructor_aliases_argument_witness :
  idx2tok_ref (Vocabulary_init_obj 0 {[ 0 := ["a"; EOS; "b"] ]}).1 = 0
  ∧ (Vocabulary_init_obj 0 {[ 0 := ["a"; EOS; "b"] ]}).2 !! 0
    = Some (SPECIAL_TOKENS ++ ["a"; "b"]).
Proof.
  destruct (C10_constructor_aliases_argument {[ 0 := ["a"; EOS; "b"] ]} 0 ["a"; EOS; "b"])
    as (Hrf & Hc & _).
  - reflexivity.
  - split; [exact Hrf|exact Hc].
Defined.

(** ** Batches of sequences *)









(** ** C9 *)




(** ** Building the text of a module *)

Lemma order_texts_error (mapped2raw : gmap Z string) (mapped_ids : list nat)
    (id_text id_text' : gmap string string) (acc : list string) (e : exn) :
  order_texts mapped2raw mapped_ids id_text acc = (Raise e, id_text') → e = KeyError.
Proof.
  revert id_text acc. induction mapped_ids as [|mid mids IH]; intros d acc; simpl.
  - intros [=].
  - destruct (mapped2raw !! Z.of_nat mid) as [raw|]; [|by intros [= <- _]].
    destruct (d !! raw); [|by intros [= <- _]]. apply IH.
Qed.

(** When the loop ends normally it has read a text for as many distinct raw
    ids as there are mapped ids. *)
Lemma order_texts_ok (mapped2raw : gmap Z string) (mapped_ids : list nat)
    (id_text id_text' : gmap string string) (acc texts : list string) :
  order_texts mapped2raw mapped_ids id_text acc = (Ok texts, id_text') →
  ∃ raws,
    Forall2 (λ mid raw, mapped2raw !! Z.of_nat mid = Some raw) mapped_ids raws
    ∧ NoDup raws
    ∧ Forall (λ raw, is_Some (id_text !! raw)) raws.
Proof.
  revert id_text acc. induction mapped_ids as [|mid mids IH]; intros d acc; simpl.
  - intros _. exists []. split_and!; constructor.
  - destruct (mapped2raw !! Z.of_nat mid) as [raw|] eqn:Hraw; [|intros [=]].
    destruct (d !! raw) as [t|] eqn:Ht; [|intros [=]].
    intros Hrec. destruct (IH _ _ Hrec) as (raws & Hf & Hnd & Hall).
    exists (raw :: raws). split_and!.
    + by constructor.
    + constructor; [|done]. intros Hin.
      rewrite Forall_forall in Hall. destruct (Hall raw Hin) as [x Hx].
      by rewrite lookup_delete_eq in Hx.
    + constructor; [by eexists|].
      eapply Forall_impl; [exact Hall|]. intros raw' [x Hx].
      apply lookup_delete_Some in Hx as [_ Hx]. by eexists.
Qed.

Lemma invert_id_map_values (global_id_map : list (string * Z)) (mid : Z) (raw : string) :
  invert_id_map global_id_map !! mid = Some raw → raw ∈ map fst global_id_map.
Proof.
  unfold invert_id_map.
  assert (H : ∀ m : gmap Z string,
    foldl (λ m it, <[it.2 := it.1]> m) m global_id_map !! mid = Some raw →
    m !! mid = Some raw ∨ raw ∈ map fst global_id_map).
  { induction global_id_map as [|it g IH]; intros m; simpl; [by left|].
    intros Hl. destruct (IH _ Hl) as [Hm|Hin]; [|right; by right].
    destruct (decide (it.2 = mid)) as [<-|Hne].
    - rewrite lookup_insert_eq in Hm. injection Hm as <-. right. left.
    - rewrite lookup_insert_ne in Hm by done. by left. }
  intros Hl. destruct (H ∅ Hl) as [Hm|Hin]; [|done].
  by rewrite lookup_empty in Hm.
Qed.

Lemma order_texts_missing (global_id_map : list (string * Z))
    (id_text : gmap string string) (raw_id : string) :
  raw_id ∈ map fst global_id_map →
  id_text !! raw_id = None →
  (order_texts (invert_id_map global_id_map) (seq 0 (length global_id_map)) id_text []).1
  = Raise KeyError.
Proof.
  intros Hin Hnone.
  destruct (order_texts _ _ _ _) as [[texts|e] d'] eqn:Ho; simpl.
  - exfalso. destruct (order_texts_ok _ _ _ _ _ _ Ho) as (raws & Hf & Hnd & Hall).
    assert (Hlen : length raws = length global_id_map).
    { apply Forall2_length in Hf. by rewrite length_seq in Hf. }
    assert (Hincl : incl (map fst global_id_map) raws).
    { apply NoDup_length_incl.
      - by apply NoDup_ListNoDup.
      - rewrite length_map. lia.
      - intros raw Hraw. apply list_elem_of_In in Hraw.
        apply list_elem_of_In.
        destruct (proj1 (list_elem_of_lookup raws raw) Hraw) as [i Hi].
        destruct (Forall2_lookup_r _ _ _ _ _ Hf Hi) as (mid & _ & Hmid).
        by eapply invert_id_map_values. }
    rewrite Forall_forall in Hall.
    destruct (Hall raw_id) as [t Ht]; [|congruence].
    apply list_elem_of_In, Hincl, list_elem_of_In, Hin.
  - f_equal. by eapply order_texts_error.
Qed.

(** ** C6 *)

(** C6, as the specification states it, fails: with the global id map
    [{'u1': 0}] and a raw-text dictionary without an entry for ['u1'], [build]
    raises [KeyError]. *)
Lemma C6_missing_text_counterexample :
  "u1" ∈ map fst [("u1", 0%Z)]
  ∧ (∅ : gmap string string) !! "u1" = None
  ∧ (build (λ _, Ok ()) module_no_text [("u1", 0%Z)]).1 = Raise KeyError.
Proof. split_and!; [left|done|by vm_compute]. Qed.

(** C6 (amended).  For every global id map and every raw-text dictionary given
    to the text modality's build, a raw id that is present in the global id
    map but has no entry in the raw-text dictionary makes [build] fail with a
    key error ([KeyError]), and neither sequences nor counts are then set; it
    is only when no raw-text dictionary was given at all ([None]) that the
    text part of [build] is skipped without an error. *)
Theorem C6_missing_text_is_key_error (super_build : list (string * Z) → result unit)
    (self : TextModule) (global_id_map : list (string * Z)) :
  super_build global_id_map = Ok () →
  (∀ (id_text : gmap string string) (raw_id : string),
     _id_text self = IdDict id_text →
     raw_id ∈ map fst global_id_map →
     id_text !! raw_id = None →
     (build super_build self global_id_map).1 = Raise KeyError
     ∧ sequences (build super_build self global_id_map).2 = sequences self
     ∧ counts (build super_build self global_id_map).2 = counts self)
  ∧ (_id_text self = IdNone → build super_build self global_id_map = (Ok (), self)).
Proof.
  intros Hsuper. unfold build. rewrite Hsuper. split.
  - intros id_text raw_id Hdict Hin Hnone. unfold _build_text. rewrite Hdict.
    pose proof (order_texts_missing global_id_map id_text raw_id Hin Hnone) as Ho.
    destruct (order_texts _ _ _ _) as [[texts|e] d']; simpl in Ho; [done|].
    injection Ho as ->. done.
  - intros Hnone. unfold _build_text. by rewrite Hnone.
Qed.

Lemma C6_missing_text_is_key_error_witness :
  (build (λ _, Ok ())
     (TextModule_init (Some id_text_u1) None None None (PyFloat 1.0%float) 1)
     [("u1", 0%Z); ("u2", 1%Z)]).1
  = Raise KeyError.
Proof.
  destruct (C6_missing_text_is_key_error (λ _, Ok ())
              (TextModule_init (Some id_text_u1) None None None (PyFloat 1.0%float) 1)
              [("u1", 0%Z); ("u2", 1%Z)] eq_refl) as [Hmiss _].
  destruct (Hmiss id_text_u1 "u2") as [Hr _].
  - reflexivity.
  - right. left.
  - by vm_compute.
  - exact Hr.
Defined.

(** ** Rows of a CSR matrix *)

Lemma indptr_from_head (p : nat) (rows : list (list (Z * Z))) :
  indptr_from p rows !! 0 = Some p.
Proof. by destruct rows. Qed.

Lemma zip_fst_snd (row : list (Z * Z)) : zip (map fst row) (map snd row) = row.
Proof. induction row as [|[a b] row IH]; simpl; [done|]. by rewrite IH. Qed.

Lemma slice_middle {A} (pre mid post : list A) :
  slice (length pre) (length pre + length mid) (pre ++ mid ++ post) = mid.
Proof.
  unfold slice. rewrite drop_app_length.
  replace (length pre + length mid - length pre) with (length mid) by lia.
  by rewrite take_app_length.
Qed.

(** Row [i] of the arrays laid out by [csr_of_rows], behind any prefix. *)
Lemma csr_row_layout (rows : list (list (Z * Z))) :
  ∀ (preD preI : list Z) (prePtr : list nat) (shp : nat * nat) (i : nat)
    (row : list (Z * Z)),
    length preD = length preI →
    rows !! i = Some row →
    csr_row {| data := preD ++ concat (map (map snd) rows);
               indices := preI ++ concat (map (map fst) rows);
               indptr := prePtr ++ indptr_from (length preI) rows;
               shape := shp |} (length prePtr + i)
    = row.
Proof.
  induction rows as [|r rows IH]; intros preD preI prePtr shp i row Hlen Hi.
  - by rewrite lookup_nil in Hi.
  - destruct i as [|i].
    + injection Hi as ->. unfold csr_row. simpl.
      rewrite Nat.add_0_r.
      rewrite lookup_app_r by lia. rewrite Nat.sub_diag. simpl.
      replace (S (length prePtr)) with (length prePtr + 1) by lia.
      rewrite lookup_app_r by lia.
      replace (length prePtr + 1 - length prePtr) with 1 by lia. simpl.
      rewrite indptr_from_head. simpl.
      rewrite <- (length_map fst row) at 1.
      rewrite slice_middle.
      rewrite <- Hlen. rewrite <- (length_map snd row).
      rewrite slice_middle. apply zip_fst_snd.
    + simpl in Hi.
      specialize (IH (preD ++ map snd r) (preI ++ map fst r) (prePtr ++ [length preI])
                    shp i row).
      rewrite !length_app, !length_map in IH. simpl in IH.
      rewrite <- !app_assoc in IH. simpl in IH.
      replace (length prePtr + 1 + i) with (length prePtr + S i) in IH by lia.
      simpl. apply IH; [lia|done].
Qed.

Lemma csr_row_of_rows (rows : list (list (Z * Z))) (ncols i : nat) (row : list (Z * Z)) :
  rows !! i = Some row → csr_row (csr_of_rows rows ncols) i = row.
Proof.
  intros Hi. exact (csr_row_layout rows [] [] [] (length rows, ncols) i row eq_refl Hi).
Qed.

Lemma csr_rows_of_rows (rows : list (list (Z * Z))) (ncols : nat) :
  csr_rows (csr_of_rows rows ncols) = rows.
Proof.
  unfold csr_rows. simpl.
  apply list_eq. intros i.
  destruct (rows !! i) as [row|] eqn:Hi.
  - change (map ?f ?l) with (f <$> l).
    rewrite list_lookup_fmap.
    rewrite lookup_seq_lt by (by eapply lookup_lt_Some). simpl.
    by rewrite (csr_row_of_rows rows ncols i row Hi).
  - change (map ?f ?l) with (f <$> l).
    rewrite list_lookup_fmap.
    rewrite lookup_seq_ge by (by apply lookup_ge_None). done.
Qed.

Lemma sort_indices_of_rows (rows : list (list (Z * Z))) (ncols : nat) :
  sort_indices (csr_of_rows rows ncols) = csr_of_rows (map sort_row rows) ncols.
Proof. unfold sort_indices. by rewrite csr_rows_of_rows. Qed.

Lemma csr_row_data_fill (X : csr_matrix) (x : Z) (i : nat) :
  csr_row (data_fill X x) i = map (λ e, (e.1, x)) (csr_row X i).
Proof.
  unfold csr_row, data_fill, slice. simpl.
  generalize (default 0 (indptr X !! i)) as a.
  generalize (default 0 (indptr X !! S i) ) as b. intros b a.
  change (map ?f ?l) with (f <$> l).
  rewrite <- fmap_drop, <- fmap_take.
  generalize (take (b - a) (drop a (data X))) as ds.
  generalize (take (b - a) (drop a (indices X))) as ixs.
  induction ixs as [|c ixs IH]; intros [|d ds]; simpl; [done..|].
  f_equal. apply IH.
Qed.

(** The three arrays [_count] accumulates are the layout of the counters. *)
Lemma count_loop_layout (v : Vocabulary) (seqs : list (list string)) :
  ∀ (data indices : list Z) (indptr : list nat),
    foldl (λ st sequence,
             let '(data, indices, indptr) := st in
             let fc := feature_counter v sequence in
             let indices := indices ++ map fst fc in
             (data ++ map snd fc, indices, indptr ++ [length indices]))
          (data, indices, indptr) seqs
    = (data ++ concat (map (map snd) (map (feature_counter v) seqs)),
       indices ++ concat (map (map fst) (map (feature_counter v) seqs)),
       indptr ++ tail (indptr_from (length indices) (map (feature_counter v) seqs))).
Proof.
  induction seqs as [|s seqs IH]; intros data indices indptr; simpl.
  - by rewrite !app_nil_r.
  - rewrite IH. rewrite <- !app_assoc. simpl.
    rewrite length_app, length_map.
    destruct (map (feature_counter v) seqs); done.
Qed.

Lemma _count_rows (self : CountVectorizer) (v : Vocabulary) (seqs : list (list string)) :
  vocab self = Some v →
  4 ≤ size v →
  _count self seqs
  = Ok (csr_of_rows (map sort_row (map (feature_counter v) seqs)) (size v - 4)).
Proof.
  intros Hv Hsize. unfold _count. rewrite Hv.
  rewrite count_loop_layout. simpl.
  unfold csr_matrix_new. simpl.
  rewrite decide_False by lia. simpl.
  rewrite <- sort_indices_of_rows. do 2 f_equal.
  unfold csr_of_rows. f_equal.
  - by destruct (map (feature_counter v) seqs).
  - rewrite !length_map. f_equal. lia.
Qed.

(** ** Counting against a vocabulary *)

Lemma counter_incr_sum (j k : Z) (c : list (Z * Z)) :
  sum_at j (counter_incr k c) = (sum_at j c + (if decide (k = j) then 1 else 0))%Z.
Proof.
  unfold sum_at. induction c as [|it c IH]; simpl.
  - rewrite filter_cons, filter_nil. simpl. repeat case_decide; simpl; lia.
  - destruct (decide (k = it.1)) as [->|Hne].
    + rewrite !filter_cons. simpl. repeat case_decide; simpl; lia.
    + rewrite !filter_cons. simpl.
      destruct (decide (it.1 = j)) as [Hj|Hj]; simpl; rewrite IH;
        repeat case_decide; simpl; subst; try done; lia.
Qed.

Lemma counter_incr_entries (j k : Z) (c : list (Z * Z)) :
  entries_at j c ≤ 1 →
  entries_at j (counter_incr k c) = if decide (k = j) then 1 else entries_at j c.
Proof.
  unfold entries_at. induction c as [|it c IH]; simpl.
  - intros _. rewrite filter_cons, filter_nil. simpl. by repeat case_decide.
  - rewrite filter_cons. intros Hle.
    destruct (decide (k = it.1)) as [->|Hne].
    + rewrite !filter_cons. simpl.
      repeat case_decide; simpl in *; try done; lia.
    + rewrite !filter_cons. simpl.
      destruct (decide (it.1 = j)) as [Hj|Hj]; simpl in *; rewrite IH by lia;
        repeat case_decide; simpl; subst; try done; lia.
Qed.

Lemma count_token_sum (v : Vocabulary) (j : Z) (c : list (Z * Z)) (tok : string) :
  sum_at j (count_token v c tok)
  = (sum_at j c + (if decide (tok2idx v !! tok = Some (j + 4)%Z) then 1 else 0))%Z.
Proof.
  unfold count_token. destruct (tok2idx v !! tok) as [idx|].
  - rewrite counter_incr_sum. change (Z.of_nat (length SPECIAL_TOKENS)) with 4%Z.
    destruct (decide (idx - 4 = j)%Z), (decide (Some idx = Some (j + 4)%Z)) as [Hs|Hs];
      try done; exfalso.
    + apply Hs. f_equal. lia.
    + injection Hs as ->. lia.
  - rewrite decide_False by done. lia.
Qed.

Lemma count_token_entries (v : Vocabulary) (j : Z) (c : list (Z * Z)) (tok : string) :
  entries_at j c ≤ 1 →
  entries_at j (count_token v c tok)
  = if decide (tok2idx v !! tok = Some (j + 4)%Z) then 1 else entries_at j c.
Proof.
  intros Hc. unfold count_token. destruct (tok2idx v !! tok) as [idx|].
  - rewrite counter_incr_entries by done.
    change (Z.of_nat (length SPECIAL_TOKENS)) with 4%Z.
    destruct (decide (idx - 4 = j)%Z), (decide (Some idx = Some (j + 4)%Z)) as [Hs|Hs];
      try done; exfalso.
    + apply Hs. f_equal. lia.
    + injection Hs as ->. lia.
  - by rewrite decide_False.
Qed.

Lemma feature_counter_sum (v : Vocabulary) (j : Z) (seq : list string) :
  sum_at j (feature_counter v seq) = Z.of_nat (occurrences v j seq).
Proof.
  unfold feature_counter, occurrences.
  assert (H : ∀ c, sum_at j (foldl (count_token v) c seq)
              = (sum_at j c
                 + Z.of_nat (length (filter (λ tok, tok2idx v !! tok = Some (j + 4)%Z) seq)))%Z).
  { induction seq as [|tok seq IH]; intros c; cbn [foldl].
    - rewrite filter_nil. simpl. lia.
    - rewrite IH, count_token_sum, filter_cons.
      destruct (decide _); simpl; lia. }
  rewrite H. unfold sum_at. rewrite filter_nil. simpl. lia.
Qed.

Lemma feature_counter_entries (v : Vocabulary) (j : Z) (seq : list string) :
  entries_at j (feature_counter v seq) = if decide (0 < occurrences v j seq) then 1 else 0.
Proof.
  unfold feature_counter, occurrences.
  assert (H : ∀ c, (∀ j', entries_at j' c ≤ 1) →
    (∀ j', entries_at j' (foldl (count_token v) c seq) ≤ 1)
    ∧ entries_at j (foldl (count_token v) c seq)
      = if decide (0 < length (filter (λ tok, tok2idx v !! tok = Some (j + 4)%Z) seq))
        then 1 else entries_at j c).
  { induction seq as [|tok seq IH]; intros c Hc; cbn [foldl].
    - split; [done|]. by rewrite filter_nil.
    - assert (Hc' : ∀ j', entries_at j' (count_token v c tok) ≤ 1).
      { intros j'. rewrite count_token_entries by apply Hc.
        destruct (decide (tok2idx v !! tok = Some (j' + 4)%Z)); [lia|apply Hc]. }
      destruct (IH _ Hc') as [Hle Heq]. split; [done|].
      rewrite Heq, count_token_entries by apply Hc. rewrite filter_cons.
      destruct (decide (tok2idx v !! tok = Some (j + 4)%Z)); simpl; [|done].
      by destruct (decide _). }
  destruct (H []) as [_ Heq];
    [intros j'; unfold entries_at; rewrite filter_nil; simpl; lia|].
  rewrite Heq. unfold entries_at. by rewrite filter_nil.
Qed.

Lemma insert_entry_perm (e : Z * Z) (row : list (Z * Z)) : insert_entry e row ≡ₚ e :: row.
Proof.
  induction row as [|e' row IH]; simpl; [done|].
  case_decide; [done|]. rewrite IH. apply Permutation_swap.
Qed.

Lemma sort_row_perm (row : list (Z * Z)) : sort_row row ≡ₚ row.
Proof.
  unfold sort_row. induction row as [|e row IH]; simpl; [done|].
  by rewrite insert_entry_perm, IH.
Qed.

Lemma sumZ_perm (l k : list Z) : l ≡ₚ k → sumZ l = sumZ k.
Proof. induction 1; simpl; lia. Qed.

Lemma sum_at_perm (j : Z) (r r' : list (Z * Z)) : r ≡ₚ r' → sum_at j r = sum_at j r'.
Proof.
  intros Hp. unfold sum_at. apply sumZ_perm.
  change (map snd ?l) with (snd <$> l). by rewrite Hp.
Qed.

Lemma entries_at_perm (j : Z) (r r' : list (Z * Z)) :
  r ≡ₚ r' → entries_at j r = entries_at j r'.
Proof. intros Hp. unfold entries_at. by rewrite Hp. Qed.

Lemma sum_at_ones (j : Z) (row : list (Z * Z)) :
  sum_at j (map (λ e, (e.1, 1%Z)) row) = Z.of_nat (entries_at j row).
Proof.
  unfold sum_at, entries_at. induction row as [|e row IH]; simpl; [done|].
  rewrite !filter_cons. simpl. case_decide; simpl; rewrite IH; lia.
Qed.

Lemma transform_self (self : CountVectorizer) (raw_documents : list string) :
  (transform self raw_documents).2 = self.
Proof.
  unfold transform. destruct (batch_tokenize _ _); [|done].
  by destruct (_count _ _).
Qed.

(** ** C5 *)

(** C5.  For every existing vocabulary [V] and every list of raw documents,
    [transform] tokenizes and counts against [V] only: the vectorizer, and
    with it [V]'s [idx2tok] and [tok2idx], is the same after the call as
    before, the matrix has one column for each unreserved entry of [V] (no
    pruning), and the value at row [i], column [j] is the number of tokens of
    document [i] whose id in [V] is [j + 4] (clamped to 1 in binary mode): a
    token absent from [V] is counted in no column, the column of UNK
    included. *)
Theorem C5_transform_counts_against_vocabulary (self : CountVectorizer) (V : Vocabulary)
    (raw_documents : list string) :
  vocab self = Some V →
  (transform self raw_documents).2 = self
  ∧ vocab (transform self raw_documents).2 = Some V
  ∧ ∀ seqs,
      batch_tokenize (tokenizer self) raw_documents = Ok seqs →
      4 ≤ size V →
      ∃ X,
        (transform self raw_documents).1 = Ok (seqs, X)
        ∧ shape X = (length seqs, size V - 4)
        ∧ ∀ (i : nat) (seq : list string) (j : Z),
            seqs !! i = Some seq →
            csr_get X i j = reported (binary self) (occurrences V j seq).
Proof.
  intros HV. rewrite transform_self. split_and!; [done..|].
  intros seqs Htok Hsize. unfold transform. rewrite Htok.
  rewrite (_count_rows self V seqs HV Hsize).
  eexists. split_and!; [reflexivity|..].
  - destruct (binary self); simpl; by rewrite !length_map.
  - intros i seq j Hi.
    assert (Hrow : csr_row (csr_of_rows (map sort_row (map (feature_counter V) seqs))
                              (size V - 4)) i
                   = sort_row (feature_counter V seq)).
    { apply csr_row_of_rows. change (map ?f ?l) with (f <$> l).
      by rewrite !list_lookup_fmap, Hi. }
    unfold reported. destruct (binary self).
    + change (csr_get ?X i j) with (sum_at j (csr_row X i)).
      rewrite csr_row_data_fill, Hrow, sum_at_ones.
      rewrite (entries_at_perm _ _ _ (sort_row_perm _)).
      rewrite feature_counter_entries. by case_decide.
    + change (csr_get ?X i j) with (sum_at j (csr_row X i)).
      rewrite Hrow. rewrite (sum_at_perm _ _ _ (sort_row_perm _)).
      apply feature_counter_sum.
Qed.

Lemma C5_transform_counts_against_vocabulary_witness :
  (transform vectorizer_d docs).2 = vectorizer_d
  ∧ ∃ X, (transform vectorizer_d docs).1
         = Ok ([["a"; "b"; "c"]; ["b"; "c"; "d"; "d"]; ["c"; "b"; "e"; "c"; "f"]], X)
         ∧ shape X = (3, 1)
         ∧ csr_get X 1 0 = 2%Z.
Proof.
  destruct (C5_transform_counts_against_vocabulary vectorizer_d (Vocabulary_init ["d"]) docs
              eq_refl) as (Hself & _ & Hcount).
  split; [exact Hself|].
  destruct (Hcount [["a"; "b"; "c"]; ["b"; "c"; "d"; "d"]; ["c"; "b"; "e"; "c"; "f"]])
    as (X & HX & Hshape & Hget).
  - reflexivity.
  - vm_compute. lia.
  - exists X. split_and!; [exact HX|exact Hshape|].
    rewrite (Hget 1 ["b"; "c"; "d"; "d"] 0%Z eq_refl). reflexivity.
Defined.

(** ** Pruning past the first test *)

Lemma enumerate_snoc {A} (l : list A) (x : A) :
  enumerate (l ++ [x]) = enumerate l ++ [(length l, x)].
Proof.
  unfold enumerate. rewrite length_app. simpl.
  rewrite seq_app. simpl. rewrite zip_with_app by (by rewrite length_seq). done.
Qed.

Lemma np_where_snoc (mask : list bool) (b : bool) :
  np_where (mask ++ [b]) = np_where mask ++ (if b then [length mask] else []).
Proof.
  unfold np_where. rewrite enumerate_snoc, filter_app, map_app. f_equal.
  rewrite filter_cons, filter_nil. simpl. by destruct b.
Qed.

Lemma masked_snoc {A} (mask : list bool) (a : list A) (b : bool) (x : A) :
  length mask = length a →
  masked (mask ++ [b]) (a ++ [x]) = masked mask a ++ (if b then [x] else []).
Proof.
  intros Hlen. unfold masked. rewrite zip_with_app by done.
  rewrite filter_app, map_app. f_equal.
  simpl. rewrite filter_cons, filter_nil. simpl. by destruct b.
Qed.

Lemma np_where_length (mask : list bool) :
  length (np_where mask) = length (filter (λ b, b = true) mask).
Proof.
  induction mask as [|b mask IH] using rev_ind; [done|].
  rewrite np_where_snoc, filter_app, !length_app, IH. f_equal.
  rewrite filter_cons, filter_nil. by destruct b.
Qed.

Lemma np_where_sublist (mask : list bool) : np_where mask `sublist_of` seq 0 (length mask).
Proof.
  induction mask as [|b mask IH] using rev_ind; [done|].
  rewrite np_where_snoc, length_app. simpl. rewrite seq_app. simpl.
  apply sublist_app; [done|]. destruct b; [done|]. apply sublist_nil_l.
Qed.

Lemma np_where_bound (mask : list bool) (j : nat) : j ∈ np_where mask → j < length mask.
Proof.
  intros Hj. pose proof (elem_of_sublist _ _ _ Hj (np_where_sublist mask)) as Hs.
  apply elem_of_seq in Hs. lia.
Qed.

Lemma masked_seq (mask : list bool) : masked mask (seq 0 (length mask)) = np_where mask.
Proof.
  induction mask as [|b mask IH] using rev_ind; [done|].
  rewrite length_app. simpl. rewrite seq_app. simpl.
  rewrite masked_snoc by (by rewrite length_seq).
  by rewrite IH, np_where_snoc.
Qed.

Lemma omap_ext_elem {A B} (f g : A → option B) (l : list A) :
  (∀ x, x ∈ l → f x = g x) → omap f l = omap g l.
Proof.
  induction l as [|x l IH]; intros Hfg; [done|]. csimpl.
  rewrite (Hfg x) by left. rewrite IH; [done|]. intros y Hy. apply Hfg. by right.
Qed.

Lemma masked_lookup {A} (mask : list bool) (a : list A) :
  length mask = length a →
  masked mask a = omap (λ j, a !! j) (np_where mask).
Proof.
  revert a. induction mask as [|b mask IH] using rev_ind; intros a Hlen.
  - by destruct a.
  - destruct a as [|x a _] using rev_ind; [rewrite length_app in Hlen; simpl in Hlen; lia|].
    rewrite !length_app in Hlen. simpl in Hlen.
    rewrite masked_snoc by lia. rewrite np_where_snoc, omap_app.
    rewrite IH by lia. f_equal.
    + apply omap_ext_elem. intros j Hj. apply np_where_bound in Hj.
      by rewrite lookup_app_l by lia.
    + destruct b; [|done]. simpl.
      replace (length mask) with (length a) by lia.
      by rewrite list_lookup_middle.
Qed.

Lemma filter_ext_elem {A} (P Q : A → Prop) `{!∀ x, Decision (P x), !∀ x, Decision (Q x)}
    (l : list A) :
  (∀ x, x ∈ l → P x ↔ Q x) → filter P l = filter Q l.
Proof.
  induction l as [|a l IH]; intros HPQ; [done|].
  rewrite !filter_cons. rewrite IH by (intros y Hy; apply HPQ; by right).
  destruct (decide (P a)) as [HP|HP], (decide (Q a)) as [HQ|HQ]; try done; exfalso.
  - apply HQ, HPQ; [left|done].
  - apply HP, HPQ; [left|done].
Qed.

Lemma filter_elem_sublist (S L : list nat) :
  NoDup L → S `sublist_of` L → filter (λ j, j ∈ S) L = S.
Proof.
  intros Hnd Hsub. induction Hsub as [|x S L Hsub IH|x S L Hsub IH].
  - done.
  - apply NoDup_cons in Hnd as [Hx Hnd].
    rewrite filter_cons_True by left. f_equal.
    etrans; [|apply (IH Hnd)].
    apply filter_ext_elem. intros y Hy.
    rewrite elem_of_cons. split; [|by right].
    intros [->|Hin]; done.
  - apply NoDup_cons in Hnd as [Hx Hnd].
    rewrite filter_cons_False; [by apply IH|].
    intros Hin. apply Hx. by eapply elem_of_sublist.
Qed.

Lemma mask_of_indices_where (n : nat) (idxs : list nat) :
  idxs `sublist_of` seq 0 n → np_where (mask_of_indices n idxs) = idxs.
Proof.
  intros Hsub. rewrite <- (filter_elem_sublist idxs (seq 0 n)) at 2
    by (apply NoDup_seq || done).
  clear Hsub. unfold mask_of_indices.
  induction n as [|n IH]; [done|].
  rewrite seq_S. simpl. rewrite map_app, filter_app. simpl.
  rewrite np_where_snoc, IH, length_map, length_seq. f_equal.
  rewrite filter_cons, filter_nil. by case_bool_decide; case_decide.
Qed.

Lemma del_loop_masked (mask : list bool) :
  ∀ terms pre suf : list string,
    length pre = length SPECIAL_TOKENS →
    length terms = length mask →
    del_loop (reverse (np_where (map negb mask))) (pre ++ terms ++ suf)
    = (Ok (), pre ++ masked mask terms ++ suf).
Proof.
  induction mask as [|b mask IH] using rev_ind; intros terms pre suf Hpre Hlen.
  - by destruct terms.
  - destruct terms as [|x terms _] using rev_ind;
      [rewrite length_app in Hlen; simpl in Hlen; lia|].
    rewrite !length_app in Hlen. simpl in Hlen.
    rewrite map_app. simpl. rewrite np_where_snoc, reverse_app, length_map.
    rewrite masked_snoc by lia. rewrite <- !app_assoc.
    destruct b; simpl.
    + apply IH; [done|lia].
    + change (length SPECIAL_TOKENS) with 4 in Hpre.
      unfold py_delitem. rewrite py_index_inside
        by (rewrite !length_app; simpl; lia).
      rewrite decide_True by lia. rewrite Nat2Z.id.
      replace (length mask + 4) with (length (pre ++ terms))
        by (rewrite length_app; lia).
      rewrite (app_assoc pre terms), delete_middle, <- app_assoc.
      apply IH; [done|lia].
Qed.

Lemma cap_mask_where (mf : option Z) (mask : list bool) :
  (∀ m, mf = Some m → (0 < m)%Z) →
  ∃ mask',
    cap_mask mf (length mask) (seq 0 (length mask)) mask = Ok mask'
    ∧ length mask' = length mask
    ∧ np_where mask'
      = match mf with
        | Some m => take (Z.to_nat m) (np_where mask)
        | None => np_where mask
        end.
Proof.
  intros Hmf. unfold cap_mask. destruct mf as [m|]; [|by exists mask].
  specialize (Hmf m eq_refl). rewrite <- np_where_length.
  case_decide as Hcap.
  - unfold mask_select. rewrite decide_True by apply length_seq.
    rewrite masked_seq. simpl. unfold py_slice_to. rewrite decide_True by lia.
    eexists. split_and!; [done| |].
    + unfold mask_of_indices. by rewrite length_map, length_seq.
    + apply mask_of_indices_where.
      etrans; [apply sublist_take|apply np_where_sublist].
  - exists mask. split_and!; [done..|].
    rewrite take_ge; [done|lia].
Qed.

(** Past its first test, [_limit_features] keeps the terms whose document
    frequency is at most [max_doc_count], only the first [max_features] of
    them when that many are set, in the order they had; it removes the other
    terms from the vocabulary and the matrix and rebuilds [tok2idx]; it
    raises [ValueError], after the removal, when no term is kept. *)
Lemma _limit_features_pruned (self : CountVectorizer) (X : csr_matrix)
    (max_doc_count : number) (v : Vocabulary) (dfs : list Z) :
  num_ge max_doc_count (Z.of_nat (shape X).1) = false →
  _doc_freq X = Ok dfs →
  length dfs = (shape X).2 →
  vocab self = Some v →
  length (idx2tok v) = length SPECIAL_TOKENS + length dfs →
  (∀ mf, max_features self = Some mf → (0 < mf)%Z) →
  let survivors := np_where (map (λ df, int_le_num df max_doc_count) dfs) in
  let kept :=
    match max_features self with
    | Some mf => take (Z.to_nat mf) survivors
    | None => survivors
    end in
  _limit_features self X max_doc_count
  = (if decide (kept = []) then Raise ValueError else Ok (select_columns X kept),
     set_vocab self
       (build_tok2idx
          {| idx2tok := take 4 (idx2tok v) ++ omap (λ j, idx2tok v !! (4 + j)) kept;
             tok2idx := tok2idx v |})).
Proof.
  intros Hfirst Hdf Hcols Hv Hsize Hmf survivors kept.
  unfold _limit_features. rewrite Hfirst, Hdf.
  destruct (cap_mask_where (max_features self)
              (map (λ df, int_le_num df max_doc_count) dfs) Hmf)
    as (mask & Hcap & Hlen & Hkept).
  rewrite length_map in Hcap, Hlen. rewrite <- Hcols, Hcap, Hv.
  fold survivors in Hkept. fold kept in Hkept.
  change (length SPECIAL_TOKENS) with 4 in Hsize.
  rewrite <- (take_drop 4 (idx2tok v)) at 1.
  rewrite <- (app_nil_r (drop 4 (idx2tok v))).
  rewrite (del_loop_masked mask (drop 4 (idx2tok v)) (take 4 (idx2tok v)) []).
  2: { rewrite length_take. change (length SPECIAL_TOKENS) with 4. lia. }
  2: { rewrite length_drop. lia. }
  rewrite app_nil_r, Hkept.
  rewrite (masked_lookup mask (drop 4 (idx2tok v))) by (rewrite length_drop; lia).
  rewrite Hkept.
  assert (Hterms : omap (λ j, drop 4 (idx2tok v) !! j) kept
                   = omap (λ j, idx2tok v !! (4 + j)) kept).
  { apply omap_ext_elem. intros j _. by rewrite lookup_drop. }
  rewrite Hterms.
  destruct (decide (length kept = 0)) as [H0|H0], (decide (kept = [])) as [Hn|Hn];
    try done; exfalso.
  - apply Hn. by apply length_zero_iff_nil.
  - apply H0. by rewrite Hn.
Qed.

(** X16.  Past the first test, when no term has a document frequency of at most
    [max_doc_count], [_limit_features] raises [ValueError]. *)
Corollary _limit_features_exhausted (self : CountVectorizer) (X : csr_matrix)
    (max_doc_count : number) (v : Vocabulary) (dfs : list Z) :
  num_ge max_doc_count (Z.of_nat (shape X).1) = false →
  _doc_freq X = Ok dfs →
  length dfs = (shape X).2 →
  vocab self = Some v →
  length (idx2tok v) = length SPECIAL_TOKENS + length dfs →
  (∀ mf, max_features self = Some mf → (0 < mf)%Z) →
  np_where (map (λ df, int_le_num df max_doc_count) dfs) = [] →
  (_limit_features self X max_doc_count).1 = Raise ValueError
  ∧ idx2tok <$> vocab (_limit_features self X max_doc_count).2 = Some (take 4 (idx2tok v)).
Proof.
  intros Hfirst Hdf Hcols Hv Hsize Hmf Hnone.
  rewrite (_limit_features_pruned self X max_doc_count v dfs Hfirst Hdf Hcols Hv Hsize Hmf).
  rewrite Hnone. destruct (max_features self); simpl; by rewrite ?take_nil, ?app_nil_r.
Qed.

Lemma _limit_features_exhausted_witness :
  (_limit_features vectorizer_2_3_counting (corpus_counts 3) (PyInt 2)).1 = Raise ValueError
  ∧ idx2tok <$> vocab (_limit_features vectorizer_2_3_counting (corpus_counts 3)
                         (PyInt 2)).2
    = Some SPECIAL_TOKENS.
Proof.
  apply (_limit_features_exhausted vectorizer_2_3_counting (corpus_counts 3) (PyInt 2)
           (from_sequences corpus_tokens None 3) [3; 3]%Z).
  - reflexivity.
  - by vm_compute.
  - reflexivity.
  - reflexivity.
  - reflexivity.
  - intros mf H. discriminate H.
  - reflexivity.
Defined.

(** ** C2 *)

(** C2.  For the corpus ["a b c", "b c d d", "c b e c f"] and a
    [CountVectorizer] constructed with [max_doc_freq=2, min_freq=1,
    max_features=1]: the terms are ranked c, b, d, a, e, f; c and b, each of
    document frequency 3, exceed 2 and are excluded first; of the remaining
    terms d, a, e, f only the first, d, is kept; after fitting, the vocabulary
    is the reserved tokens and d, and [transform] on the same corpus returns
    the 3-by-1 count matrix [[0], [2], [0]]. *)
Theorem C2_transform_after_fit :
  CountVectorizer_init None None (PyInt 2) 1 (Some 1%Z) false = Ok vectorizer_2_1_1
  ∧ idx2tok (from_sequences corpus_tokens None 1)
    = SPECIAL_TOKENS ++ ["c"; "b"; "d"; "a"; "e"; "f"]
  ∧ (X ← _count vectorizer_2_1_1_counting corpus_tokens; _doc_freq X)
    = Ok [3; 3; 1; 1; 1; 1]%Z
  ∧ map (λ df, int_le_num df (PyInt 2)) [3; 3; 1; 1; 1; 1]%Z
    = [false; false; true; true; true; true]
  ∧ cap_mask (Some 1%Z) 6 (seq 0 6) [false; false; true; true; true; true]
    = Ok [false; false; true; false; false; false]
  ∧ (fit vectorizer_2_1_1 docs).1 = Ok ()
  ∧ idx2tok <$> vocab (fit vectorizer_2_1_1 docs).2 = Some (SPECIAL_TOKENS ++ ["d"])
  ∧ returned (transform (fit vectorizer_2_1_1 docs).2 docs).1
    = Ok (corpus_tokens, (3, 1), [[0]; [2]; [0]]%Z)
  ∧ (transform (fit vectorizer_2_1_1 docs).2 docs).2 = (fit vectorizer_2_1_1 docs).2.
Proof.
  split_and!; [reflexivity|by vm_compute..|].
  apply transform_self.
Qed.

(** ** C3 *)

(** C3 fails on the code.  With [max_features=1] and the default
    [max_doc_freq=1.0] the threshold [1.0 * 3] is not below the number of
    documents, [_limit_features] returns at its first test, and all six terms
    stay in the vocabulary and in the matrix; the same holds for the integer
    threshold [max_doc_freq=3]. *)
Theorem C3_max_features_not_applied :
  CountVectorizer_init None None (PyFloat 1.0%float) 1 (Some 1%Z) false = Ok vectorizer_cap_1
  ∧ idx2tok <$> vocab (fit_transform vectorizer_cap_1 docs).2
    = Some (SPECIAL_TOKENS ++ ["c"; "b"; "d"; "a"; "e"; "f"])
  ∧ returned (fit_transform vectorizer_cap_1 docs).1
    = Ok (corpus_tokens, (3, 6),
          [[1; 1; 0; 1; 0; 0]; [1; 1; 2; 0; 0; 0]; [2; 1; 0; 0; 1; 1]]%Z)
  ∧ (∀ cv, CountVectorizer_init None None (PyInt 3) 1 (Some 1%Z) false = Ok cv →
       returned (fit_transform cv docs).1
       = Ok (corpus_tokens, (3, 6),
             [[1; 1; 0; 1; 0; 0]; [1; 1; 2; 0; 0; 0]; [2; 1; 0; 0; 1; 1]]%Z)).
Proof.
  split_and!; [reflexivity|by vm_compute..|].
  intros cv [= <-]. by vm_compute.
Qed.

(** A text module with [max_vocab=1], the other arguments at their defaults:
    the vocabulary it builds over the corpus of the tests holds all six
    terms. *)
Example max_vocab_not_applied :
  idx2tok <$> text_vocab
    (_build_text
       (TextModule_init
          (Some (<["u1" := "a b c"]> (<["u2" := "b c d d"]> {[ "u3" := "c b e c f" ]})))
          None None (Some 1%Z) (PyFloat 1.0%float) 1)
       [("u1", 0%Z); ("u2", 1%Z); ("u3", 2%Z)]).2
  = Some (SPECIAL_TOKENS ++ ["c"; "b"; "d"; "a"; "e"; "f"]).
Proof. by vm_compute. Qed.

(** ** C4 *)

(** C4 fails on the code.  With [min_freq=5] no term of the corpus is
    frequent enough, the fitted vocabulary holds the reserved tokens only,
    and [fit_transform] returns a matrix without columns instead of raising:
    [_limit_features] returns at its first test, before the test for an empty
    result. *)
Theorem C4_no_terms_no_error :
  CountVectorizer_init None None (PyFloat 1.0%float) 5 None false = Ok vectorizer_min_5
  ∧ idx2tok <$> vocab (fit_transform vectorizer_min_5 docs).2 = Some SPECIAL_TOKENS
  ∧ returned (fit_transform vectorizer_min_5 docs).1 = Ok (corpus_tokens, (3, 0), [[]; []; []])
  ∧ (fit vectorizer_min_5 docs).1 = Ok ().
Proof. split_and!; [reflexivity|by vm_compute..]. Qed.

(** The test [test_bad_freq_arguments]: with [max_doc_freq=2, min_freq=3]
    only c and b enter the vocabulary, both occur in all three documents, and
    fitting raises once the first test of [_limit_features] is passed. *)
Example bad_freq_arguments_raise :
  ∀ cv, CountVectorizer_init None None (PyInt 2) 3 None false = Ok cv →
        (fit cv docs).1 = Raise ValueError
        ∧ idx2tok <$> vocab (fit cv docs).2 = Some SPECIAL_TOKENS.
Proof. intros cv [= <-]. by vm_compute. Qed.

(** * Further properties of the code *)

(** ** Strings *)

Lemma string_app_cons (c : ascii) (s t : string) : String c s +:+ t = String c (s +:+ t).
Proof. reflexivity. Qed.

Lemma string_app_nil_r (s : string) : s +:+ "" = s.
Proof. induction s as [|c s IH]; [done|]. by rewrite string_app_cons, IH. Qed.

Lemma string_app_assoc (s t u : string) : (s +:+ t) +:+ u = s +:+ t +:+ u.
Proof. induction s as [|c s IH]; [done|]. by rewrite !string_app_cons, IH. Qed.

Lemma string_all_app (P : ascii → Prop) (s t : string) :
  string_all P (s +:+ t) ↔ string_all P s ∧ string_all P t.
Proof.
  induction s as [|c s IH]; [simpl; tauto|].
  rewrite string_app_cons. simpl. rewrite IH. tauto.
Qed.

Lemma string_all_impl (P Q : ascii → Prop) (s : string) :
  (∀ c, P c → Q c) → string_all P s → string_all Q s.
Proof. intros HPQ. induction s as [|c s IH]; simpl; [done|]. intros [??]. auto. Qed.

Lemma prefix_length (sep t : string) :
  String.prefix sep t = true → String.length sep ≤ String.length t.
Proof.
  revert sep. induction t as [|c t IH]; intros [|a sep]; simpl; try done; try lia.
  destruct (ascii_dec a c); [|done]. intros H. apply IH in H. lia.
Qed.

Lemma prefix_drop (sep t : string) :
  String.prefix sep t = true → sep +:+ string_drop (String.length sep) t = t.
Proof.
  revert sep. induction t as [|c t IH]; intros [|a sep]; simpl; try done.
  destruct (ascii_dec a c) as [->|]; [|done]. intros H.
  rewrite string_app_cons. by rewrite IH.
Qed.

Lemma split_scan_cons (sep : string) (skip : nat) (cur t : string) :
  ∃ tok toks, split_scan sep skip cur t = tok :: toks.
Proof.
  revert skip cur. induction t as [|c t IH]; intros skip cur;
    [by eexists _, _|].
  cbn [split_scan]. destruct skip as [|k]; [|apply IH].
  destruct (String.prefix sep (String c t)); [by eexists _, _|apply IH].
Qed.

Lemma join_cons (sep x : string) (l : list string) :
  l ≠ [] → join sep (x :: l) = x +:+ sep +:+ join sep l.
Proof. by destruct l. Qed.

Lemma split_scan_join (sep : string) (t : string) :
  sep ≠ "" →
  ∀ (skip : nat) (cur : string),
    skip ≤ String.length t →
    join sep (split_scan sep skip cur t) = cur +:+ string_drop skip t.
Proof.
  intros Hsep. induction t as [|c t IH]; intros skip cur Hskip.
  - simpl in Hskip. assert (skip = 0) as -> by lia. simpl. by rewrite string_app_nil_r.
  - destruct skip as [|k].
    + cbn [split_scan string_drop].
      destruct (String.prefix sep (String c t)) eqn:Hpre.
      * destruct (split_scan_cons sep (String.length sep - 1) "" t) as (tok & toks & Hs).
        rewrite join_cons by (by rewrite Hs).
        pose proof (prefix_length _ _ Hpre) as Hlen. simpl in Hlen.
        rewrite IH by lia. f_equal.
        etrans; [|apply (prefix_drop _ _ Hpre)].
        destruct sep as [|a sep]; [done|]. simpl.
        by rewrite Nat.sub_0_r.
      * rewrite IH by lia. simpl.
        by rewrite string_app_assoc.
    + cbn [split_scan string_drop]. apply IH. simpl in Hskip. lia.
Qed.

(** X1.  [BaseTokenizer.tokenize] loses nothing but what its rules rewrite: for a
    non-empty separator it returns at least one token, and joining the tokens
    with the separator gives back the text as the rules left it; an empty
    separator is a [ValueError]. *)
Theorem tokenize_join_roundtrip (sep : string) (pre_rules : option (list (string → string)))
    (t : string) :
  (sep = "" → tokenize (BaseTokenizer sep pre_rules) t = Raise ValueError)
  ∧ (sep ≠ "" →
     ∃ toks, tokenize (BaseTokenizer sep pre_rules) t = Ok toks
             ∧ toks ≠ []
             ∧ join sep toks
               = foldl (λ t rule, rule t) t (default DEFAULT_PRE_RULES pre_rules)).
Proof.
  unfold BaseTokenizer. cbn [tokenize]. unfold BaseTokenizer_tokenize, split. split.
  - intros ->. done.
  - intros Hsep. rewrite decide_False by done. eexists. split_and!; [done|..].
    + destruct (split_scan_cons sep 0 ""
                  (foldl (λ t rule, rule t) t (default DEFAULT_PRE_RULES pre_rules)))
        as (tok & toks & ->). done.
    + by rewrite split_scan_join by (done || simpl; lia).
Qed.

Lemma tokenize_join_roundtrip_witness :
  ∃ toks, tokenize (BaseTokenizer ", " (Some [])) "a, b,, c" = Ok toks
          ∧ toks ≠ [] ∧ join ", " toks = "a, b,, c".
Proof. apply (proj2 (tokenize_join_roundtrip ", " (Some []) "a, b,, c")). discriminate. Defined.

(** ** Characters of the default tokens *)

Lemma lower_all (t : string) : string_all (λ c, ¬ is_upper c) (lower t).
Proof.
  induction t as [|c t IH]; simpl; [done|]. split; [|done].
  unfold lower_char, is_upper. case_decide as Hc; [|done].
  rewrite nat_ascii_embedding by lia. lia.
Qed.

Lemma rm_tags_scan_all (P : ascii → Prop) (t : string) :
  ∀ held, from_option (string_all P) True held → string_all P t →
          string_all P (rm_tags_scan held t).
Proof.
  induction t as [|c t IH]; intros held Hheld Ht; simpl.
  - by destruct held.
  - destruct Ht as [Hc Ht]. destruct held as [h|]; simpl in Hheld.
    + case_decide.
      * case_decide.
        -- apply string_all_app. split; [done|]. simpl. split; [done|]. by apply IH.
        -- by apply IH.
      * apply IH; [|done]. simpl. apply string_all_app. by split.
    + case_decide.
      * apply IH; [|done]. simpl. done.
      * simpl. split; [done|]. by apply IH.
Qed.

Lemma rm_numeric_scan_all (P : ascii → Prop) (t : string) (in_run : bool) :
  P SP → string_all P t →
  string_all (λ c, P c ∧ is_digit c = false) (rm_numeric_scan in_run t).
Proof.
  intros HSP. revert in_run. induction t as [|c t IH]; intros in_run Ht; simpl; [done|].
  destruct Ht as [Hc Ht]. destruct (is_digit c) eqn:Hd.
  - destruct in_run; [by apply IH|]. simpl. split; [by split|by apply IH].
  - simpl. split; [by split|by apply IH].
Qed.

Lemma rm_punctuation_all (P : ascii → Prop) (t : string) :
  string_all P t → string_all (λ c, P c ∧ is_punctuation c = false) (rm_punctuation t).
Proof.
  induction t as [|c t IH]; intros Ht; simpl; [done|].
  destruct Ht as [Hc Ht]. destruct (is_punctuation c) eqn:Hp; [by apply IH|].
  simpl. split; [by split|by apply IH].
Qed.

Lemma rm_dup_spaces_scan_all (P : ascii → Prop) (t : string) (after_space : bool) :
  string_all P t → string_all P (rm_dup_spaces_scan after_space t).
Proof.
  revert after_space. induction t as [|c t IH]; intros after_space Ht; simpl; [done|].
  destruct Ht as [Hc Ht]. case_decide.
  - destruct after_space; [by apply IH|]. simpl. split; [done|by apply IH].
  - simpl. split; [done|by apply IH].
Qed.

Lemma split_space_all (P : ascii → Prop) (t : string) :
  ∀ cur, string_all (λ c, P c ∧ c ≠ SP) cur → string_all P t →
         Forall (string_all (λ c, P c ∧ c ≠ SP)) (split_scan " " 0 cur t).
Proof.
  induction t as [|c t IH]; intros cur Hcur Ht.
  - by constructor.
  - destruct Ht as [Hc Ht]. cbn [split_scan String.prefix].
    destruct (ascii_dec " " c) as [Heq|Hne].
    + destruct t; (constructor; [done|]); by apply IH.
    + apply IH; [|done]. apply string_all_app. split; [done|].
      simpl. split_and!; [done| |done]. intros ->. by apply Hne.
Qed.

(** X2.  The tokens of [BaseTokenizer()]: tokenizing never fails, and no token
    holds an upper-case letter, a digit, a punctuation character or a space;
    so no token is one of the reserved tokens. *)
Theorem default_tokens_clean (t : string) :
  ∃ toks, tokenize BaseTokenizer_default t = Ok toks
          ∧ Forall (string_all clean_char) toks
          ∧ Forall (λ tok, ¬ reserved tok) toks.
Proof.
  eexists. split; [reflexivity|].
  assert (Hclean : Forall (string_all clean_char)
            (split_scan " " 0 ""
               (rm_dup_spaces (rm_punctuation (rm_numeric (rm_tags (lower t))))))).
  { eapply Forall_impl.
    - apply (split_space_all
               (λ c, ((¬ is_upper c) ∧ is_digit c = false) ∧ is_punctuation c = false)).
      + done.
      + apply rm_dup_spaces_scan_all, rm_punctuation_all, rm_numeric_scan_all.
        * unfold is_upper. vm_compute. lia.
        * apply rm_tags_scan_all; [done|apply lower_all].
    - intros tok Htok. eapply string_all_impl; [|exact Htok].
      unfold clean_char. tauto. }
  split; [exact Hclean|].
  eapply Forall_impl; [exact Hclean|]. intros tok Htok Hres.
  unfold reserved, SPECIAL_TOKENS in Hres.
  rewrite !elem_of_cons, elem_of_nil in Hres.
  destruct Hres as [->|[->|[->|[->|[]]]]]; destruct Htok as [(_ & _ & Hp & _) _];
    by vm_compute in Hp.
Qed.

Lemma rmap_Forall2 {A B} (f : A → result B) (l : list A) (ys : list B) :
  rmap f l = Ok ys ↔ Forall2 (λ x y, f x = Ok y) l ys.
Proof.
  revert ys. induction l as [|x l IH]; intros ys; simpl.
  - split; [intros [= <-]; constructor|intros H; by inversion H].
  - destruct (f x) as [y|e] eqn:Hx; simpl.
    + destruct (rmap f l) as [ys'|e] eqn:Hl; simpl.
      * split.
        -- intros [= <-]. constructor; [done|]. by apply IH.
        -- intros H. inversion H as [|? y' ? ys'' Hy Hf]; subst.
           rewrite Hx in Hy. injection Hy as <-.
           apply IH in Hf. by injection Hf as <-.
      * split; [done|]. intros H. inversion H as [|? y' ? ys'' Hy Hf]; subst.
        apply IH in Hf. done.
    + split; [done|]. intros H. inversion H as [|? y' ? ys'' Hy Hf]; subst.
      rewrite Hx in Hy. done.
Qed.

(** ** Empty tokens *)

Lemma rm_dup_spaces_scan_single (after_space : bool) (t : string) :
  single_spaced after_space (rm_dup_spaces_scan after_space t).
Proof.
  revert after_space. induction t as [|c t IH]; intros after; [done|].
  cbn [rm_dup_spaces_scan]. destruct (decide (c = SP)) as [Hc|Hc].
  - destruct after; [apply IH|]. cbn [single_spaced].
    destruct (decide (c = SP)); [|done]. split; [done|apply IH].
  - cbn [single_spaced]. destruct (decide (c = SP)); [done|]. apply IH.
Qed.

(** Splitting a text without two spaces in a row: every token after the
    first and before the last is non-empty, and so is the first one when
    something precedes the first space. *)
Lemma split_single_spaced (t : string) :
  ∀ (after_space : bool) (cur : string),
    single_spaced after_space t →
    ∃ tok toks,
      split_scan " " 0 cur t = tok :: toks
      ∧ (cur ≠ "" ∨ (after_space = true ∧ t ≠ "") → tok ≠ "")
      ∧ Forall (λ tok, tok ≠ "") (removelast toks).
Proof.
  induction t as [|c t IH]; intros after cur Hs.
  - exists cur, []. split_and!; [done| |constructor]. intros [?|[_ ?]]; done.
  - cbn [split_scan String.prefix]. simpl in Hs.
    destruct (ascii_dec " " c) as [<-|Hne].
    + rewrite decide_True in Hs by done. destruct Hs as [-> Hs].
      replace (String.prefix "" t) with true by (by destruct t).
      change (String.length " " - 1) with 0.
      destruct (IH true "" Hs) as (tok & toks & Heq & Hhd & Hin).
      rewrite Heq. exists cur, (tok :: toks). split_and!; [done| |].
      * intros [?|[? _]]; done.
      * destruct toks as [|tok' toks]; [constructor|].
        change (removelast (tok :: tok' :: toks)) with (tok :: removelast (tok' :: toks)).
        constructor; [|done]. apply Hhd. right. split; [done|].
        intros ->. simpl in Heq. done.
    + rewrite decide_False in Hs by (intros ->; by apply Hne).
      destruct (IH false (cur +:+ String c "") Hs) as (tok & toks & Heq & Hhd & Hin).
      exists tok, toks. split_and!; [done| |done].
      intros _. apply Hhd. left. destruct cur; done.
Qed.

(** X4.  The tokens of [BaseTokenizer()]: an empty token can only be the
    first or the last one; every token in between is non-empty. *)
Theorem default_tokens_inner_nonempty (t : string) :
  ∃ toks, tokenize BaseTokenizer_default t = Ok toks
          ∧ Forall (λ tok, tok ≠ "") (inner toks).
Proof.
  eexists. split; [reflexivity|].
  destruct (split_single_spaced
              (rm_dup_spaces (rm_punctuation (rm_numeric (rm_tags (lower t))))) false "")
    as (tok & toks & Heq & _ & Hin).
  { apply rm_dup_spaces_scan_single. }
  change (foldl (λ t rule, rule t) t (default DEFAULT_PRE_RULES None))
    with (rm_dup_spaces (rm_punctuation (rm_numeric (rm_tags (lower t))))).
  rewrite Heq. unfold inner. destruct toks as [|tok' toks]; [constructor|].
  exact Hin.
Qed.

(** ** Encoding tokens *)

Lemma enumerate_fold_Some (l : list string) (k : nat) (m : gmap string Z)
    (tok : string) (i : Z) :
  foldl (λ m it, <[it.2 := Z.of_nat it.1]> m) m (zip (seq k (length l)) l) !! tok = Some i →
  m !! tok = Some i ∨ ∃ j, i = Z.of_nat (k + j) ∧ l !! j = Some tok.
Proof.
  revert k m. induction l as [|x l IH]; intros k m; simpl; [by left|].
  intros H. destruct (IH _ _ H) as [Hm|(j & -> & Hj)].
  - destruct (decide (x = tok)) as [->|Hne].
    + rewrite lookup_insert_eq in Hm. injection Hm as <-.
      right. exists 0. split; [f_equal; lia|done].
    + rewrite lookup_insert_ne in Hm by done. by left.
  - right. exists (S j). split; [f_equal; lia|done].
Qed.

Lemma enumerate_fold_elem (l : list string) (k : nat) (m : gmap string Z) (tok : string) :
  tok ∈ l →
  is_Some (foldl (λ m it, <[it.2 := Z.of_nat it.1]> m) m (zip (seq k (length l)) l) !! tok).
Proof.
  revert k m. induction l as [|x l IH]; intros k m Hin; [by inversion Hin|].
  simpl. destruct (decide (tok ∈ l)) as [Hl|Hl]; [by apply IH|].
  apply elem_of_cons in Hin as [->|?]; [|done].
  rewrite enumerate_fold_notin by done. rewrite lookup_insert_eq. by eexists.
Qed.

Lemma dict_of_enumerate_Some (l : list string) (tok : string) (i : Z) :
  dict_of_enumerate l !! tok = Some i →
  (0 ≤ i < Z.of_nat (length l))%Z ∧ l !! Z.to_nat i = Some tok.
Proof.
  unfold dict_of_enumerate, enumerate. intros H.
  destruct (enumerate_fold_Some _ _ _ _ _ H) as [Hm|(j & -> & Hj)].
  - by rewrite lookup_empty in Hm.
  - simpl. rewrite Nat2Z.id. split; [|done].
    apply lookup_lt_Some in Hj. lia.
Qed.

Lemma dict_of_enumerate_None (l : list string) (tok : string) :
  dict_of_enumerate l !! tok = None ↔ tok ∉ l.
Proof.
  unfold dict_of_enumerate, enumerate. split.
  - intros Hnone Hin. destruct (enumerate_fold_elem l 0 ∅ tok Hin) as [i Hi]. congruence.
  - intros Hnot. by rewrite enumerate_fold_notin.
Qed.

Lemma to_idx_ids_aux (v : Vocabulary) (tokens : list string) :
  consistent v →
  Forall2 (λ tok i,
       ((tok ∉ idx2tok v) ∧ i = 1%Z)
       ∨ ((tok ∈ idx2tok v) ∧ (0 ≤ i < Z.of_nat (length (idx2tok v)))%Z
          ∧ idx2tok v !! Z.to_nat i = Some tok))
      tokens (to_idx v tokens).
Proof.
  intros Hc. unfold to_idx. rewrite Hc.
  induction tokens as [|tok tokens IH]; simpl; constructor; [|done].
  destruct (dict_of_enumerate (idx2tok v) !! tok) as [i|] eqn:Hi; simpl.
  - right. destruct (dict_of_enumerate_Some _ _ _ Hi) as [Hr Hl].
    split; [by eapply list_elem_of_lookup_2|]. by split.
  - left. split; [|done]. by apply dict_of_enumerate_None.
Qed.

(** X5.  [to_idx] returns one id for each token; a token absent from the
    vocabulary gets the id 1 of UNK, a token of the vocabulary gets a position
    at which [idx2tok] holds it; so every id is valid for [to_text] once the
    vocabulary holds two entries. *)
Theorem to_idx_ids (v : Vocabulary) (tokens : list string) :
  consistent v →
  length (to_idx v tokens) = length tokens
  ∧ Forall2 (λ tok i,
       ((tok ∉ idx2tok v) ∧ i = 1%Z)
       ∨ ((tok ∈ idx2tok v) ∧ (0 ≤ i < Z.of_nat (size v))%Z
          ∧ idx2tok v !! Z.to_nat i = Some tok))
      tokens (to_idx v tokens)
  ∧ (2 ≤ size v → Forall (λ i, (0 ≤ i < Z.of_nat (size v))%Z) (to_idx v tokens)).
Proof.
  intros Hc. unfold to_idx, size. rewrite Hc. split_and!.
  - by rewrite length_map.
  - induction tokens as [|tok tokens IH]; simpl; constructor; [|done].
    destruct (dict_of_enumerate (idx2tok v) !! tok) as [i|] eqn:Hi; simpl.
    + right. destruct (dict_of_enumerate_Some _ _ _ Hi) as [Hr Hl].
      split; [by eapply list_elem_of_lookup_2|]. by split.
    + left. split; [|done]. by apply dict_of_enumerate_None.
  - intros Hsize. apply Forall_forall. intros i Hi.
    apply list_elem_of_In, in_map_iff in Hi as (tok & <- & _).
    destruct (dict_of_enumerate (idx2tok v) !! tok) as [i|] eqn:Hi; simpl.
    + by destruct (dict_of_enumerate_Some _ _ _ Hi).
    + lia.
Qed.

Lemma to_idx_ids_witness :
  length (to_idx (Vocabulary_init ["a"; "b"]) ["b"; "z"; "a"]) = 3
  ∧ Forall (λ i, (0 ≤ i < 6)%Z) (to_idx (Vocabulary_init ["a"; "b"]) ["b"; "z"; "a"]).
Proof.
  destruct (to_idx_ids (Vocabulary_init ["a"; "b"]) ["b"; "z"; "a"] eq_refl)
    as (Hlen & _ & Hrange).
  split; [exact Hlen|]. apply Hrange. vm_compute. lia.
Defined.

(** X6.  Decoding what [to_idx] encoded never fails for a vocabulary made by the
    constructor, whatever list it was made from: every token of the
    vocabulary comes back as itself and every other token as UNK. *)
Theorem to_text_to_idx (T tokens : list string) :
  to_text (Vocabulary_init T) (to_idx (Vocabulary_init T) tokens) None
  = Ok (Tokens (map (λ tok, if decide (tok ∈ idx2tok (Vocabulary_init T)) then tok else UNK)
                  tokens)).
Proof.
  unfold to_text.
  assert (H : rmap (py_getitem (idx2tok (Vocabulary_init T)))
                (to_idx (Vocabulary_init T) tokens)
              = Ok (map (λ tok, if decide (tok ∈ idx2tok (Vocabulary_init T))
                                then tok else UNK) tokens));
    [|by rewrite H].
  pose proof (to_idx_ids_aux (Vocabulary_init T) tokens (Vocabulary_init_consistent T))
    as Hf.
  assert (Hunk : py_getitem (idx2tok (Vocabulary_init T)) 1 = Ok UNK).
  { rewrite Vocabulary_init_idx2tok. unfold py_getitem.
    rewrite py_index_inside by (rewrite length_app; simpl; lia). done. }
  clear Hf. induction tokens as [|tok tokens IH]; [done|].
  pose proof (to_idx_ids_aux (Vocabulary_init T) [tok] (Vocabulary_init_consistent T))
    as Hf.
  apply Forall2_cons_1 in Hf as [Hi _].
  change (to_idx (Vocabulary_init T) (tok :: tokens))
    with (default 1%Z (tok2idx (Vocabulary_init T) !! tok)
          :: to_idx (Vocabulary_init T) tokens).
  cbn [rmap map]. rewrite IH.
  destruct Hi as [[Hnot ->]|(Hin & Hr & Hl)].
  - rewrite Hunk. simpl. by rewrite decide_False.
  - unfold py_getitem. rewrite py_index_inside by lia.
    rewrite decide_True by lia. rewrite Hl. simpl. by rewrite decide_True.
Qed.

(** X7.  The constructor applied to the [idx2tok] of a vocabulary it made gives
    that vocabulary back, with the same [idx2tok] and the same [tok2idx]:
    the reserved tokens are moved to the front once.  ([load] applies the
    constructor to the list [save] wrote.) *)
Theorem Vocabulary_init_idempotent (T : list string) :
  Vocabulary_init (idx2tok (Vocabulary_init T)) = Vocabulary_init T.
Proof.
  unfold Vocabulary_init, build_tok2idx. cbn [idx2tok].
  rewrite (_add_special_tokens_eq T).
  by rewrite _add_special_tokens_eq, strip_reserved_special.
Qed.

(** ** Counting tokens *)

Lemma freq_snoc (tok x : string) (l : list string) :
  freq tok (l ++ [x]) = (freq tok l + (if decide (x = tok) then 1 else 0))%Z.
Proof.
  unfold freq. rewrite filter_app, length_app, filter_cons, filter_nil.
  case_decide; simpl; lia.
Qed.

Lemma freq_pos (tok : string) (l : list string) : tok ∈ l ↔ (0 < freq tok l)%Z.
Proof.
  unfold freq. split.
  - intros Hin. assert (Hf : tok ∈ filter (λ x, x = tok) l) by (by apply list_elem_of_filter).
    destruct (filter (λ x, x = tok) l); [by inversion Hf|simpl; lia].
  - intros Hpos. destruct (filter (λ x, x = tok) l) as [|y l'] eqn:Hf; [simpl in Hpos; lia|].
    assert (Hy : y ∈ filter (λ x, x = tok) l) by (rewrite Hf; left).
    apply list_elem_of_filter in Hy as [-> ?]. done.
Qed.

Lemma counter_incr_elem (x : string) (c : list (string * Z)) (k : string) (n : Z) :
  NoDup (map fst c) →
  (k, n) ∈ counter_incr x c ↔
    (k ≠ x ∧ (k, n) ∈ c)
    ∨ (k = x ∧ ((∃ n0, (x, n0) ∈ c ∧ n = (n0 + 1)%Z) ∨ ((x ∉ map fst c) ∧ n = 1%Z))).
Proof.
  induction c as [|[y m] c IH]; intros Hnd; simpl.
  - rewrite list_elem_of_singleton. split.
    + intros [= -> ->]. right. split; [done|]. right. split; [|done]. by intros ?%elem_of_nil.
    + intros [[_ Hin]|[-> [(n0 & Hin & _)|[_ ->]]]]; [by apply elem_of_nil in Hin..|done].
  - apply NoDup_cons in Hnd as [Hy Hnd]. specialize (IH Hnd).
    assert (Hyc : ∀ n', (y, n') ∉ c).
    { intros n' Hin. apply Hy. change (y ∈ fst <$> c). apply list_elem_of_fmap.
      by exists (y, n'). }
    destruct (decide (x = y)) as [->|Hne]; simpl.
    + rewrite elem_of_cons. split.
      * intros [Heq|Hin].
        -- injection Heq as -> ->. right. split; [done|]. left. exists m.
           split; [by left|done].
        -- left. split; [|by right]. intros ->. by apply (Hyc n).
      * intros [[Hk [Heq|Hin]%elem_of_cons]
               |[-> [(n0 & [Heq|Hin]%elem_of_cons & ->)|[Hnot _]]]].
        -- congruence.
        -- by right.
        -- injection Heq as ->. by left.
        -- by apply Hyc in Hin.
        -- exfalso. apply Hnot. by left.
    + rewrite elem_of_cons, IH. split.
      * intros [Heq|[[Hk Hin]|[-> [(n0 & Hin & ->)|[Hnot ->]]]]].
        -- injection Heq as -> ->. left. split; [done|]. by left.
        -- left. split; [done|]. by right.
        -- right. split; [done|]. left. exists n0. split; [by right|done].
        -- right. split; [done|]. right. split; [|done].
           intros [?|?]%elem_of_cons; [done|]. by apply Hnot.
      * intros [[Hk [Heq|Hin]%elem_of_cons]
               |[-> [(n0 & [Heq|Hin]%elem_of_cons & ->)|[Hnot ->]]]].
        -- by left.
        -- right. left. done.
        -- congruence.
        -- right. right. split; [done|]. left. by exists n0.
        -- right. right. split; [done|]. right. split; [|done].
           intros Hin. apply Hnot. by right.
Qed.

Lemma counter_incr_keys_NoDup (x : string) (c : list (string * Z)) :
  NoDup (map fst c) → NoDup (map fst (counter_incr x c)).
Proof.
  intros Hnd. rewrite counter_incr_keys. case_decide as Hin; [done|].
  apply NoDup_app. split_and!; [done| |apply NoDup_singleton].
  intros y Hy ->%list_elem_of_singleton. done.
Qed.

(** The counter after the tokens [seen]: one entry for each distinct token,
    with its number of occurrences. *)
Lemma Counter_fold (rest seen : list string) (c : list (string * Z)) :
  NoDup (map fst c) →
  (∀ k n, (k, n) ∈ c ↔ (k ∈ seen) ∧ n = freq k seen) →
  NoDup (map fst (foldl (λ c k, counter_incr k c) c rest))
  ∧ ∀ k n, (k, n) ∈ foldl (λ c k, counter_incr k c) c rest
           ↔ (k ∈ seen ++ rest) ∧ n = freq k (seen ++ rest).
Proof.
  revert seen c. induction rest as [|x rest IH]; intros seen c Hnd Hc; simpl.
  - rewrite app_nil_r. by split.
  - replace (seen ++ x :: rest) with ((seen ++ [x]) ++ rest) by (by rewrite <- app_assoc).
    apply IH; [by apply counter_incr_keys_NoDup|].
    intros k n. rewrite counter_incr_elem by done. rewrite freq_snoc, elem_of_app,
      list_elem_of_singleton. split.
    + intros [[Hk Hin]|[-> [(n0 & Hin & ->)|[Hnot ->]]]].
      * apply Hc in Hin as [? ->]. split; [by left|]. rewrite decide_False by done. lia.
      * apply Hc in Hin as [? ->]. split; [by left|]. by rewrite decide_True.
      * split; [by right|]. rewrite decide_True by done.
        assert (Hz : ¬ (0 < freq x seen)%Z).
        { intros Hpos%freq_pos. apply Hnot. change (x ∈ fst <$> c).
          apply list_elem_of_fmap. exists (x, freq x seen). split; [done|]. by apply Hc. }
        unfold freq in *. lia.
    + intros [Hin ->]. destruct (decide (x = k)) as [->|Hne].
      * right. split; [done|]. destruct (decide (k ∈ seen)) as [Hs|Hs].
        -- left. exists (freq k seen). split; [by apply Hc|done].
        -- right. split.
           ++ intros Hk. change (k ∈ fst <$> c) in Hk.
              apply list_elem_of_fmap in Hk as ([k' n'] & -> & Hk). simpl in *.
              apply Hc in Hk as [? _]. done.
           ++ assert (Hz : ¬ (0 < freq k seen)%Z) by (by intros ?%freq_pos).
              unfold freq in *. lia.
      * left. split; [done|]. apply Hc. destruct Hin as [?|?]; [|done].
        split; [done|lia].
Qed.

Lemma Counter_elem (tokens : list string) (k : string) (n : Z) :
  (k, n) ∈ Counter tokens ↔ (k ∈ tokens) ∧ n = freq k tokens.
Proof.
  unfold Counter.
  destruct (Counter_fold tokens [] []) as [_ H].
  - constructor.
  - intros k' n'. split; [by intros ?%elem_of_nil|by intros [?%elem_of_nil _]].
  - apply H.
Qed.

Lemma Counter_keys (tokens : list string) : map fst (Counter tokens) = first_seen tokens.
Proof.
  unfold Counter, first_seen.
  assert (H : ∀ c, map fst (foldl (λ c k, counter_incr k c) c tokens)
                   = foldl (λ acc x, if decide (x ∈ acc) then acc else acc ++ [x])
                       (map fst c) tokens).
  { induction tokens as [|x tokens IH]; intros c; simpl; [done|].
    by rewrite IH, counter_incr_keys. }
  apply (H []).
Qed.

(** ** The order of [most_common] *)

Lemma insert_desc_sorted (it : string * Z) (l : list (string * Z)) :
  StronglySorted (λ a b, (b.2 ≤ a.2)%Z) l →
  StronglySorted (λ a b, (b.2 ≤ a.2)%Z) (insert_desc it l).
Proof.
  induction 1 as [|y l Hl IH Hy]; simpl; [repeat constructor|].
  case_decide as Hlt.
  - constructor; [by constructor|]. constructor; [lia|].
    eapply Forall_impl; [exact Hy|]. simpl. intros z Hz. lia.
  - constructor; [done|]. rewrite insert_desc_perm. constructor; [lia|done].
Qed.

Lemma sort_desc_sorted (c : list (string * Z)) :
  StronglySorted (λ a b, (b.2 ≤ a.2)%Z) (sort_desc c).
Proof.
  unfold sort_desc.
  assert (H : ∀ acc, StronglySorted (λ a b, (b.2 ≤ a.2)%Z) acc →
              StronglySorted (λ a b, (b.2 ≤ a.2)%Z)
                (foldl (λ acc it, insert_desc it acc) acc c)).
  { induction c as [|it c IH]; intros acc Hacc; simpl; [done|].
    by apply IH, insert_desc_sorted. }
  apply H. constructor.
Qed.

Lemma filter_none {A} (P : A → Prop) `{!∀ x, Decision (P x)} (l : list A) :
  Forall (λ x, ¬ P x) l → filter P l = [].
Proof.
  induction 1 as [|x l Hx Hl IH]; [done|]. by rewrite filter_cons_False.
Qed.

Lemma insert_desc_filter (n : Z) (it : string * Z) (l : list (string * Z)) :
  StronglySorted (λ a b, (b.2 ≤ a.2)%Z) l →
  filter (λ e, e.2 = n) (insert_desc it l)
  = filter (λ e, e.2 = n) l ++ filter (λ e, e.2 = n) [it].
Proof.
  induction 1 as [|y l Hl IH Hy]; simpl; [done|].
  case_decide as Hlt.
  - rewrite (filter_cons _ it), (filter_cons _ it), filter_nil.
    destruct (decide (it.2 = n)) as [Hn|Hn]; [|by rewrite app_nil_r].
    rewrite (filter_none (λ e : string * Z, e.2 = n) (y :: l)); [done|].
    constructor; [lia|]. eapply Forall_impl; [exact Hy|]. simpl. intros z Hz. lia.
  - rewrite (filter_cons _ y), (filter_cons _ y), IH.
    by destruct (decide (y.2 = n)).
Qed.

(** The sort is stable: the entries of a given count keep their order. *)
Lemma sort_desc_stable (n : Z) (c : list (string * Z)) :
  filter (λ e, e.2 = n) (sort_desc c) = filter (λ e, e.2 = n) c.
Proof.
  unfold sort_desc.
  assert (H : ∀ acc, StronglySorted (λ a b, (b.2 ≤ a.2)%Z) acc →
              filter (λ e, e.2 = n) (foldl (λ acc it, insert_desc it acc) acc c)
              = filter (λ e, e.2 = n) acc ++ filter (λ e, e.2 = n) c).
  { induction c as [|it c IH]; intros acc Hacc; simpl; [by rewrite app_nil_r|].
    rewrite IH by (by apply insert_desc_sorted).
    rewrite insert_desc_filter by done. rewrite <- app_assoc. f_equal.
    rewrite (filter_cons _ it c), filter_cons, filter_nil.
    by destruct (decide (it.2 = n)). }
  rewrite H by constructor. done.
Qed.

Lemma StronglySorted_sublist {A} (R : relation A) (l1 l2 : list A) :
  l1 `sublist_of` l2 → StronglySorted R l2 → StronglySorted R l1.
Proof.
  induction 1 as [|x l1 l2 Hsub IH|x l1 l2 Hsub IH]; intros Hs.
  - constructor.
  - apply StronglySorted_cons in Hs as [Hx Hs]. constructor; [by apply IH|].
    apply Forall_forall. intros y Hy. rewrite Forall_forall in Hx. apply Hx.
    by eapply elem_of_sublist.
  - apply StronglySorted_cons in Hs as [_ Hs]. by apply IH.
Qed.

Lemma map_fst_filter (P : string * Z → Prop) (Q : string → Prop)
    `{!∀ e, Decision (P e), !∀ k, Decision (Q k)} (l : list (string * Z)) :
  (∀ e, e ∈ l → P e ↔ Q e.1) →
  map fst (filter P l) = filter Q (map fst l).
Proof.
  induction l as [|e l IH]; intros HPQ; [done|].
  simpl. rewrite !filter_cons.
  assert (He : P e ↔ Q e.1) by (apply HPQ; left).
  rewrite <- IH by (intros e' He'; apply HPQ; by right).
  destruct (decide (P e)), (decide (Q e.1)); simpl; tauto || done.
Qed.

Lemma StronglySorted_map_elem {A B} (R1 : relation A) (R2 : relation B) (f : A → B)
    (l : list A) :
  (∀ x y, x ∈ l → y ∈ l → R1 x y → R2 (f x) (f y)) →
  StronglySorted R1 l → StronglySorted R2 (map f l).
Proof.
  intros HR. induction 1 as [|x l Hl IH Hx]; simpl; [constructor|].
  constructor.
  - apply IH. intros a b Ha Hb. apply HR; by right.
  - apply Forall_forall. intros y Hy.
    apply list_elem_of_In, in_map_iff in Hy as (a & <- & Ha%list_elem_of_In).
    rewrite Forall_forall in Hx. apply HR; [left|by right|by apply Hx].
Qed.

(** ** Vocabularies built from token counts *)

Lemma most_common_sublist (mv : option Z) (c : list (string * Z)) :
  most_common mv c `sublist_of` sort_desc c.
Proof. destruct mv; simpl; [apply sublist_take|done]. Qed.

Lemma from_tokens_entries_NoDup (tokens : list string) (mv : option Z) (mf : Z) :
  NoDup (map fst (filter (λ it, (mf ≤ it.2)%Z) (most_common mv (Counter tokens)))).
Proof.
  eapply (sublist_NoDup _ (map fst (sort_desc (Counter tokens)))).
  - change (NoDup (fst <$> sort_desc (Counter tokens))).
    rewrite sort_desc_perm. apply Counter_keys_NoDup.
  - change (fst <$> filter (λ it : string * Z, (mf ≤ it.2)%Z)
                      (most_common mv (Counter tokens))
            `sublist_of` fst <$> sort_desc (Counter tokens)).
    apply fmap_sublist. etrans; [apply sublist_filter|apply most_common_sublist].
Qed.

Lemma from_tokens_idx2tok (tokens : list string) (mv : option Z) (mf : Z) :
  idx2tok (from_tokens tokens mv mf)
  = SPECIAL_TOKENS
    ++ filter (λ tok, ¬ reserved tok)
         (map fst (filter (λ it, (mf ≤ it.2)%Z) (most_common mv (Counter tokens)))).
Proof.
  unfold from_tokens. rewrite Vocabulary_init_idx2tok.
  by rewrite strip_reserved_NoDup by apply from_tokens_entries_NoDup.
Qed.

Lemma most_common_elem (tokens : list string) (mv : option Z) (e : string * Z) :
  e ∈ most_common mv (Counter tokens) → (e.1 ∈ tokens) ∧ e.2 = freq e.1 tokens.
Proof.
  intros He.
  pose proof (elem_of_sublist _ _ _ He (most_common_sublist mv (Counter tokens))) as Hs.
  rewrite sort_desc_perm in Hs. destruct e as [k n]. by apply Counter_elem in Hs.
Qed.

(** X8.  What [from_tokens] builds: the reserved tokens, then tokens of the input
    that are not reserved and occur at least [min_freq] times, none of them
    twice, at most [max_vocab] of them; with no [max_vocab], every such token
    of the input. *)
Theorem from_tokens_vocabulary (tokens : list string) (max_vocab : option Z) (min_freq : Z) :
  take 4 (idx2tok (from_tokens tokens max_vocab min_freq)) = SPECIAL_TOKENS
  ∧ NoDup (idx2tok (from_tokens tokens max_vocab min_freq))
  ∧ (∀ tok, tok ∈ drop 4 (idx2tok (from_tokens tokens max_vocab min_freq)) →
            ¬ reserved tok ∧ (tok ∈ tokens) ∧ (min_freq ≤ freq tok tokens)%Z)
  ∧ (∀ n, max_vocab = Some n →
          size (from_tokens tokens max_vocab min_freq) ≤ 4 + Z.to_nat n)
  ∧ (max_vocab = None →
     ∀ tok, ¬ reserved tok → tok ∈ tokens → (min_freq ≤ freq tok tokens)%Z →
            tok ∈ drop 4 (idx2tok (from_tokens tokens max_vocab min_freq))).
Proof.
  unfold size. rewrite from_tokens_idx2tok.
  change 4 with (length SPECIAL_TOKENS). rewrite drop_app_length, take_app_length.
  split_and!.
  - done.
  - rewrite <- from_tokens_idx2tok. apply from_tokens_NoDup.
  - intros tok Htok. apply list_elem_of_filter in Htok as [Hres Htok].
    apply list_elem_of_In, in_map_iff in Htok as (e & <- & He%list_elem_of_In).
    apply list_elem_of_filter in He as [Hmin He].
    apply most_common_elem in He as [Hin Hfreq]. rewrite <- Hfreq. done.
  - intros n ->. rewrite length_app. simpl.
    pose proof (length_filter (λ tok, ¬ reserved tok)
      (map fst (filter (λ it : string * Z, (min_freq ≤ it.2)%Z)
                  (take (Z.to_nat n) (sort_desc (Counter tokens)))))) as H1.
    rewrite length_map in H1.
    pose proof (length_filter (λ it : string * Z, (min_freq ≤ it.2)%Z)
                  (take (Z.to_nat n) (sort_desc (Counter tokens)))) as H2.
    rewrite length_take in H2. lia.
  - intros -> tok Hres Hin Hmin. apply list_elem_of_filter. split; [done|].
    apply list_elem_of_In, in_map_iff. exists (tok, freq tok tokens). split; [done|].
    apply list_elem_of_In, list_elem_of_filter. split; [done|].
    simpl. rewrite sort_desc_perm. by apply Counter_elem.
Qed.

(** X9.  The order of the vocabulary [from_tokens] builds: after the reserved
    tokens, the tokens come by descending number of occurrences, and, with no
    [max_vocab], tokens that occur equally often come in the order of their
    first occurrence in the input. *)
Theorem from_tokens_order (tokens : list string) (max_vocab : option Z) (min_freq : Z) :
  StronglySorted (λ a b, (freq b tokens ≤ freq a tokens)%Z)
    (drop 4 (idx2tok (from_tokens tokens max_vocab min_freq)))
  ∧ (max_vocab = None →
     ∀ n, (min_freq ≤ n)%Z →
          filter (λ tok, freq tok tokens = n)
            (drop 4 (idx2tok (from_tokens tokens max_vocab min_freq)))
          = filter (λ tok, ¬ reserved tok ∧ freq tok tokens = n) (first_seen tokens)).
Proof.
  rewrite from_tokens_idx2tok.
  change 4 with (length SPECIAL_TOKENS). rewrite drop_app_length. split.
  - eapply StronglySorted_sublist; [apply sublist_filter|].
    eapply (StronglySorted_map_elem (λ a b : string * Z, (b.2 ≤ a.2)%Z)).
    + intros x y Hx Hy Hxy.
      apply list_elem_of_filter in Hx as [_ [_ Hx]%most_common_elem].
      apply list_elem_of_filter in Hy as [_ [_ Hy]%most_common_elem].
      by rewrite <- Hx, <- Hy.
    + eapply StronglySorted_sublist; [|apply (sort_desc_sorted (Counter tokens))].
      etrans; [apply sublist_filter|apply most_common_sublist].
  - intros -> n Hn. simpl. rewrite <- Counter_keys.
    rewrite list_filter_filter.
    rewrite <- (map_fst_filter (λ e, e.2 = n ∧ ¬ reserved e.1)
                  (λ tok, freq tok tokens = n ∧ ¬ reserved tok)).
    2: { intros e [_ He]%list_elem_of_filter.
         rewrite sort_desc_perm in He. destruct e as [k m].
         apply Counter_elem in He as [_ ->]. done. }
    rewrite <- (map_fst_filter (λ e, ¬ reserved e.1 ∧ e.2 = n)
                  (λ tok, ¬ reserved tok ∧ freq tok tokens = n)).
    2: { intros [k m] He. apply Counter_elem in He as [_ ->]. done. }
    f_equal. rewrite list_filter_filter.
    rewrite (list_filter_iff _ (λ e : string * Z, ¬ reserved e.1 ∧ e.2 = n)).
    2: { intros e. split; [tauto|]. intros [? ->]. tauto. }
    rewrite <- !list_filter_filter. by rewrite sort_desc_stable.
Qed.

(** ** Rows of the count matrix *)

Lemma counter_incr_positive (k : Z) (c : list (Z * Z)) :
  Forall (λ e, (0 < e.2)%Z) c → Forall (λ e, (0 < e.2)%Z) (counter_incr k c).
Proof.
  induction 1 as [|it c Hit Hc IH]; simpl; [by repeat constructor|].
  case_decide; constructor; simpl; try done; lia.
Qed.

Lemma counter_incr_total (k : Z) (c : list (Z * Z)) :
  sumZ (map snd (counter_incr k c)) = (sumZ (map snd c) + 1)%Z.
Proof.
  induction c as [|it c IH]; simpl; [done|].
  case_decide; simpl; [lia|]. rewrite IH. lia.
Qed.

Lemma feature_counter_positive (v : Vocabulary) (seq : list string) :
  Forall (λ e, (0 < e.2)%Z) (feature_counter v seq).
Proof.
  unfold feature_counter.
  assert (H : ∀ c, Forall (λ e, (0 < e.2)%Z) c →
                   Forall (λ e, (0 < e.2)%Z) (foldl (count_token v) c seq)).
  { induction seq as [|tok seq IH]; intros c Hc; simpl; [done|].
    apply IH. unfold count_token. destruct (tok2idx v !! tok); [|done].
    by apply counter_incr_positive. }
  apply H. constructor.
Qed.

Lemma feature_counter_total (v : Vocabulary) (seq : list string) :
  sumZ (map snd (feature_counter v seq))
  = Z.of_nat (length (filter (λ tok, is_Some (tok2idx v !! tok)) seq)).
Proof.
  unfold feature_counter.
  assert (H : ∀ c, sumZ (map snd (foldl (count_token v) c seq))
                   = (sumZ (map snd c)
                      + Z.of_nat (length (filter (λ tok, is_Some (tok2idx v !! tok)) seq)))%Z).
  { induction seq as [|tok seq IH]; intros c; simpl; [lia|].
    rewrite IH, filter_cons. unfold count_token.
    destruct (tok2idx v !! tok) as [idx|] eqn:Hidx.
    - rewrite counter_incr_total, decide_True by (by eexists). simpl. lia.
    - rewrite decide_False by (by intros [? ?]). done. }
  rewrite H. simpl. lia.
Qed.

Lemma entries_NoDup (row : list (Z * Z)) :
  (∀ j, entries_at j row ≤ 1) → NoDup (map fst row).
Proof.
  induction row as [|e row IH]; intros Hle; simpl; [constructor|].
  constructor.
  - intros Hin. apply list_elem_of_fmap in Hin as (e' & He' & Hin).
    specialize (Hle e.1). unfold entries_at in Hle. rewrite filter_cons in Hle.
    rewrite decide_True in Hle by done. simpl in Hle.
    assert (Hin' : e' ∈ filter (λ e0 : Z * Z, e0.1 = e.1) row)
      by (by apply list_elem_of_filter).
    destruct (filter _ row); [by inversion Hin'|simpl in Hle; lia].
  - apply IH. intros j. specialize (Hle j). unfold entries_at in *.
    rewrite filter_cons in Hle. case_decide; simpl in Hle; lia.
Qed.

Lemma insert_entry_sorted (e : Z * Z) (row : list (Z * Z)) :
  StronglySorted (λ a b, (a.1 ≤ b.1)%Z) row →
  StronglySorted (λ a b, (a.1 ≤ b.1)%Z) (insert_entry e row).
Proof.
  induction 1 as [|e' row Hrow IH Hall]; simpl; [by repeat constructor|].
  case_decide as Hle.
  - constructor; [by constructor|]. constructor; [done|].
    eapply Forall_impl; [exact Hall|]. simpl. intros. lia.
  - constructor; [done|]. rewrite insert_entry_perm. constructor; [lia|done].
Qed.

Lemma sort_row_sorted (row : list (Z * Z)) :
  StronglySorted (λ a b, (a.1 ≤ b.1)%Z) (sort_row row).
Proof.
  unfold sort_row. induction row as [|e row IH]; simpl; [constructor|].
  by apply insert_entry_sorted.
Qed.

Lemma sorted_NoDup_strict (row : list (Z * Z)) :
  StronglySorted (λ a b, (a.1 ≤ b.1)%Z) row → NoDup (map fst row) →
  StronglySorted Z.lt (map fst row).
Proof.
  induction 1 as [|e row Hrow IH Hall]; simpl; [constructor|].
  intros [Hnotin Hnd]%NoDup_cons. constructor; [by apply IH|].
  rewrite Forall_forall. intros j Hj.
  apply list_elem_of_fmap in Hj as (e' & -> & He').
  rewrite Forall_forall in Hall. specialize (Hall e' He').
  assert (e.1 ≠ e'.1).
  { intros Heq. apply Hnotin. rewrite Heq. apply list_elem_of_fmap. by exists e'. }
  lia.
Qed.

(** X10.  The matrix [_count] returns for a vocabulary of at least four
    entries: one row for each document and one column for each entry after
    the first four; in every row the columns are strictly increasing (no
    column twice), every stored value is positive, and the values add up to
    the number of tokens of the document that are in [tok2idx]. *)
Theorem _count_canonical (self : CountVectorizer) (v : Vocabulary)
    (seqs : list (list string)) :
  vocab self = Some v →
  4 ≤ size v →
  ∃ X, _count self seqs = Ok X
       ∧ shape X = (length seqs, size v - 4)
       ∧ ∀ (i : nat) (seq : list string),
           seqs !! i = Some seq →
           StronglySorted Z.lt (map fst (csr_row X i))
           ∧ Forall (λ e, (0 < e.2)%Z) (csr_row X i)
           ∧ sumZ (map snd (csr_row X i))
             = Z.of_nat (length (filter (λ tok, is_Some (tok2idx v !! tok)) seq)).
Proof.
  intros Hv Hsize. rewrite (_count_rows self v seqs Hv Hsize).
  eexists. split_and!; [reflexivity|..].
  - simpl. by rewrite !length_map.
  - intros i seq Hi.
    rewrite (csr_row_of_rows _ _ i (sort_row (feature_counter v seq))).
    2: { change (map ?f ?l) with (f <$> l). by rewrite !list_lookup_fmap, Hi. }
    split_and!.
    + apply sorted_NoDup_strict; [apply sort_row_sorted|].
      apply entries_NoDup. intros j.
      rewrite (entries_at_perm _ _ _ (sort_row_perm _)), feature_counter_entries.
      case_decide; lia.
    + rewrite sort_row_perm. apply feature_counter_positive.
    + rewrite <- feature_counter_total. apply sumZ_perm.
      change (map snd ?l) with (snd <$> l). by rewrite sort_row_perm.
Qed.

Lemma _count_canonical_witness :
  ∃ X, _count vectorizer_d corpus_tokens = Ok X ∧ shape X = (3, 1).
Proof.
  destruct (_count_canonical vectorizer_d (Vocabulary_init ["d"]) corpus_tokens eq_refl)
    as (X & HX & Hshape & _).
  - vm_compute. lia.
  - exists X. split; [exact HX|exact Hshape].
Defined.

(** ** Fitting without pruning *)

Lemma _count_shape (self : CountVectorizer) (seqs : list (list string)) (X : csr_matrix) :
  _count self seqs = Ok X → (shape X).1 = length seqs.
Proof.
  unfold _count. destruct (vocab self) as [v|]; [|done].
  rewrite count_loop_layout. simpl. unfold csr_matrix_new. simpl.
  case_decide; [done|]. simpl. intros [= <-]. simpl.
  unfold csr_rows. simpl. by rewrite !length_map, length_seq.
Qed.

(** X11.  With a vocabulary supplied, [fit_transform] is [transform]: nothing is
    fitted or pruned, [max_doc_freq], [min_freq] and [max_features] are
    ignored, and the vectorizer is left as it was. *)
Theorem fit_transform_fixed_vocab (self : CountVectorizer) (V : Vocabulary)
    (raw_documents : list string) :
  vocab self = Some V →
  fit_transform self raw_documents = transform self raw_documents
  ∧ (fit_transform self raw_documents).2 = self.
Proof.
  intros HV. assert (Heq : fit_transform self raw_documents = transform self raw_documents).
  { unfold fit_transform, transform. rewrite HV.
    rewrite bool_decide_eq_true_2 by (by eexists).
    destruct (batch_tokenize _ _); [|done]. by destruct (_count _ _). }
  split; [done|]. rewrite Heq. apply transform_self.
Qed.

Lemma fit_transform_fixed_vocab_witness :
  fit_transform vectorizer_d docs = transform vectorizer_d docs.
Proof. apply (fit_transform_fixed_vocab vectorizer_d (Vocabulary_init ["d"]) docs eq_refl). Defined.

(** X12.  With no vocabulary supplied and a threshold that is not below the number
    of documents (so for an integer [max_doc_freq] of at least that number),
    [fit_transform] prunes nothing, whatever [max_features] is: it stores the
    vocabulary [from_sequences] builds from the corpus and returns what
    [transform] returns with that vocabulary. *)
Theorem fit_transform_unpruned (self : CountVectorizer) (raw_documents : list string)
    (seqs : list (list string)) :
  vocab self = None →
  batch_tokenize (tokenizer self) raw_documents = Ok seqs →
  num_ge (max_doc_count_of self (length seqs)) (Z.of_nat (length seqs)) = true →
  fit_transform self raw_documents
  = transform (set_vocab self (from_sequences seqs None (min_freq self))) raw_documents.
Proof.
  intros Hv Htok Hge. unfold fit_transform, transform. rewrite Htok, Hv.
  rewrite bool_decide_eq_false_2 by (by intros [? ?]).
  cbn [tokenizer set_vocab]. rewrite Htok.
  destruct (_count _ seqs) as [X|e] eqn:HX; [|done].
  apply _count_shape in HX. unfold _limit_features.
  assert (Hs : (shape (if binary self then data_fill X 1 else X)).1 = length seqs)
    by (by destruct (binary self)).
  cbn [binary max_doc_freq set_vocab]. rewrite Hs.
  unfold max_doc_count_of in Hge. by rewrite Hge.
Qed.

Lemma fit_transform_unpruned_witness :
  fit_transform vectorizer_cap_1 docs
  = transform (set_vocab vectorizer_cap_1 (from_sequences corpus_tokens None 1)) docs.
Proof.
  apply (fit_transform_unpruned vectorizer_cap_1 docs corpus_tokens).
  - reflexivity.
  - reflexivity.
  - vm_compute. reflexivity.
Defined.

(** ** Document frequencies *)

Lemma foldr_max_bound (x : list Z) (n : Z) :
  (0 ≤ n)%Z → Forall (λ i, (i < n)%Z) x → (foldr Z.max (-1) x < n)%Z.
Proof. intros Hn. induction 1; simpl; lia. Qed.

Lemma bincount_counts (x : list Z) (n : nat) :
  Forall (λ i, (0 ≤ i < Z.of_nat n)%Z) x →
  bincount x n
  = Ok (map (λ j, Z.of_nat (length (filter (λ i, i = Z.of_nat j) x))) (seq 0 n)).
Proof.
  intros Hx. unfold bincount. rewrite bool_decide_eq_false_2.
  2: { rewrite Exists_exists. intros (i & Hi & Hneg).
       rewrite Forall_forall in Hx. specialize (Hx i Hi). lia. }
  assert (foldr Z.max (-1) x < Z.of_nat n)%Z.
  { apply foldr_max_bound; [lia|]. eapply Forall_impl; [done|]. simpl. lia. }
  replace (n `max` _) with n by lia. done.
Qed.

Lemma length_filter_concat {A} (P : A → Prop) `{!∀ x, Decision (P x)} (ls : list (list A)) :
  length (filter P (concat ls)) = sum_list (map (λ l, length (filter P l)) ls).
Proof.
  induction ls as [|l ls IH]; simpl; [done|].
  by rewrite filter_app, length_app, IH.
Qed.

Lemma sum_list_indicator {A} (P : A → Prop) `{!∀ x, Decision (P x)} (f : A → nat)
    (l : list A) :
  (∀ x, x ∈ l → f x = if decide (P x) then 1 else 0) →
  sum_list (map f l) = length (filter P l).
Proof.
  induction l as [|x l IH]; intros Hf; simpl; [done|].
  rewrite filter_cons, IH, (Hf x) by (intros; try apply Hf; set_solver).
  by destruct (decide (P x)).
Qed.

Lemma elem_of_concat {A} (x : A) (ls : list (list A)) :
  x ∈ concat ls → ∃ l, x ∈ l ∧ l ∈ ls.
Proof.
  induction ls as [|l ls IH]; simpl; [by inversion 1|].
  rewrite elem_of_app. intros [Hx|Hx].
  - exists l. split; [done|by left].
  - destruct (IH Hx) as (l' & ? & ?). exists l'. split; [done|by right].
Qed.

Lemma entries_at_fst (j : Z) (row : list (Z * Z)) :
  length (filter (λ i, i = j) (map fst row)) = entries_at j row.
Proof.
  unfold entries_at. induction row as [|e row IH]; simpl; [done|].
  rewrite !filter_cons. simpl. case_decide; simpl; by rewrite IH.
Qed.

Lemma feature_counter_columns (v : Vocabulary) (seq : list string) (e : Z * Z) :
  e ∈ feature_counter v seq →
  ∃ tok, tok ∈ seq ∧ tok2idx v !! tok = Some (e.1 + 4)%Z.
Proof.
  intros He.
  assert (Hpos : 0 < entries_at e.1 (feature_counter v seq)).
  { unfold entries_at.
    assert (Hin : e ∈ filter (λ e', e'.1 = e.1) (feature_counter v seq))
      by (by apply list_elem_of_filter).
    destruct (filter _ _); [by inversion Hin|simpl; lia]. }
  rewrite feature_counter_entries in Hpos. case_decide as Hocc; [|lia].
  unfold occurrences in Hocc.
  destruct (filter _ seq) as [|tok l] eqn:Hf; [simpl in Hocc; lia|].
  assert (Hin : tok ∈ filter (λ tok, tok2idx v !! tok = Some (e.1 + 4)%Z) seq)
    by (rewrite Hf; by left).
  apply list_elem_of_filter in Hin as [? ?]. by exists tok.
Qed.

Lemma _doc_freq_rows (v : Vocabulary) (seqs : list (list string)) (ncols : nat) :
  Forall (Forall (λ tok, ∀ idx, tok2idx v !! tok = Some idx
                                → (4 ≤ idx < 4 + Z.of_nat ncols)%Z)) seqs →
  _doc_freq (csr_of_rows (map sort_row (map (feature_counter v) seqs)) ncols)
  = Ok (map (λ j, Z.of_nat (doc_count_id v (Z.of_nat j) seqs)) (seq 0 ncols)).
Proof.
  intros Hin. unfold _doc_freq. cbn [indices shape csr_of_rows snd].
  rewrite bincount_counts.
  - f_equal. apply map_ext. intros j. f_equal.
    rewrite length_filter_concat, !map_map. unfold doc_count_id.
    apply sum_list_indicator. intros seq _.
    rewrite entries_at_fst, (entries_at_perm _ _ _ (sort_row_perm _)).
    apply feature_counter_entries.
  - rewrite Forall_forall. intros i Hi.
    apply elem_of_concat in Hi as (cols & Hi & Hcols).
    rewrite !map_map in Hcols. apply list_elem_of_fmap in Hcols as (seq & -> & Hseq).
    apply list_elem_of_fmap in Hi as (e & -> & He).
    rewrite sort_row_perm in He.
    apply feature_counter_columns in He as (tok & Htok & Hidx).
    rewrite Forall_forall in Hin. specialize (Hin seq Hseq).
    rewrite Forall_forall in Hin. specialize (Hin tok Htok _ Hidx). lia.
Qed.

Lemma tok2idx_not_reserved (v : Vocabulary) (tok : string) (idx : Z) :
  consistent v → take 4 (idx2tok v) = SPECIAL_TOKENS → ¬ reserved tok →
  tok2idx v !! tok = Some idx → (4 ≤ idx < 4 + Z.of_nat (size v - 4))%Z.
Proof.
  intros Hc H4 Hres Hidx. rewrite Hc in Hidx.
  apply dict_of_enumerate_Some in Hidx as [Hrange Hlook]. unfold size.
  destruct (decide (idx < 4)%Z) as [Hlt|]; [|lia]. exfalso. apply Hres.
  unfold reserved. rewrite <- H4. apply list_elem_of_lookup. exists (Z.to_nat idx).
  rewrite lookup_take_lt by lia. done.
Qed.

(** X13.  The document frequencies [_doc_freq] reads off the count matrix of
    documents that hold no reserved token, for a vocabulary that begins with
    the reserved tokens: entry [j] is the number of documents in which a token
    with id [j + 4] occurs, one entry for each unreserved entry of the
    vocabulary. *)
Theorem _doc_freq_counts_documents (self : CountVectorizer) (v : Vocabulary)
    (seqs : list (list string)) :
  vocab self = Some v →
  consistent v →
  take 4 (idx2tok v) = SPECIAL_TOKENS →
  Forall (Forall (λ tok, ¬ reserved tok)) seqs →
  (X ← _count self seqs; _doc_freq X)
  = Ok (map (λ j, Z.of_nat (doc_count_id v (Z.of_nat j) seqs)) (seq 0 (size v - 4))).
Proof.
  intros Hv Hc H4 Hres.
  assert (Hsize : 4 ≤ size v).
  { unfold size. rewrite <- (take_drop 4 (idx2tok v)), H4, length_app. simpl. lia. }
  rewrite (_count_rows self v seqs Hv Hsize). simpl.
  apply _doc_freq_rows.
  eapply Forall_impl; [exact Hres|]. intros seq Hseq.
  eapply Forall_impl; [exact Hseq|]. intros tok Htok idx Hidx.
  by apply (tok2idx_not_reserved v tok idx).
Qed.

Lemma _doc_freq_counts_documents_witness :
  (X ← _count vectorizer_2_1_1_counting corpus_tokens; _doc_freq X) = Ok [3; 3; 1; 1; 1; 1]%Z.
Proof.
  rewrite (_doc_freq_counts_documents vectorizer_2_1_1_counting
             (from_sequences corpus_tokens None 1) corpus_tokens eq_refl).
  - reflexivity.
  - apply Vocabulary_init_consistent.
  - reflexivity.
  - apply (bool_decide_unpack _). vm_compute. exact I.
Defined.

(** ** Fitting with pruning *)

Lemma map_seq_lookup {A B} (h : nat → B) (h' : A → B) (l : list A) :
  (∀ j t, l !! j = Some t → h j = h' t) →
  map h (seq 0 (length l)) = map h' l.
Proof.
  induction l as [|x l IH] using rev_ind; intros Hh; [done|].
  rewrite length_app. simpl. rewrite Nat.add_1_r, seq_S, !map_app. simpl. f_equal.
  - apply IH. intros j t Hj. apply Hh. by apply lookup_app_l_Some.
  - f_equal. apply Hh. by rewrite lookup_app_r, Nat.sub_diag.
Qed.

Lemma masked_map {A} (b : A → bool) (l : list A) :
  masked (map b l) l = filter (λ t, b t = true) l.
Proof.
  unfold masked. induction l as [|x l IH]; simpl; [done|].
  rewrite !filter_cons. cbn [fst]. destruct (decide (b x = true)); simpl; by rewrite IH.
Qed.

Lemma omap_take_total {A B} (f : A → option B) (k : nat) (l : list A) :
  (∀ x, x ∈ l → is_Some (f x)) → omap f (take k l) = take k (omap f l).
Proof.
  revert k. induction l as [|x l IH]; intros k Hf; [by destruct k|].
  destruct k; [done|]. csimpl.
  destruct (Hf x) as [y Hy]; [by left|]. rewrite Hy. simpl. f_equal.
  apply IH. intros z Hz. apply Hf. by right.
Qed.

Lemma omap_lookup_total {A B} (f : A → option B) (l : list A) (k : nat) (y : B) :
  (∀ x, x ∈ l → is_Some (f x)) →
  omap f l !! k = Some y → ∃ x, l !! k = Some x ∧ f x = Some y.
Proof.
  revert k. induction l as [|x l IH]; intros k Hf; csimpl; [done|].
  destruct (Hf x) as [y' Hy']; [by left|]. rewrite Hy'.
  destruct k; simpl.
  - intros [= <-]. by exists x.
  - apply IH. intros z Hz. apply Hf. by right.
Qed.

(** The tokens with id [j + 4] are the occurrences of term [j]. *)
Lemma occurrences_term (v : Vocabulary) (j : nat) (term : string) (seq : list string) :
  consistent v → NoDup (idx2tok v) → idx2tok v !! (4 + j) = Some term →
  occurrences v (Z.of_nat j) seq = length (filter (λ tok, tok = term) seq).
Proof.
  intros Hc Hnd Hj. unfold occurrences. f_equal.
  apply filter_ext_elem. intros tok _. rewrite Hc. split.
  - intros Htok. apply dict_of_enumerate_Some in Htok as [_ Htok].
    replace (Z.to_nat (Z.of_nat j + 4)) with (4 + j) in Htok by lia. congruence.
  - intros ->. rewrite (dict_of_enumerate_NoDup _ (4 + j) term Hnd Hj). f_equal. lia.
Qed.

Lemma doc_count_term (v : Vocabulary) (j : nat) (term : string) (seqs : list (list string)) :
  consistent v → NoDup (idx2tok v) → idx2tok v !! (4 + j) = Some term →
  doc_count_id v (Z.of_nat j) seqs = doc_count term seqs.
Proof.
  intros Hc Hnd Hj. unfold doc_count_id, doc_count. f_equal.
  apply filter_ext_elem. intros seq _.
  rewrite (occurrences_term v j term seq Hc Hnd Hj). split.
  - intros Hpos. destruct (filter _ seq) as [|tok l] eqn:Hf; [simpl in Hpos; lia|].
    assert (Hin : tok ∈ filter (λ tok, tok = term) seq) by (rewrite Hf; by left).
    by apply list_elem_of_filter in Hin as [-> ?].
  - intros Hin.
    assert (Hin' : term ∈ filter (λ tok, tok = term) seq) by (by apply list_elem_of_filter).
    destruct (filter _ seq); [by inversion Hin'|simpl; lia].
Qed.

(** [X[:, kept]] at row [i], column [k] is [X] at row [i], column
    [kept[k]]. *)
Lemma select_entry_sum (kept : list nat) (k c : nat) (row : list (Z * Z)) :
  NoDup kept → kept !! k = Some c →
  sum_at (Z.of_nat k) (omap (select_entry kept) row) = sum_at (Z.of_nat c) row.
Proof.
  intros Hnd Hk. unfold sum_at. induction row as [|e row IH]; [done|].
  csimpl. rewrite filter_cons. unfold select_entry at 1.
  destruct (list_find (λ j, Z.of_nat j = e.1) kept) as [[k' c']|] eqn:Hfind; simpl.
  - apply list_find_Some in Hfind as (Hk' & Hc' & _).
    rewrite filter_cons. simpl.
    destruct (decide (Z.of_nat k' = Z.of_nat k)) as [Hkk|Hkk],
             (decide (e.1 = Z.of_nat c)) as [Hec|Hec]; simpl; rewrite ?IH; try done; exfalso.
    + apply Nat2Z.inj in Hkk. subst k'. rewrite Hk in Hk'. injection Hk' as <-. lia.
    + apply Hkk. f_equal. apply (NoDup_lookup kept k' k c'); [done..|].
      rewrite Hk. f_equal. lia.
  - rewrite decide_False; [done|]. intros Hec.
    eapply list_find_None in Hfind. rewrite Forall_forall in Hfind.
    apply (Hfind c); [|done]. by apply list_elem_of_lookup_2 in Hk.
Qed.

Lemma csr_get_select_columns (rows : list (list (Z * Z))) (ncols : nat) (kept : list nat)
    (i k c : nat) :
  NoDup kept → kept !! k = Some c → i < length rows →
  csr_get (select_columns (csr_of_rows rows ncols) kept) i (Z.of_nat k)
  = csr_get (csr_of_rows rows ncols) i (Z.of_nat c).
Proof.
  intros Hnd Hk Hi. destruct (lookup_lt_is_Some_2 rows i Hi) as [row Hrow].
  change (csr_get ?X i ?j) with (sum_at j (csr_row X i)).
  unfold select_columns. rewrite csr_rows_of_rows.
  rewrite (csr_row_of_rows _ _ i (omap (select_entry kept) row)).
  2: { change (map ?f ?l) with (f <$> l). by rewrite list_lookup_fmap, Hrow. }
  rewrite (csr_row_of_rows _ _ i row Hrow). by apply select_entry_sum.
Qed.

Lemma strip_reserved_id (l : list string) :
  Forall (λ tok, ¬ reserved tok) l → strip_reserved l = l.
Proof.
  intros Hl. unfold strip_reserved.
  assert (Hnot : ∀ tok, reserved tok → tok ∉ l).
  { intros tok Hr Hin. rewrite Forall_forall in Hl. by apply (Hl tok). }
  rewrite (list_remove_notin EOS), (list_remove_notin BOS), (list_remove_notin UNK),
    (list_remove_notin PAD); try done; apply Hnot; unfold reserved, SPECIAL_TOKENS; set_solver.
Qed.

Lemma omap_total_length {A B} (f : A → option B) (l : list A) :
  (∀ x, x ∈ l → is_Some (f x)) → length (omap f l) = length l.
Proof.
  induction l as [|x l IH]; intros Hf; csimpl; [done|].
  destruct (Hf x) as [y Hy]; [by left|]. rewrite Hy. simpl. f_equal.
  apply IH. intros z Hz. apply Hf. by right.
Qed.

Lemma data_fill_of_rows (rows : list (list (Z * Z))) (ncols : nat) (x : Z) :
  data_fill (csr_of_rows rows ncols) x
  = csr_of_rows (map (map (λ e, (e.1, x))) rows) ncols.
Proof.
  unfold data_fill, csr_of_rows. cbn [data indices indptr shape]. f_equal.
  - induction rows as [|r rows IH]; simpl; [done|].
    rewrite map_app, IH. f_equal. by rewrite !map_map.
  - induction rows as [|r rows IH]; simpl; [done|].
    rewrite <- IH. f_equal. by rewrite !map_map.
  - generalize 0. induction rows as [|r rows IH]; intros p; simpl; [done|].
    by rewrite length_map, <- IH.
  - by rewrite length_map.
Qed.

Lemma count_rows_fill (v : Vocabulary) (b : bool) (seqs : list (list string)) (ncols : nat) :
  (let X := csr_of_rows (map sort_row (map (feature_counter v) seqs)) ncols in
   if b then data_fill X 1 else X)
  = csr_of_rows (count_rows v b seqs) ncols.
Proof. unfold count_rows. destruct b; [apply data_fill_of_rows|done]. Qed.

Lemma count_rows_length (v : Vocabulary) (b : bool) (seqs : list (list string)) :
  length (count_rows v b seqs) = length seqs.
Proof. unfold count_rows. destruct b; by rewrite !length_map. Qed.

Lemma count_rows_indices (v : Vocabulary) (b : bool) (seqs : list (list string))
    (ncols : nat) :
  _doc_freq (csr_of_rows (count_rows v b seqs) ncols)
  = _doc_freq (csr_of_rows (map sort_row (map (feature_counter v) seqs)) ncols).
Proof.
  rewrite <- count_rows_fill. by destruct b.
Qed.

Lemma count_rows_get (v : Vocabulary) (b : bool) (seqs : list (list string)) (ncols : nat)
    (i : nat) (j : Z) (seq : list string) :
  seqs !! i = Some seq →
  csr_get (csr_of_rows (count_rows v b seqs) ncols) i j = reported b (occurrences v j seq).
Proof.
  intros Hi. rewrite <- count_rows_fill. cbn zeta.
  assert (Hrow : csr_row (csr_of_rows (map sort_row (map (feature_counter v) seqs)) ncols) i
                 = sort_row (feature_counter v seq)).
  { apply csr_row_of_rows. change (map ?f ?l) with (f <$> l).
    by rewrite !list_lookup_fmap, Hi. }
  unfold reported. destruct b.
  - change (csr_get ?X i j) with (sum_at j (csr_row X i)).
    rewrite csr_row_data_fill, Hrow, sum_at_ones.
    rewrite (entries_at_perm _ _ _ (sort_row_perm _)).
    rewrite feature_counter_entries. by case_decide.
  - change (csr_get ?X i j) with (sum_at j (csr_row X i)).
    rewrite Hrow. rewrite (sum_at_perm _ _ _ (sort_row_perm _)).
    apply feature_counter_sum.
Qed.

Lemma np_where_NoDup (mask : list bool) : NoDup (np_where mask).
Proof.
  eapply sublist_NoDup; [apply NoDup_seq|apply np_where_sublist].
Qed.

Lemma capped_sublist {A} (mf : option Z) (l : list A) : capped mf l `sublist_of` l.
Proof. destruct mf; simpl; [apply sublist_take|done]. Qed.

(** The terms at the kept columns are the kept terms. *)
Lemma kept_columns_terms (self : CountVectorizer) (v : Vocabulary) (mdc : number)
    (seqs : list (list string)) :
  consistent v → NoDup (idx2tok v) → 4 ≤ size v →
  let terms := drop 4 (idx2tok v) in
  let dfs := map (λ j, Z.of_nat (doc_count_id v (Z.of_nat j) seqs)) (seq 0 (size v - 4)) in
  let kept := capped (max_features self) (np_where (map (λ df, int_le_num df mdc) dfs)) in
  omap (λ j, idx2tok v !! (4 + j)) kept = kept_terms self mdc seqs terms
  ∧ (∀ j, j ∈ kept → is_Some (idx2tok v !! (4 + j))).
Proof.
  intros Hc Hnd Hsize terms dfs kept.
  assert (Hlen : length terms = size v - 4) by (unfold terms; by rewrite length_drop).
  assert (Hmask : map (λ df, int_le_num df mdc) dfs
                  = map (λ t, int_le_num (Z.of_nat (doc_count t seqs)) mdc) terms).
  { unfold dfs. rewrite map_map, <- Hlen. apply map_seq_lookup.
    intros j t Hj. unfold terms in Hj. rewrite lookup_drop in Hj.
    by rewrite (doc_count_term v j t seqs Hc Hnd Hj). }
  assert (Hbound : ∀ j, j ∈ np_where (map (λ df, int_le_num df mdc) dfs)
                        → is_Some (idx2tok v !! (4 + j))).
  { intros j Hj. apply np_where_bound in Hj. rewrite Hmask, length_map, Hlen in Hj.
    apply lookup_lt_is_Some_2. unfold size in *. lia. }
  split.
  - unfold kept_terms, kept. rewrite <- masked_map, <- Hmask.
    rewrite (masked_lookup _ terms) by (by rewrite Hmask, length_map).
    rewrite (omap_ext_elem (λ j, terms !! j) (λ j, idx2tok v !! (4 + j)))
      by (intros j _; apply lookup_drop).
    destruct (max_features self) as [mf|]; simpl; [|done].
    by apply omap_take_total.
  - intros j Hj. apply Hbound. eapply elem_of_sublist; [done|apply capped_sublist].
Qed.

Lemma from_sequences_terms (seqs : list (list string)) (mv : option Z) (mf : Z) :
  let V := from_sequences seqs mv mf in
  consistent V ∧ NoDup (idx2tok V) ∧ take 4 (idx2tok V) = SPECIAL_TOKENS ∧ 4 ≤ size V
  ∧ Forall (λ tok, ¬ reserved tok) (drop 4 (idx2tok V)).
Proof.
  intros V. unfold V, from_sequences.
  pose proof (from_tokens_NoDup (concat seqs) mv mf) as Hnd.
  unfold from_tokens in *. rewrite Vocabulary_init_idx2tok in *.
  split_and!; [apply Vocabulary_init_consistent|done|done| |].
  - unfold size. rewrite Vocabulary_init_idx2tok, length_app. simpl. lia.
  - change (drop 4 (SPECIAL_TOKENS ++ ?l)) with l.
    apply NoDup_app in Hnd as (_ & Hdisj & _).
    rewrite Forall_forall. intros tok Htok Hres. by apply (Hdisj tok).
Qed.

(** X14.  [fit_transform] with no vocabulary supplied, on documents that hold no
    reserved token, when the threshold is below the number of documents (the
    first test of [_limit_features] fails).  The terms kept are the terms of
    the vocabulary [from_sequences] builds whose document frequency is at
    most the threshold, in their order, only the first [max_features] of
    them when that is set.  The fitted vocabulary is the reserved tokens and
    the kept terms; when no term is kept the call raises [ValueError];
    otherwise the matrix has one row for each document and one column for
    each kept term, and the value at row [i], column [k] is the number of
    occurrences of the [k]-th kept term in document [i] (clamped to 1 in
    binary mode). *)
Theorem fit_transform_pruned (self : CountVectorizer) (raw_documents : list string)
    (seqs : list (list string)) :
  vocab self = None →
  batch_tokenize (tokenizer self) raw_documents = Ok seqs →
  Forall (Forall (λ tok, ¬ reserved tok)) seqs →
  (∀ mf, max_features self = Some mf → (0 < mf)%Z) →
  num_ge (max_doc_count_of self (length seqs)) (Z.of_nat (length seqs)) = false →
  let terms := drop 4 (idx2tok (from_sequences seqs None (min_freq self))) in
  let kept := kept_terms self (max_doc_count_of self (length seqs)) seqs terms in
  (fit_transform self raw_documents).2 = set_vocab self (Vocabulary_init kept)
  ∧ (kept = [] → (fit_transform self raw_documents).1 = Raise ValueError)
  ∧ (kept ≠ [] →
     ∃ X, (fit_transform self raw_documents).1 = Ok (seqs, X)
          ∧ shape X = (length seqs, length kept)
          ∧ ∀ (i k : nat) (seq : list string) (term : string),
              seqs !! i = Some seq → kept !! k = Some term →
              csr_get X i (Z.of_nat k)
              = reported (binary self) (length (filter (λ tok, tok = term) seq))).
Proof.
  intros Hv Htok Hres Hmf Hfirst terms kept.
  set (V := from_sequences seqs None (min_freq self)) in *.
  destruct (from_sequences_terms seqs None (min_freq self))
    as (Hc & Hnd & H4 & Hsize & Hterms).
  fold V in Hc, Hnd, H4, Hsize, Hterms. fold terms in Hterms.
  set (mdc := max_doc_count_of self (length seqs)) in *.
  set (dfs := map (λ j, Z.of_nat (doc_count_id V (Z.of_nat j) seqs)) (seq 0 (size V - 4))).
  set (cols := capped (max_features self) (np_where (map (λ df, int_le_num df mdc) dfs))).
  destruct (kept_columns_terms self V mdc seqs Hc Hnd Hsize) as [Hkept Hsome].
  fold terms dfs cols kept in Hkept, Hsome.
  assert (Hlen : length kept = length cols).
  { rewrite <- Hkept. by apply omap_total_length. }
  assert (Hcols : NoDup cols).
  { eapply sublist_NoDup; [apply np_where_NoDup|apply capped_sublist]. }
  assert (Hkept_nr : Forall (λ tok, ¬ reserved tok) kept).
  { rewrite Forall_forall in Hterms. rewrite Forall_forall. intros tok Hin. apply Hterms.
    unfold kept, kept_terms in Hin.
    eapply elem_of_sublist in Hin; [|apply capped_sublist].
    by apply list_elem_of_filter in Hin as [_ ?]. }
  assert (Hrun : fit_transform self raw_documents
                 = (if decide (cols = []) then Raise ValueError
                    else Ok (seqs, select_columns
                                     (csr_of_rows (count_rows V (binary self) seqs)
                                        (size V - 4)) cols),
                    set_vocab self (Vocabulary_init kept))).
  { unfold fit_transform. rewrite Htok, Hv.
    rewrite bool_decide_eq_false_2 by (by intros [? ?]). fold V.
    rewrite (_count_rows (set_vocab self V) V seqs eq_refl Hsize).
    cbn [binary max_doc_freq set_vocab].
    pose proof (count_rows_fill V (binary self) seqs (size V - 4)) as Hfill.
    cbn zeta in Hfill. rewrite Hfill.
    cbn [shape csr_of_rows fst]. rewrite count_rows_length.
    change (if is_int (max_doc_freq self) then max_doc_freq self
            else num_mul (max_doc_freq self) (Z.of_nat (length seqs))) with mdc.
    rewrite (_limit_features_pruned (set_vocab self V) _ mdc V dfs).
    - cbn [max_features set_vocab].
      change (match max_features self with
              | Some mf => take (Z.to_nat mf) (np_where (map (λ df, int_le_num df mdc) dfs))
              | None => np_where (map (λ df, int_le_num df mdc) dfs)
              end) with cols.
      rewrite H4, Hkept.
      assert (HVk : build_tok2idx {| idx2tok := SPECIAL_TOKENS ++ kept; tok2idx := tok2idx V |}
                    = Vocabulary_init kept).
      { unfold Vocabulary_init, build_tok2idx. cbn [idx2tok].
        by rewrite _add_special_tokens_eq, strip_reserved_id. }
      rewrite HVk. by destruct (decide (cols = [])).
    - cbn [shape csr_of_rows fst]. by rewrite count_rows_length.
    - rewrite count_rows_indices. apply _doc_freq_rows.
      eapply Forall_impl; [exact Hres|]. intros seq Hseq.
      eapply Forall_impl; [exact Hseq|]. intros tok Htk idx Hidx.
      by apply (tok2idx_not_reserved V tok idx).
    - unfold dfs. by rewrite length_map, length_seq.
    - done.
    - unfold dfs. rewrite length_map, length_seq. unfold size in *.
      change (length SPECIAL_TOKENS) with 4. lia.
    - done. }
  rewrite Hrun. cbn [fst snd]. split_and!; [done| |].
  - intros Hnil. rewrite decide_True; [done|].
    apply length_zero_iff_nil. rewrite <- Hlen, Hnil. done.
  - intros Hne. rewrite decide_False.
    2: { intros Hnil. apply Hne. apply length_zero_iff_nil. by rewrite Hlen, Hnil. }
    eexists. split_and!; [reflexivity|..].
    + unfold select_columns. cbn [shape csr_of_rows].
      by rewrite csr_rows_of_rows, length_map, count_rows_length, Hlen.
    + intros i k seq term Hi Hk. rewrite <- Hkept in Hk.
      apply omap_lookup_total in Hk as (c & Hc' & Hterm); [|done].
      rewrite (csr_get_select_columns _ _ cols i k c Hcols Hc').
      2: { rewrite count_rows_length. by eapply lookup_lt_Some. }
      rewrite (count_rows_get V (binary self) seqs _ i _ seq Hi).
      by rewrite (occurrences_term V c term seq Hc Hnd Hterm).
Qed.

Lemma fit_transform_pruned_witness :
  vocab (fit_transform vectorizer_2_1_1 docs).2 = Some (Vocabulary_init ["d"]).
Proof.
  destruct (fit_transform_pruned vectorizer_2_1_1 docs corpus_tokens) as (Hself & _ & _).
  - reflexivity.
  - reflexivity.
  - apply (bool_decide_unpack _). vm_compute. exact I.
  - intros mf [= <-]. lia.
  - reflexivity.
  - rewrite Hself. reflexivity.
Defined.

(** ** Capping the kept terms *)

Lemma csr_get_select_any (X : csr_matrix) (kept : list nat) (i k c : nat) :
  NoDup kept → kept !! k = Some c → i < (shape X).1 →
  csr_get (select_columns X kept) i (Z.of_nat k) = csr_get X i (Z.of_nat c).
Proof.
  intros Hnd Hk Hi.
  change (csr_get ?X i ?j) with (sum_at j (csr_row X i)).
  unfold select_columns.
  rewrite (csr_row_of_rows _ _ i (omap (select_entry kept) (csr_row X i))).
  - by apply select_entry_sum.
  - unfold csr_rows. change (map ?f ?l) with (f <$> l).
    by rewrite !list_lookup_fmap, lookup_seq_lt.
Qed.

(** X15.  Past the first test, with [max_features] set and more surviving terms
    than that, [_limit_features] keeps the first [max_features] surviving
    terms and no other: the matrix it returns has the rows of [X] and
    [max_features] columns, its column [k] is the column of [X] of the
    [k]-th such term, and the vocabulary is left with its first four entries
    and those terms. *)
Theorem _limit_features_caps (self : CountVectorizer) (X : csr_matrix)
    (max_doc_count : number) (v : Vocabulary) (dfs : list Z) (mf : Z) :
  num_ge max_doc_count (Z.of_nat (shape X).1) = false →
  _doc_freq X = Ok dfs →
  length dfs = (shape X).2 →
  vocab self = Some v →
  length (idx2tok v) = length SPECIAL_TOKENS + length dfs →
  max_features self = Some mf →
  (0 < mf < Z.of_nat (length (np_where (map (λ df, int_le_num df max_doc_count) dfs))))%Z →
  ∃ X',
    (_limit_features self X max_doc_count).1 = Ok X'
    ∧ shape X' = ((shape X).1, Z.to_nat mf)
    ∧ (∀ i k c : nat,
         i < (shape X).1 →
         take (Z.to_nat mf) (np_where (map (λ df, int_le_num df max_doc_count) dfs)) !! k
         = Some c →
         csr_get X' i (Z.of_nat k) = csr_get X i (Z.of_nat c))
    ∧ idx2tok <$> vocab (_limit_features self X max_doc_count).2
      = Some (take 4 (idx2tok v)
              ++ omap (λ j, idx2tok v !! (4 + j))
                   (take (Z.to_nat mf)
                      (np_where (map (λ df, int_le_num df max_doc_count) dfs)))).
Proof.
  intros Hfirst Hdf Hcols Hv Hsize Hmf Hcap.
  rewrite (_limit_features_pruned self X max_doc_count v dfs Hfirst Hdf Hcols Hv Hsize)
    by (intros m Hm; rewrite Hmf in Hm; injection Hm as <-; lia).
  rewrite Hmf. cbn [fst snd].
  set (kept := take (Z.to_nat mf) (np_where (map (λ df, int_le_num df max_doc_count) dfs))).
  assert (Hlen : length kept = Z.to_nat mf) by (unfold kept; rewrite length_take; lia).
  rewrite decide_False.
  2: { intros Hnil. rewrite Hnil in Hlen. simpl in Hlen. lia. }
  eexists. split_and!; [reflexivity| | |done].
  - unfold select_columns, csr_rows. simpl. by rewrite !length_map, length_seq, Hlen.
  - intros i k c Hi Hk. apply csr_get_select_any; [|done..].
    eapply sublist_NoDup; [apply np_where_NoDup|apply sublist_take].
Qed.

Lemma _limit_features_caps_witness :
  ∃ X',
    (_limit_features vectorizer_2_1_1_counting (corpus_counts 1) (PyInt 2)).1 = Ok X'
    ∧ shape X' = (3, 1)
    ∧ csr_get X' 1 0 = 2%Z
    ∧ idx2tok <$> vocab (_limit_features vectorizer_2_1_1_counting (corpus_counts 1)
                           (PyInt 2)).2
      = Some (SPECIAL_TOKENS ++ ["d"]).
Proof.
  destruct (_limit_features_caps vectorizer_2_1_1_counting (corpus_counts 1) (PyInt 2)
              (from_sequences corpus_tokens None 1) [3; 3; 1; 1; 1; 1]%Z 1%Z)
    as (X' & HX' & Hshape & Hget & Hvoc).
  - reflexivity.
  - by vm_compute.
  - reflexivity.
  - reflexivity.
  - reflexivity.
  - reflexivity.
  - vm_compute. split; reflexivity.
  - exists X'. split_and!; [exact HX'|exact Hshape| |exact Hvoc].
    refine (eq_trans (Hget 1 0 2 _ eq_refl) _); [vm_compute; lia|by vm_compute].
Defined.

(** ** Building a text module *)

Lemma _limit_features_rows (self self' : CountVectorizer) (X X' : csr_matrix)
    (max_doc_count : number) :
  _limit_features self X max_doc_count = (Ok X', self') →
  (shape X').1 = (shape X).1 ∧ (is_Some (vocab self) → is_Some (vocab self')).
Proof.
  unfold _limit_features. destruct (num_ge _ _); [by intros [= <- <-]|].
  destruct (_doc_freq X) as [dfs|]; [|done].
  destruct (cap_mask _ _ _ _) as [mask|]; [|done].
  destruct (vocab self) as [v|]; [|done].
  destruct (del_loop _ _) as [[[]|e] l]; [|done].
  case_decide; [done|]. intros [= <- <-]. split.
  - unfold select_columns, csr_rows. simpl. by rewrite !length_map, length_seq.
  - intros _. by eexists.
Qed.

(** What [fit_transform] returns when it returns: the tokenized documents,
    a matrix with one row for each of them, and a vectorizer that holds a
    vocabulary. *)
Lemma fit_transform_rows (self self' : CountVectorizer) (raw_documents : list string)
    (seqs : list (list string)) (X : csr_matrix) :
  fit_transform self raw_documents = (Ok (seqs, X), self') →
  batch_tokenize (tokenizer self) raw_documents = Ok seqs
  ∧ (shape X).1 = length seqs
  ∧ is_Some (vocab self').
Proof.
  unfold fit_transform.
  destruct (batch_tokenize _ _) as [seqs0|]; [|done].
  set (self0 := if bool_decide (is_Some (vocab self)) then self else _).
  assert (Htok : is_Some (vocab self0)).
  { unfold self0. case_bool_decide; [done|by eexists]. }
  destruct (_count self0 seqs0) as [X0|] eqn:HX0; [|done].
  apply _count_shape in HX0.
  assert (Hs : (shape (if binary self0 then data_fill X0 1 else X0)).1 = length seqs0)
    by (by destruct (binary self0)).
  destruct (bool_decide (is_Some (vocab self))).
  - by intros [= <- <- <-].
  - destruct (_limit_features _ _ _) as [[X1|e] self1] eqn:Hl; [|done].
    apply _limit_features_rows in Hl as [Hrows Hvoc].
    intros [= <- <- <-]. split_and!; [done|congruence|by apply Hvoc].
Qed.

Lemma NoDup_fst_functional {A B} (l : list (A * B)) (x : A) (y1 y2 : B) :
  NoDup (map fst l) → (x, y1) ∈ l → (x, y2) ∈ l → y1 = y2.
Proof.
  intros Hnd [a Ha]%list_elem_of_lookup [b Hb]%list_elem_of_lookup.
  assert (a = b) as ->.
  { apply (NoDup_lookup (map fst l) a b x Hnd); change (map fst l) with (fst <$> l);
      rewrite list_lookup_fmap; [by rewrite Ha|by rewrite Hb]. }
  congruence.
Qed.

Lemma invert_id_map_lookup (global_id_map : list (string * Z)) (raw : string) (k : Z) :
  NoDup (map snd global_id_map) → (raw, k) ∈ global_id_map →
  invert_id_map global_id_map !! k = Some raw.
Proof.
  unfold invert_id_map.
  induction global_id_map as [|it g IH] using rev_ind; intros Hnd Hin; [by inversion Hin|].
  rewrite foldl_app. simpl. rewrite map_app in Hnd. simpl in Hnd.
  apply NoDup_app in Hnd as (Hg & Hdisj & _).
  apply elem_of_app in Hin as [Hin|Hin].
  - rewrite lookup_insert_ne; [by apply IH|].
    intros <-. apply (Hdisj it.2); [|by left].
    apply list_elem_of_fmap. by exists (raw, it.2).
  - apply list_elem_of_singleton in Hin as <-. simpl. by rewrite lookup_insert_eq.
Qed.

(** The loop of [_build_text] over mapped ids whose raw ids are distinct:
    it ends normally exactly with the texts of those raw ids, in the order of
    the mapped ids, and has then removed them from the dictionary. *)
Lemma order_texts_run (mapped2raw : gmap Z string) (mapped_ids : list nat)
    (raws : list string) :
  Forall2 (λ mid raw, mapped2raw !! Z.of_nat mid = Some raw) mapped_ids raws →
  NoDup raws →
  ∀ (id_text id_text' : gmap string string) (acc texts : list string),
    order_texts mapped2raw mapped_ids id_text acc = (Ok texts, id_text') →
    ∃ ts, texts = acc ++ ts
          ∧ Forall2 (λ raw t, id_text !! raw = Some t) raws ts
          ∧ id_text' = foldl (λ d raw, delete raw d) id_text raws.
Proof.
  induction 1 as [|mid raw mids raws Hmid Hf IH]; intros Hnd d d' acc texts; simpl.
  - intros [= <- <-]. exists []. by rewrite app_nil_r.
  - rewrite Hmid. destruct (d !! raw) as [t|] eqn:Ht; [|done].
    apply NoDup_cons in Hnd as [Hnotin Hnd]. intros Hrec.
    destruct (IH Hnd _ _ _ _ Hrec) as (ts & -> & Hts & ->).
    exists (t :: ts). split_and!; [by rewrite <- app_assoc| |done].
    constructor; [done|].
    assert (Hother : Forall (λ r, r ≠ raw) raws).
    { rewrite Forall_forall. by intros r Hr ->. }
    clear -Hts Hother. induction Hts as [|r t' rs ts' Hr Hrs IH']; [constructor|].
    apply Forall_cons in Hother as [Hne Hother].
    constructor; [|by apply IH'].
    by rewrite lookup_delete_ne in Hr.
Qed.

Lemma Forall2_choice {A B} (P : A → B → Prop) (l : list A) :
  (∀ x, x ∈ l → ∃ y, P x y) → ∃ k, Forall2 P l k.
Proof.
  induction l as [|x l IH]; intros HP; [by exists []|].
  destruct (HP x) as [y Hy]; [by left|].
  destruct IH as [k Hk]; [intros z Hz; apply HP; by right|].
  exists (y :: k). by constructor.
Qed.

(** The raw ids of a global id map that numbers them [0 .. n-1], in the
    order of their numbers. *)
Lemma dense_id_map_raws (global_id_map : list (string * Z)) :
  NoDup (map fst global_id_map) →
  map snd global_id_map ≡ₚ map Z.of_nat (seq 0 (length global_id_map)) →
  ∃ raws,
    Forall2 (λ mid raw, (raw, Z.of_nat mid) ∈ global_id_map)
      (seq 0 (length global_id_map)) raws
    ∧ Forall2 (λ mid raw, invert_id_map global_id_map !! Z.of_nat mid = Some raw)
        (seq 0 (length global_id_map)) raws
    ∧ NoDup raws.
Proof.
  intros Hkeys Hperm.
  assert (Hvals : NoDup (map snd global_id_map)).
  { change (map snd global_id_map) with (snd <$> global_id_map) in *. rewrite Hperm.
    apply (NoDup_fmap_2 _). apply NoDup_seq. }
  destruct (Forall2_choice (λ mid raw, (raw, Z.of_nat mid) ∈ global_id_map)
              (seq 0 (length global_id_map))) as [raws Hraws].
  { intros mid Hmid.
    assert (Hin : Z.of_nat mid ∈ snd <$> global_id_map).
    { change (map snd global_id_map) with (snd <$> global_id_map) in Hperm.
      rewrite Hperm. apply list_elem_of_fmap. by exists mid. }
    apply list_elem_of_fmap in Hin as ([raw k] & Hk & Hin). simpl in Hk. subst k.
    by exists raw. }
  exists raws. split_and!; [done| |].
  - eapply Forall2_impl; [exact Hraws|]. intros mid raw Hin.
    by apply invert_id_map_lookup.
  - apply NoDup_alt. intros i j raw Hi Hj.
    destruct (Forall2_lookup_r _ _ _ _ _ Hraws Hi) as (mi & Hmi & Hini).
    destruct (Forall2_lookup_r _ _ _ _ _ Hraws Hj) as (mj & Hmj & Hinj).
    apply lookup_seq in Hmi as [-> _]. apply lookup_seq in Hmj as [-> _].
    simpl in *.
    pose proof (NoDup_fst_functional global_id_map raw (Z.of_nat i) (Z.of_nat j)
                  Hkeys Hini Hinj).
    lia.
Qed.

Lemma NoDup_snd_functional {A B} (l : list (A * B)) (x1 x2 : A) (y : B) :
  NoDup (map snd l) → (x1, y) ∈ l → (x2, y) ∈ l → x1 = x2.
Proof.
  intros Hnd [a Ha]%list_elem_of_lookup [b Hb]%list_elem_of_lookup.
  assert (a = b) as ->.
  { apply (NoDup_lookup (map snd l) a b y Hnd); change (map snd l) with (snd <$> l);
      rewrite list_lookup_fmap; [by rewrite Ha|by rewrite Hb]. }
  congruence.
Qed.


Lemma rmap_Ok_map {A B} (f : A → B) (l : list A) : rmap (λ x, Ok (f x)) l = Ok (map f l).
Proof. induction l as [|x l IH]; simpl; [done|]. by rewrite IH. Qed.

Lemma CountVectorizer_init_tokenizer (tk : option Tokenizer) (v : option Vocabulary)
    (mdf : number) (mf : Z) (mx : option Z) (b : bool) (cv : CountVectorizer) :
  CountVectorizer_init tk v mdf mf mx b = Ok cv →
  tokenizer cv = default BaseTokenizer_default tk.
Proof.
  unfold CountVectorizer_init. destruct (_ || _); [done|].
  destruct mx as [m|]; [case_bool_decide; [done|]|]; by intros [= <-].
Qed.

(** X17.  A build of the text that ends normally has consumed the raw texts: the
    attribute [_id_text] is gone, the vocabulary, the sequences and the counts
    are set, with one sequence for each row of the counts, and a second build
    raises [AttributeError] and changes nothing. *)
Theorem _build_text_once (self self' : TextModule) (id_text : gmap string string)
    (global_id_map : list (string * Z)) :
  _id_text self = IdDict id_text →
  _build_text self global_id_map = (Ok (), self') →
  _id_text self' = IdDeleted
  ∧ (∃ V seqs X, text_vocab self' = Some V ∧ sequences self' = Some seqs
                 ∧ counts self' = Some X ∧ length seqs = (shape X).1)
  ∧ ∀ global_id_map', _build_text self' global_id_map' = (Raise AttributeError, self').
Proof.
  intros Hd. unfold _build_text at 1. rewrite Hd.
  destruct (order_texts _ _ _ _) as [[texts|e] d']; [|done].
  destruct (CountVectorizer_init _ _ _ _ _ _) as [cv|]; [|done].
  destruct (fit_transform cv texts) as [[[seqs X]|e] cv'] eqn:Hft; [|done].
  apply fit_transform_rows in Hft as (_ & Hrows & [V HV]).
  rewrite HV, rmap_Ok_map. intros [= <-]. split_and!; [done| |].
  - exists V, (map (to_idx V) seqs), X. by rewrite length_map.
  - done.
Qed.

Lemma _build_text_once_witness :
  _id_text (_build_text module_two_texts [("u1", 0%Z); ("u2", 1%Z)]).2 = IdDeleted
  ∧ (_build_text (_build_text module_two_texts [("u1", 0%Z); ("u2", 1%Z)]).2 []).1
    = Raise AttributeError.
Proof.
  destruct (_build_text_once module_two_texts
              (_build_text module_two_texts [("u1", 0%Z); ("u2", 1%Z)]).2
              id_text_u1_u2 [("u1", 0%Z); ("u2", 1%Z)] eq_refl) as (Hdel & _ & Hagain).
  - by vm_compute.
  - split; [exact Hdel|]. by rewrite Hagain.
Defined.



(** X19.  For a global id map that numbers its raw ids [0 .. n-1] and a module
    with the default tokenizer, a build that ends normally sets one sequence
    for each raw id, and the sequence at position [k] is the text of the raw
    id numbered [k], tokenized and mapped to the ids of the fitted
    vocabulary. *)
Theorem _build_text_rows (self self' : TextModule) (id_text : gmap string string)
    (global_id_map : list (string * Z)) :
  _id_text self = IdDict id_text →
  text_tokenizer self = None →
  NoDup (map fst global_id_map) →
  map snd global_id_map ≡ₚ map Z.of_nat (seq 0 (length global_id_map)) →
  _build_text self global_id_map = (Ok (), self') →
  ∃ V seqs,
    text_vocab self' = Some V
    ∧ sequences self' = Some seqs
    ∧ length seqs = length global_id_map
    ∧ ∀ (raw : string) (k : nat),
        (raw, Z.of_nat k) ∈ global_id_map →
        ∃ t toks, id_text !! raw = Some t
                  ∧ tokenize BaseTokenizer_default t = Ok toks
                  ∧ seqs !! k = Some (to_idx V toks).
Proof.
  intros Hd Htk Hkeys Hperm. unfold _build_text. rewrite Hd.
  destruct (order_texts _ _ _ _) as [[texts|e] d'] eqn:Ho; [|done].
  destruct (dense_id_map_raws global_id_map Hkeys Hperm) as (raws & Hin & Hinv & Hnd).
  destruct (order_texts_run _ _ _ Hinv Hnd _ _ _ _ Ho) as (ts & -> & Hts & _).
  simpl. rewrite Htk.
  destruct (CountVectorizer_init _ _ _ _ _ _) as [cv|] eqn:Hcv; [|done].
  apply CountVectorizer_init_tokenizer in Hcv. simpl in Hcv.
  destruct (fit_transform cv ts) as [[[seqs X]|e] cv'] eqn:Hft; [|done].
  apply fit_transform_rows in Hft as (Hbt & _ & [V HV]).
  rewrite Hcv in Hbt. change (batch_tokenize BaseTokenizer_default ts)
    with (rmap (tokenize BaseTokenizer_default) ts) in Hbt.
  apply rmap_Forall2 in Hbt.
  rewrite HV, rmap_Ok_map. intros [= <-]. simpl.
  exists V, (map (to_idx V) seqs).
  assert (Hvals : NoDup (map snd global_id_map)).
  { change (map snd global_id_map) with (snd <$> global_id_map) in *. rewrite Hperm.
    apply (NoDup_fmap_2 _). apply NoDup_seq. }
  split_and!; [done..| |].
  - rewrite length_map.
    apply Forall2_length in Hbt, Hts, Hin. rewrite length_seq in Hin. lia.
  - intros raw k Hk.
    assert (Hlt : k < length global_id_map).
    { assert (Hkin : Z.of_nat k ∈ snd <$> global_id_map)
        by (apply list_elem_of_fmap; by exists (raw, Z.of_nat k)).
      change (map snd global_id_map) with (snd <$> global_id_map) in Hperm.
      rewrite Hperm in Hkin. apply list_elem_of_fmap in Hkin as (k' & Hk' & Hkin).
      apply elem_of_seq in Hkin. lia. }
    destruct (Forall2_lookup_l _ _ _ k k Hin) as (raw' & Hraw' & Hin').
    { by apply lookup_seq_lt. }
    assert (raw' = raw) as -> by (by eapply NoDup_snd_functional).
    destruct (Forall2_lookup_l _ _ _ k raw Hts Hraw') as (t & Ht & Hdt).
    destruct (Forall2_lookup_l _ _ _ k t Hbt Ht) as (toks & Htoks & Htok).
    exists t, toks. split_and!; [done..|].
    change (map ?f ?l) with (f <$> l). by rewrite list_lookup_fmap, Htoks.
Qed.

Lemma _build_text_rows_witness :
  ∃ V seqs,
    text_vocab (_build_text module_two_texts [("u2", 0%Z); ("u1", 1%Z)]).2 = Some V
    ∧ sequences (_build_text module_two_texts [("u2", 0%Z); ("u1", 1%Z)]).2 = Some seqs
    ∧ length seqs = 2
    ∧ seqs !! 0 = Some (to_idx V ["b"; "c"; "d"; "d"]).
Proof.
  destruct (_build_text_rows module_two_texts
              (_build_text module_two_texts [("u2", 0%Z); ("u1", 1%Z)]).2
              id_text_u1_u2 [("u2", 0%Z); ("u1", 1%Z)] eq_refl eq_refl)
    as (V & seqs & HV & Hseqs & Hlen & Hrows).
  - by apply (bool_decide_unpack _).
  - reflexivity.
  - by vm_compute.
  - exists V, seqs. split_and!; [exact HV|exact Hseqs|exact Hlen|].
    destruct (Hrows "u2" 0) as (t & toks & Ht & Htoks & Hrow); [by left|].
    rewrite Hrow. f_equal. f_equal.
    assert (t = "b c d d") as -> by (vm_compute in Ht; congruence).
    vm_compute in Htoks. congruence.
Defined.

(** ** Batches of counts *)

Lemma csr_rows_length (X : csr_matrix) : length (csr_rows X) = (shape X).1.
Proof. unfold csr_rows. by rewrite length_map, length_seq. Qed.

Lemma csr_rows_lookup (X : csr_matrix) (i : nat) (row : list (Z * Z)) :
  csr_rows X !! i = Some row → row = csr_row X i.
Proof.
  unfold csr_rows. change (map ?f ?l) with (f <$> l). rewrite list_lookup_fmap.
  destruct (seq 0 (shape X).1 !! i) as [i'|] eqn:Hi; [|done].
  apply lookup_seq in Hi as [-> _]. simpl. congruence.
Qed.

(** X20.  [batch_bow] needs counts, and every id must select a row of them (a
    negative id counts from the end): otherwise it raises [ValueError], resp.
    [IndexError].  It then returns a matrix with one row for each id and the
    columns of the counts, whose row [k] is the row of the counts the [k]-th
    id selects, with every stored value set to 1 in binary mode. *)
Theorem batch_bow_rows (self : TextModule) (batch_ids : list Z) (binary : bool) :
  (counts self = None → batch_bow self batch_ids binary = Raise ValueError)
  ∧ ∀ X, counts self = Some X →
      (Exists (λ id, ¬ (- Z.of_nat (shape X).1 ≤ id < Z.of_nat (shape X).1)%Z) batch_ids →
       batch_bow self batch_ids binary = Raise IndexError)
      ∧ (Forall (λ id, (- Z.of_nat (shape X).1 ≤ id < Z.of_nat (shape X).1)%Z) batch_ids →
         ∃ M, batch_bow self batch_ids binary = Ok M
              ∧ shape M = (length batch_ids, (shape X).2)
              ∧ ∀ (k : nat) (id : Z),
                  batch_ids !! k = Some id →
                  csr_row M k
                  = if binary
                    then map (λ e, (e.1, 1%Z)) (csr_row X (row_of_id (shape X).1 id))
                    else csr_row X (row_of_id (shape X).1 id)).
Proof.
  unfold batch_bow. split; [by intros ->|]. intros X ->. unfold select_rows. split.
  - intros Hout. rewrite rmap_getitem_outside; [done|].
    by rewrite csr_rows_length.
  - intros Hin. destruct (rmap_getitem_inside (csr_rows X) batch_ids) as (rows & -> & Hrows).
    { by rewrite csr_rows_length. }
    simpl. eexists. split_and!; [reflexivity|..].
    + apply Forall2_length in Hrows. destruct binary; simpl; by rewrite Hrows.
    + intros k id Hk.
      destruct (Forall2_lookup_l _ _ _ k id Hrows Hk) as (row & Hrow & Hlook).
      rewrite csr_rows_length in Hlook. apply csr_rows_lookup in Hlook.
      fold (row_of_id (shape X).1 id) in Hlook. rewrite <- Hlook.
      destruct binary.
      * by rewrite csr_row_data_fill, (csr_row_of_rows _ _ k row Hrow).
      * by rewrite (csr_row_of_rows _ _ k row Hrow).
Qed.

Lemma batch_bow_rows_witness :
  ∃ M, batch_bow module_counts [-1; 0]%Z true = Ok M
       ∧ shape M = (2, 2)
       ∧ csr_row M 0 = [(1, 1)]%Z.
Proof.
  destruct (proj2 (batch_bow_rows module_counts [-1; 0]%Z true) _ eq_refl) as [_ Hin].
  destruct Hin as (M & HM & Hshape & Hrow).
  - repeat constructor; vm_compute; congruence.
  - exists M. split_and!; [exact HM|exact Hshape|].
    rewrite (Hrow 0 (-1)%Z eq_refl). reflexivity.
Defined.

(** The test [test_batch_bow]. *)
Example batch_bow_corpus :
  (X ← batch_bow module_corpus [2; 1]%Z false; Ok (shape X, todense X))
  = Ok ((2, 6), [[2; 1; 0; 0; 1; 1]; [1; 1; 2; 0; 0; 0]]%Z)
  ∧ (X ← batch_bow module_corpus [0; 2]%Z true; Ok (shape X, todense X))
    = Ok ((2, 6), [[1; 1; 0; 1; 0; 0]; [1; 1; 0; 0; 1; 1]]%Z).
Proof. split; by vm_compute. Qed.

(** ** Failing batches of sequences *)









